(** * boltdb: sessions over a hierarchical bucket store

    A shallow embedding of the Go package [boltdb]: the store and its read
    and write sessions (store.go), the thirteen session methods with their
    two path resolutions, the error values (errors.go) and the page size
    constant; together with a functional model of the part of the bbolt
    engine the package calls (buckets, cursors, transactions).

    Conventions.
    - A Go [string] and the contents of a [[]byte] are a [string], a
      sequence of bytes; a [[]byte] that may be [nil] is an
      [option string], [None] being the nil slice.
    - A Go [error] is an [option error], [None] being the nil error.
    - A run-time panic is the [Panic] outcome.
    - Logging is left out: it changes no state the package reads.

    The file has three parts: the definitions (engine, store, session,
    what the properties speak about), the lemmas about them, and the
    properties of the specification, each under the identifier of its
    claim. *)

From Stdlib Require Import List String Ascii NArith ZArith Bool Lia.
Import ListNotations.

Local Open Scope list_scope.

Set Warnings "-register-all".

(** ** Outcomes of Go calls: normal return or panic *)

Inductive outcome (A : Type) : Type :=
| Return (a : A)
| Panic (msg : string).

Arguments Return {A} a.
Arguments Panic {A} msg.

(** ** Errors (github.com/pkg/errors) *)

Inductive fmtarg : Type :=
| ArgStr (s : string)
| ArgPath (p : list string).

Inductive error : Type :=
| New (msg : string)
| Wrapf (cause : error) (format : string) (args : list fmtarg).

Definition fmtarg_eq_dec (a b : fmtarg) : {a = b} + {a <> b}.
Proof.
  decide equality; [apply string_dec | apply (list_eq_dec string_dec)].
Defined.

Definition error_eq_dec (a b : error) : {a = b} + {a <> b}.
Proof.
  decide equality; [apply string_dec | apply (list_eq_dec fmtarg_eq_dec) | apply string_dec].
Defined.

(** [errors.Is]: the target is compared with every error of the chain. *)
Fixpoint Is (err target : error) : bool :=
  if error_eq_dec err target then true
  else match err with
       | New _ => false
       | Wrapf cause _ _ => Is cause target
       end.

(** [errors.Wrapf] returns nil when the wrapped error is nil. *)
Definition Wrapf_opt (e : option error) (format : string) (args : list fmtarg)
  : option error :=
  match e with
  | None => None
  | Some c => Some (Wrapf c format args)
  end.

(** errors.go *)
Definition ErrPathNotFound : error := New "path not found".
Definition ErrKeyNotFound : error := New "key not found".
Definition ErrKeyExists : error := New "key already exists".

(** [pathStr]: strings.Join(path, "/") *)
Definition pathStr (path : list string) : string := String.concat "/" path.

(** config: [const pageSize int32 = 100] *)
Definition pageSize : Z := 100.

(** ** The storage engine (go.etcd.io/bbolt), as far as the package uses it

    The engine is an external library.  The model keeps what its
    documentation and code fix about the calls the package makes: the
    contents of a transaction as a tree of buckets, keys in byte order,
    the order in which each call checks its arguments and the error it
    answers with.  The database is taken to be open and [Begin] and
    [Commit] to succeed; transactions run one at a time. *)

Module bolt.

Definition ErrBucketNotFound : error := New "bucket not found".
Definition ErrBucketExists : error := New "bucket already exists".
Definition ErrBucketNameRequired : error := New "bucket name required".
Definition ErrKeyRequired : error := New "key required".
Definition ErrKeyTooLarge : error := New "key too large".
Definition ErrValueTooLarge : error := New "value too large".
Definition ErrIncompatibleValue : error := New "incompatible value".
Definition ErrTxNotWritable : error := New "tx not writable".

Definition MaxKeySize : N := 32768.
Definition MaxValueSize : N := 2147483646.

(** A bucket is an ordered sequence of inodes, each a key with either a
    value or a nested bucket (the inode then carries [bucketLeafFlag]),
    and a sequence counter.  A value put in the running transaction is
    kept as the slice that was passed, nil included. *)
Inductive inode (B : Type) : Type :=
| Value (v : option string)
| Sub (b : B).

Arguments Value {B} v.
Arguments Sub {B} b.

Inductive bucket : Type :=
| MkBucket (sequence : N) (inodes : list (string * inode bucket)).

Definition sequence (b : bucket) : N :=
  match b with MkBucket s _ => s end.

Definition inodes (b : bucket) : list (string * inode bucket) :=
  match b with MkBucket _ l => l end.

Definition empty : bucket := MkBucket 0 [].

Definition len (s : string) : N := N.of_nat (String.length s).

(** [bytes.Compare(k, key) < 0] *)
Definition key_lt (k key : string) : bool := String.ltb k key.

(** [bytes.HasPrefix(k, prefix)] and [strings.HasPrefix] *)
Definition HasPrefix (k prefix : string) : bool := String.prefix prefix k.

(** Cursor positioning: the inodes from the first key >= [key] on. *)
Fixpoint seek {V : Type} (key : string) (l : list (string * V)) : list (string * V) :=
  match l with
  | [] => []
  | (k, x) :: rest => if key_lt k key then seek key rest else l
  end.

(** The inode under exactly [key]: seek, then [bytes.Equal(key, k)]. *)
Definition find {V : Type} (key : string) (l : list (string * V)) : option V :=
  match seek key l with
  | (k, x) :: _ => if String.eqb key k then Some x else None
  | [] => None
  end.

(** [node.put]: replace the inode under [key] or insert it in key order. *)
Fixpoint put {V : Type} (key : string) (x : V) (l : list (string * V)) : list (string * V) :=
  match l with
  | [] => [(key, x)]
  | (k, y) :: rest =>
      if key_lt k key then (k, y) :: put key x rest
      else if String.eqb key k then (key, x) :: rest
      else (key, x) :: l
  end.

(** [node.del]: remove the inode under exactly [key]. *)
Fixpoint del {V : Type} (key : string) (l : list (string * V)) : list (string * V) :=
  match l with
  | [] => []
  | (k, y) :: rest =>
      if key_lt k key then (k, y) :: del key rest
      else if String.eqb key k then rest
      else l
  end.

(** A [*Bucket] of a transaction is named by the chain of bucket names
    leading to it from the root bucket of the transaction. *)
Definition handle : Type := list string.

Definition child (name : string) (b : bucket) : option bucket :=
  match find name (inodes b) with
  | Some (Sub c) => Some c
  | _ => None
  end.

Fixpoint bucket_at (h : handle) (b : bucket) : option bucket :=
  match h with
  | [] => Some b
  | name :: rest =>
      match child name b with
      | Some c => bucket_at rest c
      | None => None
      end
  end.

(** Apply [f] to the bucket named by [h]. *)
Fixpoint modify (h : handle) (f : bucket -> bucket) (b : bucket) : bucket :=
  match h with
  | [] => f b
  | name :: rest =>
      match child name b with
      | Some c => MkBucket (sequence b) (put name (Sub (modify rest f c)) (inodes b))
      | None => b
      end
  end.

Record Tx : Type := MkTx { writable : bool; root : bucket }.

Definition with_root (t : Tx) (r : bucket) : Tx := MkTx (writable t) r.

(** The bucket a handle denotes in the transaction ([empty] for a handle
    that denotes none, which no call sequence of the package produces). *)
Definition deref (t : Tx) (b : handle) : bucket :=
  match bucket_at b (root t) with
  | Some bk => bk
  | None => empty
  end.

Definition update (t : Tx) (b : handle) (f : bucket -> bucket) : Tx :=
  with_root t (modify b f (root t)).

(** [Bucket.Bucket(name)]: nil unless [name] is a nested bucket. *)
Definition Bucket (t : Tx) (b : handle) (name : string) : option handle :=
  match find name (inodes (deref t b)) with
  | Some (Sub _) => Some (b ++ [name])
  | _ => None
  end.

(** [Bucket.CreateBucket(key)] *)
Definition CreateBucket (t : Tx) (b : handle) (key : string)
  : Tx * (option handle * option error) :=
  if negb (writable t) then (t, (None, Some ErrTxNotWritable))
  else if (len key =? 0)%N then (t, (None, Some ErrBucketNameRequired))
  else match find key (inodes (deref t b)) with
       | Some (Sub _) => (t, (None, Some ErrBucketExists))
       | Some (Value _) => (t, (None, Some ErrIncompatibleValue))
       | None =>
           (update t b (fun bk => MkBucket (sequence bk) (put key (Sub empty) (inodes bk))),
            (Some (b ++ [key]), None))
       end.

(** [Bucket.CreateBucketIfNotExists(key)] *)
Definition CreateBucketIfNotExists (t : Tx) (b : handle) (key : string)
  : Tx * (option handle * option error) :=
  match CreateBucket t b key with
  | (t', (child, Some err)) =>
      if error_eq_dec err ErrBucketExists
      then (t', (Bucket t' b key, None))
      else (t', (None, Some err))
  | (t', (child, None)) => (t', (child, None))
  end.

(** [Bucket.DeleteBucket(key)] *)
Definition DeleteBucket (t : Tx) (b : handle) (key : string) : Tx * option error :=
  if negb (writable t) then (t, Some ErrTxNotWritable)
  else match find key (inodes (deref t b)) with
       | None => (t, Some ErrBucketNotFound)
       | Some (Value _) => (t, Some ErrIncompatibleValue)
       | Some (Sub _) =>
           (update t b (fun bk => MkBucket (sequence bk) (del key (inodes bk))), None)
       end.

(** [Bucket.Get(key)]: nil if the key is absent or is a nested bucket. *)
Definition Get (t : Tx) (b : handle) (key : string) : option string :=
  match find key (inodes (deref t b)) with
  | Some (Value v) => v
  | _ => None
  end.

(** [Bucket.Put(key, value)] *)
Definition Put (t : Tx) (b : handle) (key : string) (value : option string)
  : Tx * option error :=
  if negb (writable t) then (t, Some ErrTxNotWritable)
  else if (len key =? 0)%N then (t, Some ErrKeyRequired)
  else if (MaxKeySize <? len key)%N then (t, Some ErrKeyTooLarge)
  else if (MaxValueSize <? match value with Some v => len v | None => 0 end)%N
       then (t, Some ErrValueTooLarge)
  else match find key (inodes (deref t b)) with
       | Some (Sub _) => (t, Some ErrIncompatibleValue)
       | _ =>
           (update t b (fun bk => MkBucket (sequence bk) (put key (Value value) (inodes bk))),
            None)
       end.

(** [Bucket.Delete(key)]: nil when the key does not exist. *)
Definition Delete (t : Tx) (b : handle) (key : string) : Tx * option error :=
  if negb (writable t) then (t, Some ErrTxNotWritable)
  else match find key (inodes (deref t b)) with
       | None => (t, None)
       | Some (Sub _) => (t, Some ErrIncompatibleValue)
       | Some (Value _) =>
           (update t b (fun bk => MkBucket (sequence bk) (del key (inodes bk))), None)
       end.

(** [Bucket.NextSequence()]: a uint64 counter, incremented with
    wrap-around. *)
Definition NextSequence (t : Tx) (b : handle) : Tx * (N * option error) :=
  if negb (writable t) then (t, (0%N, Some ErrTxNotWritable))
  else
    let n := ((sequence (deref t b) + 1) mod 2 ^ 64)%N in
    (update t b (fun bk => MkBucket n (inodes bk)), (n, None)).

(** [Tx.ForEach]: the names of the top-level buckets, in key order. *)
Definition ForEach (t : Tx) : list string := map fst (inodes (root t)).

(** A cursor over a bucket: the inodes of the bucket and the position,
    kept as the inodes from the current one on.  A fresh cursor and a
    cursor moved past the last inode answer nil to [Next]. *)
Record Cursor : Type := MkCursor
  { items : list (string * inode bucket);
    pos : list (string * inode bucket) }.

Definition NewCursor (t : Tx) (b : handle) : Cursor :=
  MkCursor (inodes (deref t b)) [].

(** The key and value under the cursor; the value of a nested bucket is
    nil. *)
Definition keyValue (c : Cursor) : option string * option string :=
  match pos c with
  | [] => (None, None)
  | (k, Value v) :: _ => (Some k, v)
  | (k, Sub _) :: _ => (Some k, None)
  end.

Definition First (c : Cursor) : Cursor * (option string * option string) :=
  let c' := MkCursor (items c) (items c) in (c', keyValue c').

Definition Seek (c : Cursor) (key : string)
  : Cursor * (option string * option string) :=
  let c' := MkCursor (items c) (seek key (items c)) in (c', keyValue c').

Definition Next (c : Cursor) : Cursor * (option string * option string) :=
  let c' := MkCursor (items c) (tl (pos c)) in (c', keyValue c').

(** What a committed bucket holds: values are read back from the page,
    where a value stored from a nil slice is an empty, non-nil slice. *)
Fixpoint spill (b : bucket) : bucket :=
  match b with
  | MkBucket s l =>
      MkBucket s
        (map (fun kx : string * inode bucket =>
                match kx with
                | (k, Value None) => (k, Value (Some EmptyString))
                | (k, Value (Some v)) => (k, Value (Some v))
                | (k, Sub c) => (k, Sub (spill c))
                end) l)
  end.

End bolt.

(** [DB]: the committed root bucket of the opened database file. *)
Module DB.

Record DB : Type := MkDB { data : bolt.bucket }.

(** [db.Begin(writable)] *)
Definition Begin (d : DB) (writable : bool) : bolt.Tx :=
  bolt.MkTx writable (data d).

(** [tx.Commit()] of a writable transaction begun on the database. *)
Definition Commit (t : bolt.Tx) : DB := MkDB (bolt.spill (bolt.root t)).

(** [tx.Rollback()]: the database keeps what it held. *)
Definition Rollback (d : DB) (t : bolt.Tx) : DB := d.

(** [db.View(fn)]: a read-only transaction, rolled back whatever [fn]
    returns; a panic of [fn] propagates. *)
Definition View {A : Type} (d : DB)
  (fn : bolt.Tx -> outcome ((option error * A) * bolt.Tx))
  : outcome ((option error * A) * DB) :=
  match fn (Begin d false) with
  | Panic msg => Panic msg
  | Return ((e, a), t') => Return ((e, a), Rollback d t')
  end.

(** [db.Update(fn)]: a writable transaction, committed when [fn] returns
    nil and rolled back when it returns an error; a panic of [fn]
    propagates. *)
Definition Update {A : Type} (d : DB)
  (fn : bolt.Tx -> outcome ((option error * A) * bolt.Tx))
  : outcome ((option error * A) * DB) :=
  match fn (Begin d true) with
  | Panic msg => Panic msg
  | Return ((Some e, a), t') => Return ((Some e, a), Rollback d t')
  | Return ((None, a), t') => Return ((None, a), Commit t')
  end.

End DB.

(** ** store.go and the session source *)

Record Store : Type := MkStore { db : DB.DB }.

Record Session : Type := MkSession
  { store : Store;             (* store pointer *)
    tx : option bolt.Tx;       (* session transaction *)
    err : option error }.      (* session error *)

(** The body of a method's closure runs on the transaction [tx] it is
    given.  When the session is bound ([s.tx] not nil) the closure is
    called as [fn(s.tx)], so [s.tx] and [tx] are one transaction and the
    threaded transaction is the contents of both. *)
Definition M (A : Type) : Type := bolt.Tx -> outcome (A * bolt.Tx).

Definition ret {A : Type} (a : A) : M A := fun t => Return (a, t).

Definition bind {A B : Type} (m : M A) (k : A -> M B) : M B :=
  fun t => match m t with
           | Return (a, t') => k a t'
           | Panic msg => Panic msg
           end.

Definition panic {A : Type} (msg : string) : M A := fun _ => Panic msg.

Definition reads {A : Type} (f : bolt.Tx -> A) : M A := fun t => Return (f t, t).

Definition writes {A : Type} (f : bolt.Tx -> bolt.Tx * A) : M A :=
  fun t => let (t', a) := f t in Return (a, t').

Notation "x <- m ;; k" := (bind m (fun x => k))
  (at level 61, m at next level, right associativity).
Notation "' p <- m ;; k" := (bind m (fun x => match x with p => k end))
  (at level 61, p pattern, m at next level, right associativity).

Definition nil_dereference : string := "invalid memory address or nil pointer dereference".

(** A method of the bucket [b], a [*bolt.Bucket] that may be nil. *)
Definition on_bucket {A : Type} (b : option bolt.handle) (f : bolt.handle -> M A) : M A :=
  match b with
  | Some h => f h
  | None => panic nil_dereference
  end.

(** A method of [s.tx]: the root bucket of the one transaction when the
    session is bound, a nil dereference otherwise. *)
Definition on_s_tx {A : Type} (s : Session) (f : bolt.handle -> M A) : M A :=
  match tx s with
  | Some _ => f []
  | None => panic nil_dereference
  end.

Definition PathNotFound (path : list string) : option error :=
  Some (Wrapf ErrPathNotFound "path [%s]" [ArgStr (pathStr path)]).

(** [Session.setBucket]: the loop over [path] from position [index], with
    [b] the bucket reached so far. *)
Fixpoint setBucket_range (s : Session) (path : list string) (index : nat)
  (b : option bolt.handle) (rest : list string)
  : M (option bolt.handle * option error) :=
  match rest with
  | [] =>
      match b with
      | None => ret (None, PathNotFound path)
      | Some _ => ret (b, None)
      end
  | p :: rest' =>
      b' <- (if Nat.eqb index 0
             then on_s_tx s (fun r => reads (fun t => bolt.Bucket t r p))
             else on_bucket b (fun h => reads (fun t => bolt.Bucket t h p))) ;;
      match b' with
      | None => ret (None, PathNotFound path)
      | Some _ => setBucket_range s path (S index) b' rest'
      end
  end.

Definition setBucket (s : Session) (path : list string)
  : M (option bolt.handle * option error) :=
  setBucket_range s path 0 None path.

(** [Session.setBucketIfNotExist] *)
Fixpoint setBucketIfNotExist_range (s : Session) (path : list string) (index : nat)
  (b : option bolt.handle) (rest : list string)
  : M (option bolt.handle * option error) :=
  match rest with
  | [] =>
      match b with
      | None => ret (None, PathNotFound path)
      | Some _ => ret (b, None)
      end
  | p :: rest' =>
      '(b', err) <- (if Nat.eqb index 0
                     then on_s_tx s (fun r => writes (fun t => bolt.CreateBucketIfNotExists t r p))
                     else on_bucket b (fun h => writes (fun t => bolt.CreateBucketIfNotExists t h p))) ;;
      match err with
      | Some e => ret (None, Some (Wrapf e "bucket [%s]" [ArgStr p]))
      | None => setBucketIfNotExist_range s path (S index) b' rest'
      end
  end.

Definition setBucketIfNotExist (s : Session) (path : list string)
  : M (option bolt.handle * option error) :=
  setBucketIfNotExist_range s path 0 None path.

(** The tail every method shares:
    [if s.tx == nil { err = s.store.db.View(fn) } else { err = fn(s.tx); s.err = err }]
    ([Update] instead of [View] in the mutating methods).  The result
    carries [err] and the variables the closure assigned. *)
Inductive txkind : Type := View | Update.

Definition run {A : Type} (kind : txkind) (s : Session) (fn : M (option error * A))
  : outcome (Session * (option error * A)) :=
  match tx s with
  | None =>
      match (match kind with
             | View => DB.View (db (store s)) fn
             | Update => DB.Update (db (store s)) fn
             end) with
      | Panic msg => Panic msg
      | Return ((e, a), d') => Return (MkSession (MkStore d') None (err s), (e, a))
      end
  | Some t =>
      match fn t with
      | Panic msg => Panic msg
      | Return ((e, a), t') => Return (MkSession (store s) (Some t') e, (e, a))
      end
  end.

Definition tokenOf (k : option string) : string :=
  match k with
  | Some k' => k'
  | None => EmptyString
  end.

(** [Session.Read] *)
Definition Read_fn (s : Session) (path : list string) (key : string)
  : M (option error * option string) :=
  '(b, err) <- setBucket s path ;;
  match err with
  | Some _ => ret (Some (Wrapf ErrPathNotFound "path [%s]" [ArgPath path]), None)
  | None =>
      result <- on_bucket b (fun h => reads (fun t => bolt.Get t h key)) ;;
      match result with
      | None => ret (Some (Wrapf ErrKeyNotFound "key [%s]" [ArgStr key]), result)
      | Some _ => ret (None, result)
      end
  end.

Definition Read (s : Session) (path : list string) (key : string)
  : outcome (Session * (option string * option error)) :=
  match run View s (Read_fn s path key) with
  | Panic msg => Panic msg
  | Return (s', (err, result)) => Return (s', (result, err))
  end.

(** The paging loop of [Session.List]:
    [for i := int32(0); i < pageSize; i++], with [n] turns left. *)
Fixpoint List_for (n : nat) (i : Z) (pageToken : string) (cursor : bolt.Cursor)
  (keys : list string) (values : list (option string))
  : bolt.Cursor * list string * list (option string) :=
  match n with
  | O => (cursor, keys, values)
  | S n' =>
      let '(cursor', (k, v)) :=
        if (i =? 0)%Z
        then (if String.eqb pageToken EmptyString then bolt.First cursor
              else bolt.Seek cursor pageToken)
        else bolt.Next cursor in
      match k with
      | None => (cursor', keys, values)
      | Some k' => List_for n' (i + 1)%Z pageToken cursor' (keys ++ [k']) (values ++ [v])
      end
  end.

Definition List_fn (s : Session) (path : list string) (pageToken : string)
  : M (option error * (list string * list (option string) * string)) :=
  '(b, err) <- setBucket s path ;;
  match err with
  | Some e => ret (Some e, ([], [], EmptyString))
  | None =>
      cursor <- on_bucket b (fun h => reads (fun t => bolt.NewCursor t h)) ;;
      let '(cursor', keys, values) :=
        List_for (Z.to_nat pageSize) 0 pageToken cursor [] [] in
      let '(_, (k, _)) := bolt.Next cursor' in
      ret (None, (keys, values, tokenOf k))
  end.

Definition List (s : Session) (path : list string) (pageToken : string)
  : outcome (Session * (list string * list (option string) * string * option error)) :=
  match run View s (List_fn s path pageToken) with
  | Panic msg => Panic msg
  | Return (s', (Some _, _)) => Return (s', ([], [], EmptyString, None))
  | Return (s', (None, (keys, values, nextToken))) =>
      Return (s', (keys, values, nextToken, None))
  end.

(** [Session.KeyExists] *)
Definition KeyExists_fn (s : Session) (path : list string) (key : string)
  : M (option error * unit) :=
  '(b, err) <- setBucket s path ;;
  match err with
  | Some e => ret (Some (Wrapf e "KeyExist path [%s]" [ArgPath path]), tt)
  | None =>
      buf <- on_bucket b (fun h => reads (fun t => bolt.Get t h key)) ;;
      match buf with
      | None => ret (Some (Wrapf ErrKeyNotFound "key [%s]" [ArgStr key]), tt)
      | Some _ => ret (None, tt)
      end
  end.

Definition KeyExists (s : Session) (path : list string) (key : string)
  : outcome (Session * bool) :=
  match run View s (KeyExists_fn s path key) with
  | Panic msg => Panic msg
  | Return (s', (Some _, _)) => Return (s', false)
  | Return (s', (None, _)) => Return (s', true)
  end.

(** The paging loop of [Session.ListKeys] and of [Session.ListBuckets]. *)
Fixpoint ListKeys_for (n : nat) (i : Z) (pageToken : string) (cursor : bolt.Cursor)
  (keys : list string) : bolt.Cursor * list string :=
  match n with
  | O => (cursor, keys)
  | S n' =>
      let '(cursor', (k, _)) :=
        if (i =? 0)%Z
        then (if String.eqb pageToken EmptyString then bolt.First cursor
              else bolt.Seek cursor pageToken)
        else bolt.Next cursor in
      match k with
      | None => (cursor', keys)
      | Some k' => ListKeys_for n' (i + 1)%Z pageToken cursor' (keys ++ [k'])
      end
  end.

Definition ListKeys_fn (s : Session) (path : list string) (pageToken : string)
  : M (option error * (list string * string)) :=
  '(b, err) <- setBucket s path ;;
  match err with
  | Some e => ret (Some e, ([], EmptyString))
  | None =>
      cursor <- on_bucket b (fun h => reads (fun t => bolt.NewCursor t h)) ;;
      let '(cursor', keys) := ListKeys_for (Z.to_nat pageSize) 0 pageToken cursor [] in
      let '(_, (k, _)) := bolt.Next cursor' in
      ret (None, (keys, tokenOf k))
  end.

Definition ListKeys (s : Session) (path : list string) (pageToken : string)
  : outcome (Session * (list string * string * option error)) :=
  match run View s (ListKeys_fn s path pageToken) with
  | Panic msg => Panic msg
  | Return (s', (Some _, _)) => Return (s', ([], EmptyString, None))
  | Return (s', (None, (keys, nextToken))) => Return (s', (keys, nextToken, None))
  end.

(** [Session.PrefixExists]: the loop
    [for k, _ := c.Seek(filter); k != nil && bytes.HasPrefix(k, filter); k, _ = c.Next()],
    entered with [k] the key under the cursor.  The cursor moves one inode
    forward at each turn, so [n], the number of inodes from the cursor on,
    bounds the turns. *)
Fixpoint PrefixExists_for (n : nat) (prefix filter : string) (c : bolt.Cursor)
  (k : option string) (exists_ : bool) : bool :=
  match k with
  | None => exists_
  | Some k' =>
      if negb (bolt.HasPrefix k' filter) then exists_
      else if bolt.HasPrefix k' prefix then true
      else match n with
           | O => exists_
           | S n' =>
               let '(c', (k2, _)) := bolt.Next c in
               PrefixExists_for n' prefix filter c' k2 exists_
           end
  end.

Definition PrefixExists_fn (s : Session) (path : list string) (prefix : string)
  : M (option error * bool) :=
  '(b, err) <- setBucket s path ;;
  match err with
  | Some _ => ret (Some (Wrapf ErrPathNotFound "path [%s]" [ArgPath path]), false)
  | None =>
      c <- on_bucket b (fun h => reads (fun t => bolt.NewCursor t h)) ;;
      let filter := prefix in
      let '(c', (k, _)) := bolt.Seek c filter in
      ret (None, PrefixExists_for (List.length (bolt.pos c')) prefix filter c' k false)
  end.

Definition PrefixExists (s : Session) (path : list string) (prefix : string)
  : outcome (Session * (bool * option error)) :=
  match run View s (PrefixExists_fn s path prefix) with
  | Panic msg => Panic msg
  | Return (s', (Some e, _)) => Return (s', (false, Some e))
  | Return (s', (None, exists_)) => Return (s', (exists_, None))
  end.

(** [Session.ReadScan]: the same loop, collecting keys and values. *)
Fixpoint ReadScan_for (n : nat) (prefix : string) (c : bolt.Cursor)
  (k v : option string) (keys : list string) (values : list (option string))
  : list string * list (option string) :=
  match k with
  | None => (keys, values)
  | Some k' =>
      if negb (bolt.HasPrefix k' prefix) then (keys, values)
      else match n with
           | O => (keys ++ [k'], values ++ [v])
           | S n' =>
               let '(c', (k2, v2)) := bolt.Next c in
               ReadScan_for n' prefix c' k2 v2 (keys ++ [k']) (values ++ [v])
           end
  end.

Definition ReadScan_fn (s : Session) (path : list string) (prefix : string)
  : M (option error * (list string * list (option string))) :=
  '(b, err) <- setBucket s path ;;
  match err with
  | Some _ => ret (Some (Wrapf ErrPathNotFound "path [%s]" [ArgPath path]), ([], []))
  | None =>
      c <- on_bucket b (fun h => reads (fun t => bolt.NewCursor t h)) ;;
      let '(c', (k, v)) := bolt.Seek c prefix in
      ret (None, ReadScan_for (List.length (bolt.pos c')) prefix c' k v [] [])
  end.

Definition ReadScan (s : Session) (path : list string) (prefix : string)
  : outcome (Session * (list string * list (option string) * option error)) :=
  match run View s (ReadScan_fn s path prefix) with
  | Panic msg => Panic msg
  | Return (s', (Some e, _)) => Return (s', ([], [], Some e))
  | Return (s', (None, (keys, values))) => Return (s', (keys, values, None))
  end.

(** [Session.NextSeq] *)
Definition NextSeq_fn (s : Session) (path : list string) : M (option error * N) :=
  '(b, err) <- setBucketIfNotExist s path ;;
  match err with
  | Some e => ret (Some (Wrapf e "bucket [%s]" [ArgPath path]), 0%N)
  | None =>
      '(id, err') <- on_bucket b (fun h => writes (fun t => bolt.NextSequence t h)) ;;
      ret (err', id)
  end.

Definition NextSeq (s : Session) (path : list string)
  : outcome (Session * (N * option error)) :=
  match run Update s (NextSeq_fn s path) with
  | Panic msg => Panic msg
  | Return (s', (err, id)) => Return (s', (id, err))
  end.

(** [Session.Write] *)
Definition Write_fn (s : Session) (path : list string) (key : string)
  (value : option string) : M (option error * unit) :=
  '(b, err) <- setBucketIfNotExist s path ;;
  match err with
  | Some e => ret (Some (Wrapf e "bucket [%s]" [ArgPath path]), tt)
  | None =>
      err' <- on_bucket b (fun h => writes (fun t => bolt.Put t h key value)) ;;
      match err' with
      | Some e => ret (Some (Wrapf e "createHandler" []), tt)
      | None => ret (None, tt)
      end
  end.

Definition Write (s : Session) (path : list string) (key : string)
  (value : option string) : outcome (Session * option error) :=
  match run Update s (Write_fn s path key value) with
  | Panic msg => Panic msg
  | Return (s', (err, _)) => Return (s', err)
  end.

(** [Session.DeleteKey] *)
Definition DeleteKey_fn (s : Session) (path : list string) (key : string)
  : M (option error * unit) :=
  '(b, err) <- setBucketIfNotExist s path ;;
  match err with
  | Some _ => ret (None, tt)
  | None =>
      err' <- on_bucket b (fun h => writes (fun t => bolt.Delete t h key)) ;;
      match err' with
      | Some e =>
          ret (Some (Wrapf e "delete path:[%s] key:[%s]" [ArgPath path; ArgStr key]), tt)
      | None => ret (None, tt)
      end
  end.

Definition DeleteKey (s : Session) (path : list string) (key : string)
  : outcome (Session * option error) :=
  match run Update s (DeleteKey_fn s path key) with
  | Panic msg => Panic msg
  | Return (s', (err, _)) => Return (s', err)
  end.

(** [Session.BucketExists] *)
Definition BucketExists_fn (s : Session) (path : list string) : M (option error * unit) :=
  '(_, err) <- setBucket s path ;;
  ret (err, tt).

Definition BucketExists (s : Session) (path : list string) : outcome (Session * bool) :=
  match run View s (BucketExists_fn s path) with
  | Panic msg => Panic msg
  | Return (s', (err, _)) =>
      if match err with Some e => Is e ErrPathNotFound | None => false end
      then Return (s', false)
      else Return (s', match err with None => true | Some _ => false end)
  end.

(** [Session.CreateBucket] *)
Definition CreateBucket_fn (s : Session) (path : list string) : M (option error * unit) :=
  '(b, err) <- setBucketIfNotExist s path ;;
  match err with
  | Some e => ret (Some (Wrapf e "bucket [%s]" [ArgPath path]), tt)
  | None =>
      match b with
      | None => ret (Wrapf_opt err "bucket [%s]" [ArgPath path], tt)
      | Some _ => ret (None, tt)
      end
  end.

Definition CreateBucket (s : Session) (path : list string)
  : outcome (Session * option error) :=
  match run Update s (CreateBucket_fn s path) with
  | Panic msg => Panic msg
  | Return (s', (err, _)) => Return (s', err)
  end.

Definition slice_bounds : string := "slice bounds out of range [:-1]".

(** [Session.DeleteBucket]: [tx] is the transaction the closure is given. *)
Definition DeleteBucket_fn (s : Session) (path : list string) : M (option error * unit) :=
  if Nat.eqb (List.length path) 1
  then err <- writes (fun tx => bolt.DeleteBucket tx [] (nth 0 path EmptyString)) ;;
       ret (err, tt)
  else if Nat.eqb (List.length path) 0 then panic slice_bounds
  else
    '(b, err) <- setBucket s (firstn (List.length path - 1) path) ;;
    match err with
    | Some _ => ret (None, tt)
    | None =>
        err' <- on_bucket b (fun h => writes (fun t =>
                  bolt.DeleteBucket t h (nth (List.length path - 1) path EmptyString))) ;;
        match err' with
        | Some e => if Is e bolt.ErrBucketNotFound then ret (None, tt) else ret (err', tt)
        | None => ret (err', tt)
        end
    end.

Definition DeleteBucket (s : Session) (path : list string)
  : outcome (Session * option error) :=
  match run Update s (DeleteBucket_fn s path) with
  | Panic msg => Panic msg
  | Return (s', (err, _)) => Return (s', err)
  end.

(** [Session.ListBuckets]: with an empty path the names come from
    [tx.ForEach], [tx] being the transaction the closure is given. *)
Definition ListBuckets_fn (s : Session) (path : list string) (pageToken : string)
  : M (option error * (list string * string)) :=
  if Nat.eqb (List.length path) 0
  then buckets <- reads (fun tx => bolt.ForEach tx) ;;
       ret (None, (buckets, EmptyString))
  else
    '(b, err) <- setBucket s path ;;
    match err with
    | Some e => ret (Some e, ([], EmptyString))
    | None =>
        cursor <- on_bucket b (fun h => reads (fun t => bolt.NewCursor t h)) ;;
        let '(cursor', buckets) :=
          ListKeys_for (Z.to_nat pageSize) 0 pageToken cursor [] in
        let '(_, (k, _)) := bolt.Next cursor' in
        ret (None, (buckets, tokenOf k))
    end.

Definition ListBuckets (s : Session) (path : list string) (pageToken : string)
  : outcome (Session * (list string * string * option error)) :=
  match run View s (ListBuckets_fn s path pageToken) with
  | Panic msg => Panic msg
  | Return (s', (Some e, _)) => Return (s', ([], EmptyString, Some e))
  | Return (s', (None, (buckets, nextToken))) => Return (s', (buckets, nextToken, None))
  end.

(** [Store.ReadSession] and [Store.WriteSession] on an opened store: the
    session, and the closer applied to the session as it is when closed. *)
Definition ReadSession (st : Store) : Session :=
  MkSession st (Some (DB.Begin (db st) false)) None.

Definition ReadSession_closer (s : Session) : outcome Store :=
  match tx s with
  | None => Panic nil_dereference
  | Some t => Return (MkStore (DB.Rollback (db (store s)) t))
  end.

Definition WriteSession (st : Store) : Session :=
  MkSession st (Some (DB.Begin (db st) true)) None.

Definition WriteSession_closer (s : Session) : outcome Store :=
  match tx s with
  | None => Panic nil_dereference
  | Some t =>
      match err s with
      | Some _ => Return (MkStore (DB.Rollback (db (store s)) t))
      | None => Return (MkStore (DB.Commit t))
      end
  end.

(** ** Sequences of operations on a session *)

Inductive op : Type :=
| OpRead (path : list string) (key : string)
| OpList (path : list string) (pageToken : string)
| OpKeyExists (path : list string) (key : string)
| OpListKeys (path : list string) (pageToken : string)
| OpPrefixExists (path : list string) (prefix : string)
| OpReadScan (path : list string) (prefix : string)
| OpNextSeq (path : list string)
| OpWrite (path : list string) (key : string) (value : option string)
| OpDeleteKey (path : list string) (key : string)
| OpBucketExists (path : list string)
| OpCreateBucket (path : list string)
| OpDeleteBucket (path : list string)
| OpListBuckets (path : list string) (pageToken : string).

Definition session_of {A : Type} (o : outcome (Session * A)) : outcome Session :=
  match o with
  | Return (s, _) => Return s
  | Panic msg => Panic msg
  end.

(** The session after one call. *)
Definition call (o : op) (s : Session) : outcome Session :=
  match o with
  | OpRead path key => session_of (Read s path key)
  | OpList path pageToken => session_of (List s path pageToken)
  | OpKeyExists path key => session_of (KeyExists s path key)
  | OpListKeys path pageToken => session_of (ListKeys s path pageToken)
  | OpPrefixExists path prefix => session_of (PrefixExists s path prefix)
  | OpReadScan path prefix => session_of (ReadScan s path prefix)
  | OpNextSeq path => session_of (NextSeq s path)
  | OpWrite path key value => session_of (Write s path key value)
  | OpDeleteKey path key => session_of (DeleteKey s path key)
  | OpBucketExists path => session_of (BucketExists s path)
  | OpCreateBucket path => session_of (CreateBucket s path)
  | OpDeleteBucket path => session_of (DeleteBucket s path)
  | OpListBuckets path pageToken => session_of (ListBuckets s path pageToken)
  end.

(** The error the closure of the call returns, on the transaction [t]. *)
Definition error_of {A : Type} (m : M (option error * A)) (t : bolt.Tx)
  : outcome (option error) :=
  match m t with
  | Return ((e, _), _) => Return e
  | Panic msg => Panic msg
  end.

Definition fn_error (o : op) (s : Session) (t : bolt.Tx) : outcome (option error) :=
  match o with
  | OpRead path key => error_of (Read_fn s path key) t
  | OpList path pageToken => error_of (List_fn s path pageToken) t
  | OpKeyExists path key => error_of (KeyExists_fn s path key) t
  | OpListKeys path pageToken => error_of (ListKeys_fn s path pageToken) t
  | OpPrefixExists path prefix => error_of (PrefixExists_fn s path prefix) t
  | OpReadScan path prefix => error_of (ReadScan_fn s path prefix) t
  | OpNextSeq path => error_of (NextSeq_fn s path) t
  | OpWrite path key value => error_of (Write_fn s path key value) t
  | OpDeleteKey path key => error_of (DeleteKey_fn s path key) t
  | OpBucketExists path => error_of (BucketExists_fn s path) t
  | OpCreateBucket path => error_of (CreateBucket_fn s path) t
  | OpDeleteBucket path => error_of (DeleteBucket_fn s path) t
  | OpListBuckets path pageToken => error_of (ListBuckets_fn s path pageToken) t
  end.

(** The session after a sequence of calls, the first call first. *)
Fixpoint calls (ops : list op) (s : Session) : outcome Session :=
  match ops with
  | [] => Return s
  | o :: rest =>
      match call o s with
      | Return s' => calls rest s'
      | Panic msg => Panic msg
      end
  end.

(** A store whose database is empty. *)
Definition emptyStore : Store := MkStore (DB.MkDB bolt.empty).

(** ** Drivers a caller writes: paging until the token is empty *)

(** Calls [ListKeys] from [pageToken] on, feeding each continuation token
    to the next call, and concatenates the pages; [None] when [fuel] calls
    did not reach an empty token or a call panicked. *)
Fixpoint ListKeys_all (fuel : nat) (s : Session) (path : list string)
  (pageToken : string) : option (list string) :=
  match fuel with
  | O => None
  | S fuel' =>
      match ListKeys s path pageToken with
      | Return (s', (keys, nextToken, _)) =>
          if String.eqb nextToken EmptyString then Some keys
          else option_map (app keys) (ListKeys_all fuel' s' path nextToken)
      | Panic _ => None
      end
  end.

Fixpoint ListBuckets_all (fuel : nat) (s : Session) (path : list string)
  (pageToken : string) : option (list string) :=
  match fuel with
  | O => None
  | S fuel' =>
      match ListBuckets s path pageToken with
      | Return (s', (buckets, nextToken, _)) =>
          if String.eqb nextToken EmptyString then Some buckets
          else option_map (app buckets) (ListBuckets_all fuel' s' path nextToken)
      | Panic _ => None
      end
  end.

Fixpoint List_all (fuel : nat) (s : Session) (path : list string)
  (pageToken : string) : option (list string * list (option string)) :=
  match fuel with
  | O => None
  | S fuel' =>
      match List s path pageToken with
      | Return (s', (keys, values, nextToken, _)) =>
          if String.eqb nextToken EmptyString then Some (keys, values)
          else option_map (fun kv => (keys ++ fst kv, values ++ snd kv))
                 (List_all fuel' s' path nextToken)
      | Panic _ => None
      end
  end.

(** ** What the claims speak about *)

(** The value a cursor reports for an inode. *)
Definition value_of (x : bolt.inode bolt.bucket) : option string :=
  match x with
  | bolt.Value v => v
  | bolt.Sub _ => None
  end.

Definition keys_of (l : list (string * bolt.inode bolt.bucket)) : list string :=
  map fst l.

Definition values_of (l : list (string * bolt.inode bolt.bucket)) : list (option string) :=
  map (fun kx => value_of (snd kx)) l.

(** Keys in strictly ascending byte order, the order the engine keeps. *)
Fixpoint ascending (keys : list string) : bool :=
  match keys with
  | [] => true
  | k :: rest =>
      match rest with
      | [] => true
      | k' :: _ => bolt.key_lt k k' && ascending rest
      end
  end.

(** The container a path names in a transaction, if it resolves: a
    non-empty chain of nested buckets from the root. *)
Definition resolves (t : bolt.Tx) (path : list string) : option bolt.bucket :=
  match path with
  | [] => None
  | _ :: _ => bolt.bucket_at path (bolt.root t)
  end.

(** The bytes of a slice. *)
Definition bytes_of (v : option string) : string :=
  match v with
  | Some b => b
  | None => EmptyString
  end.

(** The committed image of an inode. *)
Definition spill_inode (kx : string * bolt.inode bolt.bucket)
  : string * bolt.inode bolt.bucket :=
  match kx with
  | (k, bolt.Value None) => (k, bolt.Value (Some EmptyString))
  | (k, bolt.Value (Some v)) => (k, bolt.Value (Some v))
  | (k, bolt.Sub c) => (k, bolt.Sub (bolt.spill c))
  end.

(** The session error after each call of a sequence, the first call first
    (up to a panic). *)
Fixpoint recorded (ops : list op) (s : Session) : list (option error) :=
  match ops with
  | [] => []
  | o :: rest =>
      match call o s with
      | Return s' => err s' :: recorded rest s'
      | Panic _ => []
      end
  end.

(** The session a sequence of calls leaves, the transaction a session is
    bound to and the bucket a path resolves to, for the examples below. *)
Definition session_after (ops : list op) (s : Session) : Session :=
  match calls ops s with
  | Return s' => s'
  | Panic _ => s
  end.

Definition tx_of (s : Session) : bolt.Tx :=
  match tx s with
  | Some t => t
  | None => DB.Begin (db (store s)) true
  end.

Definition bucket_of (s : Session) (path : list string) : bolt.bucket :=
  match resolves (tx_of s) path with
  | Some bk => bk
  | None => bolt.empty
  end.

(** One hundred and one one-byte bucket names, in ascending order. *)
Definition top_names : list string :=
  map (fun n => String (ascii_of_nat n) EmptyString) (seq 32 101).

(** A write session in which every name of [top_names] was created as a
    top-level bucket. *)
Definition crowded : Session :=
  session_after (map (fun name => OpCreateBucket [name]) top_names)
    (WriteSession emptyStore).

(** The write session of the tests after its three writes under
    [l1a/l2a/l3a] (session_test.go, TestListBucketsRoots). *)
Definition sample_path : list string := ["l1a"; "l2a"; "l3a"]%string.

Definition sample : Session :=
  session_after [OpWrite sample_path "k1a" (Some "v1a");
                 OpWrite sample_path "k2a" (Some "v2a");
                 OpWrite sample_path "k3a" (Some "v3a")]%string
    (WriteSession emptyStore).

Definition sample_tx : bolt.Tx := tx_of sample.

Definition sample_bucket : bolt.bucket := bucket_of sample sample_path.

(** The inodes a prefix scan visits and keeps: from the first key at or
    after the prefix, up to the first key that does not begin with it. *)
Fixpoint take_prefixed (prefix : string) (l : list (string * bolt.inode bolt.bucket))
  : list (string * bolt.inode bolt.bucket) :=
  match l with
  | [] => []
  | (k, x) :: rest =>
      if bolt.HasPrefix k prefix then (k, x) :: take_prefixed prefix rest else []
  end.

Definition scanned (prefix : string) (l : list (string * bolt.inode bolt.bucket))
  : list (string * bolt.inode bolt.bucket) :=
  take_prefixed prefix (bolt.seek prefix l).

(** The inodes whose key begins with the prefix. *)
Definition matching (prefix : string) (l : list (string * bolt.inode bolt.bucket))
  : list (string * bolt.inode bolt.bucket) :=
  filter (fun kx => bolt.HasPrefix (fst kx) prefix) l.

(** [Get] finds no value: the path does not resolve, or it resolves and
    the bucket has no value under the key. *)
Definition missing (t : bolt.Tx) (path : list string) (key : string) : Prop :=
  match resolves t path with
  | None => True
  | Some _ => bolt.Get t path key = None
  end.

(** Where a page starts: the first inode, or the first inode at or after
    the page token. *)
Definition page_start (pageToken : string) (l : list (string * bolt.inode bolt.bucket))
  : list (string * bolt.inode bolt.bucket) :=
  if String.eqb pageToken EmptyString then l else bolt.seek pageToken l.

(** The continuation token: the key of the inode after the page, if any. *)
Definition next_token (l : list (string * bolt.inode bolt.bucket)) : string :=
  match l with
  | [] => EmptyString
  | (k, _) :: _ => k
  end.

(** Two hundred and fifty keys, ["000"] to ["249"], in ascending order. *)
Definition digit (n : nat) : ascii := ascii_of_nat (48 + n).

Definition many_keys : list string :=
  map (fun n => String (digit (n / 100))
                  (String (digit ((n / 10) mod 10))
                     (String (digit (n mod 10)) EmptyString)))
      (seq 0 250).

(** A write session that wrote each of them, under itself, in bucket [b]. *)
Definition long_session : Session :=
  session_after (map (fun k => OpWrite ["b"%string] k (Some k)) many_keys)
    (WriteSession emptyStore).

Definition long_tx : bolt.Tx := tx_of long_session.

Definition long_bucket : bolt.bucket := bucket_of long_session ["b"%string].

(** The order the engine keeps: in a bucket and in every bucket nested in
    it, keys are in strictly ascending byte order. *)
Fixpoint ordered (b : bolt.bucket) : bool :=
  match b with
  | bolt.MkBucket _ l =>
      ascending (map fst l) &&
      forallb (fun kx : string * bolt.inode bolt.bucket =>
                 match kx with
                 | (_, bolt.Value _) => true
                 | (_, bolt.Sub c) => ordered c
                 end) l
  end.

(** The nested buckets of an inode list are ordered. *)
Definition subs_ordered (l : list (string * bolt.inode bolt.bucket)) : bool :=
  forallb (fun kx : string * bolt.inode bolt.bucket =>
             match kx with
             | (_, bolt.Value _) => true
             | (_, bolt.Sub c) => ordered c
             end) l.

(** The stores write sessions produce from the empty store. *)
Inductive reachable : Store -> Prop :=
| reachable_empty : reachable emptyStore
| reachable_session (st st' : Store) (ops : list op) (s : Session) :
    reachable st ->
    calls ops (WriteSession st) = Return s ->
    WriteSession_closer s = Return st' ->
    reachable st'.

(** A computation on the transaction that keeps its buckets ordered. *)
Definition keeps_order {A : Type} (m : M A) : Prop :=
  forall t a t', m t = Return (a, t') ->
                 ordered (bolt.root t) = true -> ordered (bolt.root t') = true.

(** The store a write session leaves when closed after a sequence of
    calls. *)
Definition store_after (ops : list op) (st : Store) : Store :=
  match WriteSession_closer (session_after ops (WriteSession st)) with
  | Return st' => st'
  | Panic _ => st
  end.

(** session_test.go: the calls of TestListBucketsRoots and of
    TestListBucketsSubLevel before their listings. *)
Definition roots_calls : list op :=
  [OpWrite ["l1a"; "l2a"; "l3a"] "k1a" (Some "v1a");
   OpWrite ["l1a"; "l2a"; "l3a"] "k2a" (Some "v2a");
   OpWrite ["l1a"; "l2a"; "l3a"] "k3a" (Some "v3a");
   OpRead ["l1a"; "l2a"; "l3a"] "k1a";
   OpWrite ["l1b"; "l2b"; "l3b"] "k1b" (Some "v1b");
   OpRead ["l1b"; "l2b"; "l3b"] "k1b"]%string.

Definition sublevel_calls : list op :=
  [OpWrite ["l1a"; "l2a"; "l3a"] "k1a" (Some "v1a");
   OpWrite ["l1a"; "l2b"; "l3a"] "k2a" (Some "v2a");
   OpWrite ["l1a"; "l2c"; "l3a"] "k3a" (Some "v3a");
   OpRead ["l1a"; "l2a"; "l3a"] "k1a";
   OpWrite ["l1a"; "l2a"; "l3b"] "k1b" (Some "v1b");
   OpRead ["l11"; "l2a"; "l3b"] "k1b"]%string.

(** The store after the two tests, each closed after its listings. *)
Definition tested_store : Store :=
  store_after
    (sublevel_calls ++
     [OpListBuckets ["l1a"%string] EmptyString;
      OpListBuckets ["l1a"%string; "l2a"%string] EmptyString])
    (store_after (roots_calls ++ [OpListBuckets [] EmptyString]) emptyStore).

(** What a call returns to its caller, when it returns. *)
Definition result_of {A : Type} (o : outcome (Session * A)) : option A :=
  match o with
  | Return (_, a) => Some a
  | Panic _ => None
  end.

(** The calls that only look up: their closures run under [db.View]. *)
Definition is_lookup (o : op) : bool :=
  match o with
  | OpRead _ _ | OpList _ _ | OpKeyExists _ _ | OpListKeys _ _
  | OpPrefixExists _ _ | OpReadScan _ _ | OpBucketExists _ | OpListBuckets _ _ => true
  | OpNextSeq _ | OpWrite _ _ _ | OpDeleteKey _ _ | OpCreateBucket _
  | OpDeleteBucket _ => false
  end.

(** A computation that leaves the transaction as it found it. *)
Definition unchanged {A : Type} (m : M A) : Prop :=
  forall t a t', m t = Return (a, t') -> t' = t.

(** A computation that leaves a read-only transaction as it found it. *)
Definition spares_read_only {A : Type} (m : M A) : Prop :=
  forall t a t', m t = Return (a, t') -> bolt.writable t = false -> t' = t.

(** The value [Get] finds under a key of the container a path names: nil
    when the path does not resolve. *)
Definition stored (t : bolt.Tx) (path : list string) (key : string) : option string :=
  match resolves t path with
  | Some bk =>
      match bolt.find key (bolt.inodes bk) with
      | Some (bolt.Value v) => v
      | _ => None
      end
  | None => None
  end.

(** Whether the engine resolves [path] below [b], creating what is
    missing: no segment is empty and none falls on a plain key. *)
Fixpoint creatable (path : list string) (b : bolt.bucket) : bool :=
  match path with
  | [] => true
  | p :: rest =>
      negb (bolt.len p =? 0)%N &&
      match bolt.find p (bolt.inodes b) with
      | None => forallb (fun q => negb (bolt.len q =? 0)%N) rest
      | Some (bolt.Sub c) => creatable rest c
      | Some (bolt.Value _) => false
      end
  end.

(** The writes a transaction accepts: the transaction is writable, the
    path is not empty and can be resolved or created, the key is not empty,
    not longer than the engine allows and names no nested bucket of the
    container, and the value is not larger than the engine allows. *)
Definition accepted (t : bolt.Tx) (path : list string) (key : string)
  (value : option string) : bool :=
  bolt.writable t &&
  match path with
  | [] => false
  | _ :: _ => creatable path (bolt.root t)
  end &&
  negb (bolt.len key =? 0)%N &&
  (bolt.len key <=? bolt.MaxKeySize)%N &&
  (bolt.len (bytes_of value) <=? bolt.MaxValueSize)%N &&
  match resolves t path with
  | Some bk =>
      match bolt.find key (bolt.inodes bk) with
      | Some (bolt.Sub _) => false
      | _ => true
      end
  | None => true
  end.

(** A write session whose container [a] holds a plain key, [k1], and a
    nested bucket, [sub]. *)
Definition mixed : Session :=
  session_after [OpWrite ["a"%string] "k1"%string (Some "v1"%string);
                 OpCreateBucket ["a"%string; "sub"%string]]
    (WriteSession emptyStore).

(** ** Byte-string order *)

Section ByteOrder.

Lemma ascii_compare_refl (a : ascii) : Ascii.compare a a = Eq.
Proof. unfold Ascii.compare. apply N.compare_refl. Qed.

Lemma compare_refl (s : string) : String.compare s s = Eq.
Proof.
  induction s as [| a s IH]; simpl; [reflexivity |].
  now rewrite ascii_compare_refl.
Qed.

Lemma ascii_compare_trans (a b c : ascii) :
  Ascii.compare a b = Lt -> Ascii.compare b c = Lt -> Ascii.compare a c = Lt.
Proof.
  unfold Ascii.compare. rewrite !N.compare_lt_iff. lia.
Qed.

Lemma compare_trans (s1 s2 s3 : string) :
  String.compare s1 s2 = Lt -> String.compare s2 s3 = Lt -> String.compare s1 s3 = Lt.
Proof.
  revert s2 s3.
  induction s1 as [| a s1 IH]; intros [| b s2] [| c s3]; simpl; try congruence.
  destruct (Ascii.compare a b) eqn:Hab; try discriminate;
    destruct (Ascii.compare b c) eqn:Hbc; try discriminate; intros H12 H23.
  - apply Ascii.compare_eq_iff in Hab, Hbc. subst.
    rewrite ascii_compare_refl. eauto.
  - apply Ascii.compare_eq_iff in Hab. subst. now rewrite Hbc.
  - apply Ascii.compare_eq_iff in Hbc. subst. now rewrite Hab.
  - now rewrite (ascii_compare_trans a b c).
Qed.

Lemma key_lt_irrefl (k : string) : bolt.key_lt k k = false.
Proof. unfold bolt.key_lt, String.ltb. now rewrite compare_refl. Qed.

Lemma key_lt_trans (a b c : string) :
  bolt.key_lt a b = true -> bolt.key_lt b c = true -> bolt.key_lt a c = true.
Proof.
  unfold bolt.key_lt, String.ltb.
  destruct (String.compare a b) eqn:Hab; try discriminate.
  destruct (String.compare b c) eqn:Hbc; try discriminate.
  now rewrite (compare_trans a b c).
Qed.

Lemma key_lt_asym (a b : string) :
  bolt.key_lt a b = true -> bolt.key_lt b a = false.
Proof.
  unfold bolt.key_lt, String.ltb. rewrite (String.compare_antisym b a).
  now destruct (String.compare a b).
Qed.

Lemma key_lt_empty (k : string) : bolt.key_lt k EmptyString = false.
Proof. now destruct k. Qed.

Lemma key_lt_nonempty (a b : string) : bolt.key_lt a b = true -> b <> EmptyString.
Proof. intros H ->. now rewrite key_lt_empty in H. Qed.

(** Neither smaller: equal. *)
Lemma key_lt_total (a b : string) :
  bolt.key_lt a b = false -> bolt.key_lt b a = false -> a = b.
Proof.
  unfold bolt.key_lt, String.ltb. rewrite (String.compare_antisym b a).
  destruct (String.compare a b) eqn:H; simpl; try discriminate.
  intros _ _. now apply String.compare_eq_iff.
Qed.

Lemma HasPrefix_empty (k : string) : bolt.HasPrefix k EmptyString = true.
Proof. now destruct k. Qed.

(** A key below the prefix does not begin with it. *)
Lemma HasPrefix_not_lt (p k : string) :
  bolt.HasPrefix k p = true -> bolt.key_lt k p = false.
Proof.
  unfold bolt.HasPrefix, bolt.key_lt, String.ltb.
  revert k. induction p as [| a p IH]; intros [| b k]; simpl; try congruence.
  destruct (ascii_dec a b) as [-> | _]; [| discriminate].
  rewrite ascii_compare_refl. apply IH.
Qed.

(** The keys beginning with a prefix are an interval of the order. *)
Lemma HasPrefix_between (p k k' : string) :
  bolt.key_lt k p = false -> bolt.key_lt k' k = false ->
  bolt.HasPrefix k' p = true -> bolt.HasPrefix k p = true.
Proof.
  unfold bolt.HasPrefix, bolt.key_lt, String.ltb.
  revert k k'.
  induction p as [| a p IH]; intros k k'; [now destruct k |].
  destruct k' as [| c k']; [discriminate |].
  destruct k as [| b k]; [discriminate |]. simpl.
  destruct (ascii_dec a c) as [<- | _]; [| discriminate].
  rewrite (Ascii.compare_antisym a b).
  destruct (Ascii.compare b a) eqn:Hba; simpl; try discriminate.
  apply Ascii.compare_eq_iff in Hba. subst b.
  destruct (ascii_dec a a) as [_ | n]; [| now elim n].
  apply IH.
Qed.

End ByteOrder.

(** ** Ordered inode lists *)

Section Inodes.

Context {V : Type}.
Implicit Types (l : list (string * V)) (k key : string).

Lemma ascending_tail k (ks : list string) :
  ascending (k :: ks) = true -> ascending ks = true.
Proof.
  destruct ks as [| k' ks]; [reflexivity |].
  intros H. change (bolt.key_lt k k' && ascending (k' :: ks) = true) in H.
  now apply andb_true_iff in H.
Qed.

Lemma ascending_head k (ks : list string) :
  ascending (k :: ks) = true -> Forall (fun k' => bolt.key_lt k k' = true) ks.
Proof.
  revert k. induction ks as [| k' ks IH]; intros k H; [constructor |].
  change (bolt.key_lt k k' && ascending (k' :: ks) = true) in H.
  apply andb_true_iff in H. destruct H as [Hk Hrest].
  constructor; [exact Hk |].
  eapply Forall_impl; [| apply (IH k' Hrest)].
  intros k'' H'. now apply (key_lt_trans k k' k'').
Qed.

Lemma ascending_skipn (n : nat) (ks : list string) :
  ascending ks = true -> ascending (skipn n ks) = true.
Proof.
  revert ks. induction n as [| n IH]; intros ks H; [exact H |].
  destruct ks as [| k ks]; [reflexivity |].
  simpl. apply IH. now apply ascending_tail with k.
Qed.

Lemma seek_empty l : bolt.seek EmptyString l = l.
Proof. destruct l as [| [k x] l]; [reflexivity |]. simpl. now rewrite key_lt_empty. Qed.

(** Seeking a key of an ascending list lands on its inode. *)
Lemma seek_skipn l : forall n k x rest,
  ascending (map fst l) = true ->
  skipn n l = (k, x) :: rest ->
  bolt.seek k l = skipn n l.
Proof.
  induction l as [| [k0 x0] l IH]; intros n k x rest Hasc Hn.
  - now destruct n.
  - destruct n as [| n].
    + simpl in Hn. inversion Hn; subst. simpl. now rewrite key_lt_irrefl.
    + simpl in Hn |- *.
      assert (Hlt : bolt.key_lt k0 k = true).
      { apply ascending_head in Hasc. rewrite Forall_forall in Hasc.
        apply Hasc. change k with (fst (k, x)). apply in_map.
        rewrite <- (firstn_skipn n l), Hn. apply in_or_app. right. now left. }
      rewrite Hlt. apply (IH n k x rest); [| exact Hn].
      now apply ascending_tail with k0.
Qed.

(** What [seek] skips is below the key. *)
Lemma seek_split key l :
  exists skipped, l = skipped ++ bolt.seek key l /\
    Forall (fun kx => bolt.key_lt (fst kx) key = true) skipped.
Proof.
  induction l as [| [k x] l [sk [Heq Hsk]]].
  - exists []. now split.
  - simpl. destruct (bolt.key_lt k key) eqn:Hk.
    + exists ((k, x) :: sk). split; [simpl; now f_equal | now constructor].
    + exists []. now split.
Qed.

(** In an ascending list, what [seek] keeps is not below the key. *)
Lemma seek_above key l :
  ascending (map fst l) = true ->
  Forall (fun kx => bolt.key_lt (fst kx) key = false) (bolt.seek key l).
Proof.
  induction l as [| [k x] l IH]; intros Hasc; [constructor |].
  simpl. destruct (bolt.key_lt k key) eqn:Hk.
  - apply IH. now apply ascending_tail with k.
  - constructor; [exact Hk |].
    simpl in Hasc. apply ascending_head in Hasc.
    rewrite Forall_forall in Hasc |- *. intros [k' x'] Hin. simpl.
    destruct (bolt.key_lt k' key) eqn:Hk'; [| reflexivity].
    assert (Hkk' : bolt.key_lt k k' = true).
    { apply Hasc. change k' with (fst (k', x')). now apply in_map. }
    now rewrite (key_lt_trans k k' key Hkk' Hk') in Hk.
Qed.

Lemma ascending_seek key l :
  ascending (map fst l) = true -> ascending (map fst (bolt.seek key l)) = true.
Proof.
  induction l as [| [k x] l IH]; intros Hasc; [reflexivity |].
  simpl. destruct (bolt.key_lt k key); [| exact Hasc].
  apply IH. now apply ascending_tail with k.
Qed.

Lemma seek_put key (x : V) l :
  exists rest, bolt.seek key (bolt.put key x l) = (key, x) :: rest.
Proof.
  induction l as [| [k y] l [rest IH]]; simpl.
  - rewrite key_lt_irrefl. now exists [].
  - destruct (bolt.key_lt k key) eqn:Hk; simpl.
    + rewrite Hk. now exists rest.
    + destruct (String.eqb key k); simpl; rewrite key_lt_irrefl; eauto.
Qed.

Lemma find_put key (x : V) l : bolt.find key (bolt.put key x l) = Some x.
Proof.
  unfold bolt.find. destruct (seek_put key x l) as [rest ->].
  now rewrite String.eqb_refl.
Qed.

Lemma seek_map {W : Type} (g : string * V -> string * W) key l :
  (forall kx, fst (g kx) = fst kx) ->
  bolt.seek key (map g l) = map g (bolt.seek key l).
Proof.
  intros Hg. induction l as [| [k x] l IH]; [reflexivity |].
  simpl. specialize (Hg (k, x)). destruct (g (k, x)) as [k' x'] eqn:E.
  simpl in Hg. subst k'. destruct (bolt.key_lt k key); [exact IH |].
  simpl. now rewrite E.
Qed.

End Inodes.

(** ** Buckets of a transaction *)

Lemma bucket_at_app (h r : bolt.handle) (b : bolt.bucket) :
  bolt.bucket_at (h ++ r) b =
  match bolt.bucket_at h b with
  | Some c => bolt.bucket_at r c
  | None => None
  end.
Proof.
  revert b. induction h as [| name h IH]; intros b; simpl; [reflexivity |].
  destruct (bolt.child name b); [apply IH | reflexivity].
Qed.

Lemma child_put_sub (name : string) (c : bolt.bucket) (s : N)
  (l : list (string * bolt.inode bolt.bucket)) :
  bolt.child name (bolt.MkBucket s (bolt.put name (bolt.Sub c) l)) = Some c.
Proof. unfold bolt.child. simpl. now rewrite find_put. Qed.

Lemma bucket_at_modify (h : bolt.handle) (f : bolt.bucket -> bolt.bucket) :
  forall b bk, bolt.bucket_at h b = Some bk ->
  bolt.bucket_at h (bolt.modify h f b) = Some (f bk).
Proof.
  induction h as [| name h IH]; intros b bk H; simpl in *.
  - now inversion H.
  - destruct (bolt.child name b) as [c |] eqn:Hc; [| discriminate].
    simpl. rewrite child_put_sub. now apply IH.
Qed.

Lemma deref_at (t : bolt.Tx) (h : bolt.handle) (bk : bolt.bucket) :
  bolt.bucket_at h (bolt.root t) = Some bk -> bolt.deref t h = bk.
Proof. unfold bolt.deref. now intros ->. Qed.

Lemma deref_update (t : bolt.Tx) (h : bolt.handle) (f : bolt.bucket -> bolt.bucket)
  (bk : bolt.bucket) :
  bolt.bucket_at h (bolt.root t) = Some bk ->
  bolt.bucket_at h (bolt.root (bolt.update t h f)) = Some (f bk).
Proof. intros H. simpl. now apply bucket_at_modify. Qed.

Lemma spill_inodes (b : bolt.bucket) :
  bolt.inodes (bolt.spill b) = map spill_inode (bolt.inodes b).
Proof. now destruct b. Qed.

Lemma spill_inode_key kx : fst (spill_inode kx) = fst kx.
Proof. now destruct kx as [k [[v |] | c]]. Qed.

Lemma find_spill (key : string) (b : bolt.bucket) :
  bolt.find key (bolt.inodes (bolt.spill b)) =
  match bolt.find key (bolt.inodes b) with
  | Some (bolt.Value v) => Some (bolt.Value (Some (bytes_of v)))
  | Some (bolt.Sub c) => Some (bolt.Sub (bolt.spill c))
  | None => None
  end.
Proof.
  rewrite spill_inodes. unfold bolt.find.
  rewrite (seek_map spill_inode key _ spill_inode_key).
  destruct (bolt.seek key (bolt.inodes b)) as [| [k x] rest]; [reflexivity |].
  simpl. destruct x as [[v |] | c]; simpl; now destruct (String.eqb key k).
Qed.

Lemma bucket_at_spill (h : bolt.handle) :
  forall b, bolt.bucket_at h (bolt.spill b) = option_map bolt.spill (bolt.bucket_at h b).
Proof.
  induction h as [| name h IH]; intros b; [reflexivity |].
  simpl. unfold bolt.child. rewrite find_spill.
  destruct (bolt.find name (bolt.inodes b)) as [[v | c] |]; try reflexivity.
  apply IH.
Qed.

(** ** Methods on a bound session *)

Lemma Is_Wrapf (c : error) (f : string) (a : list fmtarg) (m : string) :
  Is (Wrapf c f a) (New m) = Is c (New m).
Proof.
  simpl. now destruct (error_eq_dec (Wrapf c f a) (New m)).
Qed.

Lemma run_bound {A : Type} (kind : txkind) (s : Session) (t : bolt.Tx)
  (fn : M (option error * A)) :
  tx s = Some t ->
  run kind s fn =
  match fn t with
  | Panic msg => Panic msg
  | Return ((e, a), t') => Return (MkSession (store s) (Some t') e, (e, a))
  end.
Proof. unfold run. now intros ->. Qed.

Lemma setBucket_range_bound (s : Session) (path : list string) (t : bolt.Tx) :
  forall rest h index bk,
  index <> 0 ->
  bolt.bucket_at h (bolt.root t) = Some bk ->
  setBucket_range s path index (Some h) rest t =
  Return (match bolt.bucket_at rest bk with
          | Some _ => (Some (h ++ rest), None)
          | None => (None, PathNotFound path)
          end, t).
Proof.
  induction rest as [| p rest IH]; intros h index bk Hi Hh.
  - simpl. now rewrite app_nil_r.
  - simpl. destruct (Nat.eqb_spec index 0) as [-> | _]; [now elim Hi |].
    unfold bind, on_bucket, reads, bolt.Bucket, bolt.child.
    rewrite (deref_at t h bk Hh).
    destruct (bolt.find p (bolt.inodes bk)) as [[v | c] |] eqn:Hf; try reflexivity.
    cbv beta iota.
    etransitivity; [apply (IH (h ++ [p]) (S index) c) |].
    + discriminate.
    + rewrite bucket_at_app, Hh. simpl. unfold bolt.child. now rewrite Hf.
    + now rewrite <- app_assoc.
Qed.

(** Resolution on a bound session: the path itself when it resolves. *)
Lemma setBucket_bound (s : Session) (path : list string) (t0 t : bolt.Tx) :
  tx s = Some t0 ->
  setBucket s path t =
  Return (match resolves t path with
          | Some _ => (Some path, None)
          | None => (None, PathNotFound path)
          end, t).
Proof.
  intros Hs. unfold setBucket, resolves.
  destruct path as [| p rest]; [reflexivity |].
  cbn [setBucket_range Nat.eqb]. unfold bind, on_s_tx. rewrite Hs.
  unfold reads, bolt.Bucket, bolt.deref. cbn [bolt.bucket_at app].
  unfold bolt.child.
  destruct (bolt.find p (bolt.inodes (bolt.root t))) as [[v | c] |] eqn:Hf;
    try reflexivity.
  cbv beta iota.
  etransitivity; [apply (setBucket_range_bound s (p :: rest) t rest [p] 1 c) |].
  - discriminate.
  - simpl. unfold bolt.child. now rewrite Hf.
  - reflexivity.
Qed.

Ltac run_on_bound Hs :=
  match goal with
  | |- context [run ?k ?s ?fn] => rewrite (run_bound k s _ fn Hs)
  end.

(** One call on a bound session: the store pointer and the binding stay,
    and the session error becomes the error of this call's closure. *)
Lemma call_bound (o : op) (s s' : Session) (t : bolt.Tx) :
  tx s = Some t ->
  call o s = Return s' ->
  store s' = store s /\ (exists t', tx s' = Some t') /\
  fn_error o s t = Return (err s').
Proof.
  intros Hs.
  destruct o; unfold call, fn_error, error_of, session_of;
    unfold Read, List, KeyExists, ListKeys, PrefixExists, ReadScan, NextSeq,
      Write, DeleteKey, BucketExists, CreateBucket, DeleteBucket, ListBuckets;
    run_on_bound Hs;
    match goal with
    | |- context [match ?m t with _ => _ end] => destruct (m t) as [[[e a] t'] | msg]
    end;
    try discriminate;
    repeat match goal with
      | a : (_ * _)%type |- _ => destruct a
      end;
    try (destruct e as [e |]); simpl;
    try (destruct (Is e ErrPathNotFound));
    intros H; inversion H; subst; simpl; eauto.
Qed.

Lemma calls_bound (ops : list op) :
  forall (s s' : Session) (t : bolt.Tx),
  tx s = Some t ->
  calls ops s = Return s' ->
  store s' = store s /\ exists t', tx s' = Some t'.
Proof.
  induction ops as [| o ops IH]; intros s s' t Hs H; simpl in H.
  - inversion H; subst. eauto.
  - destruct (call o s) as [s1 | msg] eqn:Ho; [| discriminate].
    destruct (call_bound o s s1 t Hs Ho) as [Hst [[t1 Ht1] _]].
    destruct (IH s1 s' t1 Ht1 H) as [Hst' Ht'].
    split; [congruence | exact Ht'].
Qed.

Lemma calls_app (ops1 ops2 : list op) (s : Session) :
  calls (ops1 ++ ops2) s =
  match calls ops1 s with
  | Return s1 => calls ops2 s1
  | Panic msg => Panic msg
  end.
Proof.
  revert s. induction ops1 as [| o ops1 IH]; intros s; simpl; [reflexivity |].
  destruct (call o s); [apply IH | reflexivity].
Qed.

Lemma on_s_tx_bound {A : Type} (s : Session) (f : bolt.handle -> M A) :
  tx s <> None -> on_s_tx s f = f [].
Proof. unfold on_s_tx. now destruct (tx s). Qed.

Lemma setBucket_range_irrel (s s' : Session) (path : list string) :
  tx s <> None -> tx s' <> None ->
  forall rest index b t,
  setBucket_range s path index b rest t = setBucket_range s' path index b rest t.
Proof.
  intros Hs Hs'. induction rest as [| p rest IH]; intros index b t; [reflexivity |].
  simpl. rewrite !on_s_tx_bound by assumption. unfold bind.
  destruct (if Nat.eqb index 0 then _ else _) as [[b' t'] | msg]; [| reflexivity].
  destruct b'; [apply IH | reflexivity].
Qed.

Lemma setBucketIfNotExist_range_irrel (s s' : Session) (path : list string) :
  tx s <> None -> tx s' <> None ->
  forall rest index b t,
  setBucketIfNotExist_range s path index b rest t =
  setBucketIfNotExist_range s' path index b rest t.
Proof.
  intros Hs Hs'. induction rest as [| p rest IH]; intros index b t; [reflexivity |].
  simpl. rewrite !on_s_tx_bound by assumption. unfold bind.
  destruct (if Nat.eqb index 0 then _ else _) as [[[b' e] t'] | msg]; [| reflexivity].
  destruct e; [reflexivity | apply IH].
Qed.

(** The closure of a call reads the session only to reach its transaction:
    on a bound session its error does not depend on the session error. *)
Lemma fn_error_irrel (o : op) (s s' : Session) (t : bolt.Tx) :
  tx s <> None -> tx s' <> None -> fn_error o s t = fn_error o s' t.
Proof.
  intros Hs Hs'.
  destruct o; unfold fn_error, error_of;
    unfold Read_fn, List_fn, KeyExists_fn, ListKeys_fn, PrefixExists_fn,
      ReadScan_fn, NextSeq_fn, Write_fn, DeleteKey_fn, BucketExists_fn,
      CreateBucket_fn, DeleteBucket_fn, ListBuckets_fn;
    repeat match goal with
      | |- context [if ?c then _ else _] => destruct c
      end;
    unfold bind, setBucket, setBucketIfNotExist;
    try rewrite (setBucket_range_irrel s s' _ Hs Hs');
    try rewrite (setBucketIfNotExist_range_irrel s s' _ Hs Hs');
    reflexivity.
Qed.

Lemma last_cons {A : Type} (l : list A) :
  forall a d, last (a :: l) d = last l a.
Proof.
  induction l as [| b l IH]; intros a d; [reflexivity |].
  change (last (a :: b :: l) d) with (last (b :: l) d).
  rewrite (IH b d). symmetry. apply IH.
Qed.

Lemma calls_recorded (ops : list op) :
  forall (s s' : Session),
  calls ops s = Return s' -> err s' = last (recorded ops s) (err s).
Proof.
  induction ops as [| o ops IH]; intros s s' H; simpl in H.
  - now inversion H.
  - simpl. destruct (call o s) as [s1 | msg]; [| discriminate].
    rewrite (IH s1 s' H). symmetry. apply last_cons.
Qed.

Lemma last_all_nil (l : list (option error)) :
  Forall (fun e => e = None) l -> last l None = None.
Proof.
  induction l as [| e l IH]; intros H; [reflexivity |].
  inversion H; subst. destruct l; [reflexivity | now apply IH].
Qed.

(** ** The engine's key order is kept *)

Lemma resolves_at (t : bolt.Tx) (path : list string) (bk : bolt.bucket) :
  resolves t path = Some bk -> bolt.bucket_at path (bolt.root t) = Some bk.
Proof. now destruct path. Qed.

Lemma ascending_cons (k : string) (ks : list string) :
  Forall (fun k' => bolt.key_lt k k' = true) ks ->
  ascending ks = true -> ascending (k :: ks) = true.
Proof.
  intros Hk Hks. destruct ks as [| k' ks]; [reflexivity |].
  change (bolt.key_lt k k' && ascending (k' :: ks) = true).
  inversion Hk; subst. now apply andb_true_iff.
Qed.

Lemma ordered_unfold (s : N) (l : list (string * bolt.inode bolt.bucket)) :
  ordered (bolt.MkBucket s l) = ascending (keys_of l) && subs_ordered l.
Proof. reflexivity. Qed.

Lemma seek_In {V : Type} (key : string) (l : list (string * V)) (kx : string * V) :
  In kx (bolt.seek key l) -> In kx l.
Proof.
  induction l as [| [k x] l IH]; [trivial |].
  simpl. destruct (bolt.key_lt k key); [right; now apply IH | trivial].
Qed.

Lemma find_In {V : Type} (key : string) (l : list (string * V)) (x : V) :
  bolt.find key l = Some x -> In (key, x) l.
Proof.
  unfold bolt.find. destruct (bolt.seek key l) as [| [k y] rest] eqn:Hs; [discriminate |].
  destruct (String.eqb_spec key k) as [-> | _]; [| discriminate].
  intros H. inversion H; subst. apply (seek_In k). rewrite Hs. now left.
Qed.

Lemma put_keys {V : Type} (key : string) (x : V) (l : list (string * V)) (k : string) :
  In k (map fst (bolt.put key x l)) -> k = key \/ In k (map fst l).
Proof.
  induction l as [| [k0 y] l IH]; simpl.
  - intros [<- | []]. now left.
  - destruct (bolt.key_lt k0 key).
    + simpl. intros [<- | H]; [right; now left |].
      destruct (IH H); [now left | right; now right].
    + destruct (String.eqb_spec key k0) as [-> | _]; simpl.
      * intros [<- | H]; [now left | right; now right].
      * intros [<- | H]; [now left | now right].
Qed.

Lemma del_keys {V : Type} (key : string) (l : list (string * V)) (k : string) :
  In k (map fst (bolt.del key l)) -> In k (map fst l).
Proof.
  induction l as [| [k0 y] l IH]; simpl; [trivial |].
  destruct (bolt.key_lt k0 key).
  - simpl. intros [<- | H]; [now left | right; now apply IH].
  - destruct (String.eqb key k0); simpl; [now right | trivial].
Qed.

Lemma ascending_put {V : Type} (key : string) (x : V) (l : list (string * V)) :
  ascending (map fst l) = true -> ascending (map fst (bolt.put key x l)) = true.
Proof.
  induction l as [| [k0 y] l IH]; intros Hasc; [reflexivity |].
  simpl. destruct (bolt.key_lt k0 key) eqn:Hlt.
  - simpl. apply ascending_cons.
    + apply ascending_head in Hasc. rewrite Forall_forall in Hasc |- *.
      intros k Hin. destruct (put_keys key x l k Hin) as [-> | Hk];
        [exact Hlt | now apply Hasc].
    + apply IH. now apply ascending_tail with k0.
  - destruct (String.eqb_spec key k0) as [-> | Hne]; [exact Hasc |].
    simpl. simpl in Hasc. rewrite Hasc.
    destruct (bolt.key_lt key k0) eqn:Hlt'; [reflexivity |].
    elim Hne. now apply key_lt_total.
Qed.

Lemma ascending_del {V : Type} (key : string) (l : list (string * V)) :
  ascending (map fst l) = true -> ascending (map fst (bolt.del key l)) = true.
Proof.
  induction l as [| [k0 y] l IH]; intros Hasc; [reflexivity |].
  pose proof (ascending_tail _ _ Hasc) as Htl.
  simpl. destruct (bolt.key_lt k0 key).
  - simpl. apply ascending_cons; [| now apply IH].
    apply ascending_head in Hasc. rewrite Forall_forall in Hasc |- *.
    intros k Hin. apply Hasc. now apply (del_keys key l k).
  - destruct (String.eqb key k0); [exact Htl | exact Hasc].
Qed.

Lemma subs_ordered_put (key : string) (x : bolt.inode bolt.bucket)
  (l : list (string * bolt.inode bolt.bucket)) :
  match x with bolt.Value _ => true | bolt.Sub c => ordered c end = true ->
  subs_ordered l = true -> subs_ordered (bolt.put key x l) = true.
Proof.
  intros Hx. unfold subs_ordered.
  induction l as [| [k0 y] l IH]; simpl.
  - intros _. now rewrite Hx.
  - intros H. apply andb_true_iff in H. destruct H as [Hy Hl].
    destruct (bolt.key_lt k0 key); simpl.
    + now rewrite Hy, IH.
    + destruct (String.eqb key k0); simpl; now rewrite Hx, ?Hy, Hl.
Qed.

Lemma subs_ordered_del (key : string) (l : list (string * bolt.inode bolt.bucket)) :
  subs_ordered l = true -> subs_ordered (bolt.del key l) = true.
Proof.
  unfold subs_ordered. induction l as [| [k0 y] l IH]; simpl; [trivial |].
  intros H. apply andb_true_iff in H. destruct H as [Hy Hl].
  destruct (bolt.key_lt k0 key); simpl.
  - now rewrite Hy, IH.
  - destruct (String.eqb key k0); simpl; [exact Hl | now rewrite Hy, Hl].
Qed.

Lemma ordered_inodes (b : bolt.bucket) :
  ordered b = true ->
  ascending (keys_of (bolt.inodes b)) = true /\ subs_ordered (bolt.inodes b) = true.
Proof. destruct b as [s l]. rewrite ordered_unfold. apply andb_true_iff. Qed.

Lemma ordered_put (b : bolt.bucket) (key : string) (x : bolt.inode bolt.bucket) :
  ordered b = true ->
  match x with bolt.Value _ => true | bolt.Sub c => ordered c end = true ->
  ordered (bolt.MkBucket (bolt.sequence b) (bolt.put key x (bolt.inodes b))) = true.
Proof.
  intros Hb Hx. destruct (ordered_inodes b Hb) as [Ha Hs].
  rewrite ordered_unfold. apply andb_true_iff. split.
  - now apply ascending_put.
  - now apply subs_ordered_put.
Qed.

Lemma ordered_del (b : bolt.bucket) (key : string) :
  ordered b = true ->
  ordered (bolt.MkBucket (bolt.sequence b) (bolt.del key (bolt.inodes b))) = true.
Proof.
  intros Hb. destruct (ordered_inodes b Hb) as [Ha Hs].
  rewrite ordered_unfold. apply andb_true_iff. split.
  - now apply ascending_del.
  - now apply subs_ordered_del.
Qed.

Lemma ordered_child (name : string) (b c : bolt.bucket) :
  ordered b = true -> bolt.child name b = Some c -> ordered c = true.
Proof.
  intros Hb. destruct (ordered_inodes b Hb) as [_ Hs].
  unfold bolt.child.
  destruct (bolt.find name (bolt.inodes b)) as [[v | c'] |] eqn:Hf; try discriminate.
  intros H. inversion H; subst. apply find_In in Hf.
  unfold subs_ordered in Hs. rewrite forallb_forall in Hs.
  exact (Hs _ Hf).
Qed.

Lemma ordered_bucket_at (h : bolt.handle) :
  forall b c, ordered b = true -> bolt.bucket_at h b = Some c -> ordered c = true.
Proof.
  induction h as [| name h IH]; intros b c Hb H; simpl in H.
  - now inversion H; subst.
  - destruct (bolt.child name b) as [c' |] eqn:Hc; [| discriminate].
    apply (IH c' c); [| exact H]. now apply (ordered_child name b).
Qed.

Lemma ordered_modify (h : bolt.handle) (f : bolt.bucket -> bolt.bucket) :
  (forall c, ordered c = true -> ordered (f c) = true) ->
  forall b, ordered b = true -> ordered (bolt.modify h f b) = true.
Proof.
  intros Hf. induction h as [| name h IH]; intros b Hb; simpl; [now apply Hf |].
  destruct (bolt.child name b) as [c |] eqn:Hc; [| exact Hb].
  apply ordered_put; [exact Hb |]. apply IH. now apply (ordered_child name b).
Qed.

Lemma ordered_update (t : bolt.Tx) (h : bolt.handle) (f : bolt.bucket -> bolt.bucket) :
  (forall c, ordered c = true -> ordered (f c) = true) ->
  ordered (bolt.root t) = true -> ordered (bolt.root (bolt.update t h f)) = true.
Proof. intros Hf Ht. simpl. now apply ordered_modify. Qed.

(** A resolved container of an ordered transaction has ascending keys. *)
Lemma resolves_ascending (t : bolt.Tx) (path : list string) (bk : bolt.bucket) :
  ordered (bolt.root t) = true ->
  resolves t path = Some bk ->
  ascending (keys_of (bolt.inodes bk)) = true.
Proof.
  intros Ht Hres. apply ordered_inodes.
  apply (ordered_bucket_at path (bolt.root t) bk Ht).
  now apply resolves_at.
Qed.

Lemma CreateBucketIfNotExists_ordered (t : bolt.Tx) (h : bolt.handle) (key : string) :
  ordered (bolt.root t) = true ->
  ordered (bolt.root (fst (bolt.CreateBucketIfNotExists t h key))) = true.
Proof.
  intros Ht. unfold bolt.CreateBucketIfNotExists, bolt.CreateBucket.
  destruct (negb (bolt.writable t)); [exact Ht |].
  destruct (bolt.len key =? 0)%N; [exact Ht |].
  destruct (bolt.find key (bolt.inodes (bolt.deref t h))) as [[v | c] |];
    try exact Ht.
  cbn [fst]. apply ordered_update; [| exact Ht].
  intros c Hc. now apply ordered_put.
Qed.

Lemma DeleteBucket_ordered (t : bolt.Tx) (h : bolt.handle) (key : string) :
  ordered (bolt.root t) = true ->
  ordered (bolt.root (fst (bolt.DeleteBucket t h key))) = true.
Proof.
  intros Ht. unfold bolt.DeleteBucket.
  destruct (negb (bolt.writable t)); [exact Ht |].
  destruct (bolt.find key (bolt.inodes (bolt.deref t h))) as [[v | c] |];
    try exact Ht.
  cbn [fst]. apply ordered_update; [| exact Ht].
  intros c' Hc. now apply ordered_del.
Qed.

Lemma Put_ordered (t : bolt.Tx) (h : bolt.handle) (key : string) (value : option string) :
  ordered (bolt.root t) = true ->
  ordered (bolt.root (fst (bolt.Put t h key value))) = true.
Proof.
  intros Ht. unfold bolt.Put.
  destruct (negb (bolt.writable t)); [exact Ht |].
  destruct (bolt.len key =? 0)%N; [exact Ht |].
  destruct (bolt.MaxKeySize <? bolt.len key)%N; [exact Ht |].
  destruct (bolt.MaxValueSize <? _)%N; [exact Ht |].
  destruct (bolt.find key (bolt.inodes (bolt.deref t h))) as [[v | c] |];
    try exact Ht;
    cbn [fst]; (apply ordered_update; [| exact Ht]);
    intros c' Hc; now apply ordered_put.
Qed.

Lemma Delete_ordered (t : bolt.Tx) (h : bolt.handle) (key : string) :
  ordered (bolt.root t) = true ->
  ordered (bolt.root (fst (bolt.Delete t h key))) = true.
Proof.
  intros Ht. unfold bolt.Delete.
  destruct (negb (bolt.writable t)); [exact Ht |].
  destruct (bolt.find key (bolt.inodes (bolt.deref t h))) as [[v | c] |];
    try exact Ht.
  cbn [fst]. apply ordered_update; [| exact Ht].
  intros c' Hc. now apply ordered_del.
Qed.

Lemma NextSequence_ordered (t : bolt.Tx) (h : bolt.handle) :
  ordered (bolt.root t) = true ->
  ordered (bolt.root (fst (bolt.NextSequence t h))) = true.
Proof.
  intros Ht. unfold bolt.NextSequence.
  destruct (negb (bolt.writable t)); [exact Ht |].
  cbn [fst]. apply ordered_update; [| exact Ht].
  intros [s l] Hc. exact Hc.
Qed.

Lemma keeps_ret {A : Type} (a : A) : keeps_order (ret a).
Proof. intros t a' t' H. now inversion H. Qed.

Lemma keeps_panic {A : Type} (msg : string) : keeps_order (@panic A msg).
Proof. intros t a t' H. discriminate H. Qed.

Lemma keeps_reads {A : Type} (f : bolt.Tx -> A) : keeps_order (reads f).
Proof. intros t a t' H. now inversion H. Qed.

Lemma keeps_writes {A : Type} (f : bolt.Tx -> bolt.Tx * A) :
  (forall t, ordered (bolt.root t) = true -> ordered (bolt.root (fst (f t))) = true) ->
  keeps_order (writes f).
Proof.
  intros Hf t a t' H Ht. unfold writes in H. specialize (Hf t Ht).
  destruct (f t) as [t1 a1]. now inversion H; subst.
Qed.

Lemma keeps_bind {A B : Type} (m : M A) (k : A -> M B) :
  keeps_order m -> (forall a, keeps_order (k a)) -> keeps_order (bind m k).
Proof.
  intros Hm Hk t b t' H Ht. unfold bind in H.
  destruct (m t) as [[a t1] | msg] eqn:Hmt; [| discriminate].
  apply (Hk a t1 b t' H). now apply (Hm t a t1).
Qed.

Lemma keeps_on_bucket {A : Type} (b : option bolt.handle) (f : bolt.handle -> M A) :
  (forall h, keeps_order (f h)) -> keeps_order (on_bucket b f).
Proof. intros Hf. destruct b; [apply Hf | apply keeps_panic]. Qed.

Lemma keeps_on_s_tx {A : Type} (s : Session) (f : bolt.handle -> M A) :
  (forall h, keeps_order (f h)) -> keeps_order (on_s_tx s f).
Proof. intros Hf. unfold on_s_tx. destruct (tx s); [apply Hf | apply keeps_panic]. Qed.

Ltac keeps_step :=
  first
    [ apply keeps_ret
    | apply keeps_panic
    | apply keeps_reads
    | apply keeps_writes; intros;
      first [ now apply CreateBucketIfNotExists_ordered
            | now apply DeleteBucket_ordered
            | now apply Put_ordered
            | now apply Delete_ordered
            | now apply NextSequence_ordered ]
    | apply keeps_on_bucket; intros
    | apply keeps_on_s_tx; intros
    | apply keeps_bind; [| intros]
    | match goal with
      | |- keeps_order (match ?x with _ => _ end) => destruct x
      | |- keeps_order (if ?c then _ else _) => destruct c
      end ].

Lemma keeps_setBucket_range (s : Session) (path : list string) :
  forall rest index b, keeps_order (setBucket_range s path index b rest).
Proof.
  induction rest as [| p rest IH]; intros index b; cbn [setBucket_range].
  - repeat keeps_step.
  - repeat keeps_step. apply IH.
Qed.

Lemma keeps_setBucketIfNotExist_range (s : Session) (path : list string) :
  forall rest index b, keeps_order (setBucketIfNotExist_range s path index b rest).
Proof.
  induction rest as [| p rest IH]; intros index b; cbn [setBucketIfNotExist_range].
  - repeat keeps_step.
  - repeat keeps_step. apply IH.
Qed.

Ltac keeps :=
  repeat first
    [ apply keeps_setBucket_range
    | apply keeps_setBucketIfNotExist_range
    | keeps_step ].

(** The closure of every call keeps the buckets of the transaction
    ordered. *)
Lemma call_ordered (o : op) (s s' : Session) (t : bolt.Tx) :
  tx s = Some t ->
  ordered (bolt.root t) = true ->
  call o s = Return s' ->
  exists t', tx s' = Some t' /\ ordered (bolt.root t') = true.
Proof.
  intros Hs Ht.
  assert (Hrun : forall (A : Type) (kind : txkind) (fn : M (option error * A)) s1 r,
             keeps_order fn -> run kind s fn = Return (s1, r) ->
             exists t', tx s1 = Some t' /\ ordered (bolt.root t') = true).
  { intros A kind fn s1 r Hfn. rewrite (run_bound kind s t fn Hs).
    destruct (fn t) as [[[e a] t1] | msg] eqn:Hfnt; [| discriminate].
    intros H. inversion H; subst. exists t1. split; [reflexivity |].
    now apply (Hfn t (e, a) t1). }
  destruct o; unfold call, session_of;
    unfold Read, List, KeyExists, ListKeys, PrefixExists, ReadScan, NextSeq,
      Write, DeleteKey, BucketExists, CreateBucket, DeleteBucket, ListBuckets;
    match goal with
    | |- context [run ?k s ?fn] =>
        destruct (run k s fn) as [[s1 r] | msg] eqn:Hr; [| discriminate];
        apply Hrun in Hr
    end.
  all: try (intros H;
            repeat match goal with
              | r : (_ * _)%type |- _ => destruct r
              | r : option _ |- _ => destruct r
              | H : context [if ?c then _ else _] |- _ => destruct c
              end;
            inversion H; subst; exact Hr).
  all: unfold Read_fn, List_fn, KeyExists_fn, ListKeys_fn, PrefixExists_fn,
         ReadScan_fn, NextSeq_fn, Write_fn, DeleteKey_fn, BucketExists_fn,
         CreateBucket_fn, DeleteBucket_fn, ListBuckets_fn, setBucket,
         setBucketIfNotExist; keeps.
Qed.

Lemma bucket_induction (P : bolt.bucket -> Prop) :
  (forall s l, (forall k c, In (k, bolt.Sub c) l -> P c) -> P (bolt.MkBucket s l)) ->
  forall b, P b.
Proof.
  intros H. fix IH 1. intros [s l]. apply H.
  revert l. fix IHl 1. intros [| [k x] l] k' c Hin.
  - destruct Hin.
  - destruct Hin as [Heq | Hin]; [| exact (IHl l k' c Hin)].
    destruct x as [v | c0]; [discriminate Heq |].
    assert (Hc0 : P c0) by apply IH.
    inversion Heq; subst. exact Hc0.
Qed.

Lemma spill_ordered : forall b, ordered b = true -> ordered (bolt.spill b) = true.
Proof.
  apply (bucket_induction (fun b => ordered b = true -> ordered (bolt.spill b) = true)).
  intros s l IH Hb. destruct (ordered_inodes _ Hb) as [Ha Hs]. cbn [bolt.inodes] in Ha, Hs.
  change (bolt.spill (bolt.MkBucket s l)) with (bolt.MkBucket s (map spill_inode l)).
  rewrite ordered_unfold. apply andb_true_iff. split.
  - unfold keys_of in *. rewrite map_map.
    rewrite (map_ext _ fst spill_inode_key). exact Ha.
  - unfold subs_ordered in *. rewrite forallb_forall in Hs |- *.
    intros kx Hin. apply in_map_iff in Hin. destruct Hin as [[k x] [<- Hin]].
    specialize (Hs _ Hin). destruct x as [[v |] | c]; try reflexivity.
    simpl. now apply (IH k c).
Qed.

Lemma calls_ordered (ops : list op) :
  forall (s s' : Session) (t : bolt.Tx),
  tx s = Some t ->
  ordered (bolt.root t) = true ->
  calls ops s = Return s' ->
  exists t', tx s' = Some t' /\ ordered (bolt.root t') = true.
Proof.
  induction ops as [| o ops IH]; intros s s' t Hs Ht H; simpl in H.
  - inversion H; subst. eauto.
  - destruct (call o s) as [s1 | msg] eqn:Ho; [| discriminate].
    destruct (call_ordered o s s1 t Hs Ht Ho) as [t1 [Hs1 Ht1]].
    exact (IH s1 s' t1 Hs1 Ht1 H).
Qed.

(** Every store write sessions produce from the empty store is ordered. *)
Lemma reachable_ordered (st : Store) :
  reachable st -> ordered (DB.data (db st)) = true.
Proof.
  induction 1 as [| st st' ops s Hreach IH Hcalls Hclose]; [reflexivity |].
  destruct (calls_ordered ops (WriteSession st) s (DB.Begin (db st) true)
              eq_refl IH Hcalls) as [t [Hs Ht]].
  destruct (calls_bound ops (WriteSession st) s (DB.Begin (db st) true)
              eq_refl Hcalls) as [Hst _].
  unfold WriteSession_closer in Hclose. rewrite Hs in Hclose.
  destruct (err s); inversion Hclose; subst; cbn [db DB.data DB.Rollback DB.Commit].
  - rewrite Hst. exact IH.
  - now apply spill_ordered.
Qed.

(** In a read or write session on such a store, whatever was called
    before, a container a path resolves to has its keys in ascending
    order. *)
Lemma session_containers_ascending (st : Store) (writable : bool) (ops : list op)
  (s : Session) (t : bolt.Tx) (path : list string) (bk : bolt.bucket) :
  reachable st ->
  calls ops (MkSession st (Some (DB.Begin (db st) writable)) None) = Return s ->
  tx s = Some t ->
  resolves t path = Some bk ->
  ascending (keys_of (bolt.inodes bk)) = true.
Proof.
  intros Hreach Hcalls Hs Hres.
  destruct (calls_ordered ops
              (MkSession st (Some (DB.Begin (db st) writable)) None) s
              (DB.Begin (db st) writable) eq_refl
              (reachable_ordered st Hreach) Hcalls) as [t' [Hs' Ht']].
  rewrite Hs in Hs'. inversion Hs'; subst t'.
  exact (resolves_ascending t path bk Ht' Hres).
Qed.

(** ** The tests of session_test.go on the model *)

Example TestListBucketsEmpty :
  ListBuckets (ReadSession emptyStore) [] EmptyString =
  Return (ReadSession emptyStore, ([], EmptyString, None)).
Proof. reflexivity. Qed.

Example TestListBucketsRoots :
  let s := session_after roots_calls (WriteSession emptyStore) in
  err s = None /\
  ListBuckets s [] EmptyString = Return (s, (["l1a"; "l1b"]%string, EmptyString, None)).
Proof. split; vm_compute; reflexivity. Qed.

Example TestListBucketsSubLevel :
  let st := store_after (roots_calls ++ [OpListBuckets [] EmptyString]) emptyStore in
  let s := session_after sublevel_calls (WriteSession st) in
  option_map (fun e => Is e ErrPathNotFound) (err s) = Some true /\
  result_of (ListBuckets s ["l1a"%string] EmptyString) =
    Some (["l2a"; "l2b"; "l2c"]%string, EmptyString, None) /\
  result_of (ListBuckets s ["l1a"; "l2a"]%string EmptyString) =
    Some (["l3a"; "l3b"]%string, EmptyString, None).
Proof. split; [| split]; vm_compute; reflexivity. Qed.

Example TestBucketExists :
  let s := ReadSession tested_store in
  result_of (BucketExists s ["l1a"%string]) = Some true /\
  result_of (BucketExists s ["l1a"; "l2a"; "l3a"]%string) = Some true /\
  result_of (BucketExists s ["l1a"; "l2a"; "k3a"]%string) = Some false.
Proof. split; [| split]; vm_compute; reflexivity. Qed.

Example TestKeyExists :
  let s := ReadSession tested_store in
  result_of (KeyExists s ["l1a"; "l2a"; "l3a"]%string "k1a") = Some true /\
  result_of (KeyExists s ["l1a"; "l2a"; "l3a"]%string EmptyString) = Some false /\
  result_of (KeyExists s ["l1a"; "l2a"; "l3a"]%string "K2A") = Some false.
Proof. split; [| split]; vm_compute; reflexivity. Qed.

Example TestDeleteValue :
  let path := ["l1a"; "l2a"; "l3a"]%string in
  let s := WriteSession tested_store in
  result_of (DeleteKey s path "k2a") = Some None /\
  result_of (KeyExists (session_after [OpDeleteKey path "k2a"] s) path "k2a")
    = Some false.
Proof. split; vm_compute; reflexivity. Qed.

Example TestDeleteBucket :
  let path := ["l1a"; "l2a"; "l3a"]%string in
  let s := WriteSession tested_store in
  result_of (DeleteBucket s path) = Some None /\
  result_of (BucketExists (session_after [OpDeleteBucket path] s) path) = Some false.
Proof. split; vm_compute; reflexivity. Qed.

Example TestReadSession :
  let st := store_after [OpWrite ["test"%string] "read-key" (Some "read-value"%string)]
              tested_store in
  result_of (Read (ReadSession st) ["test"%string] "read-key") =
  Some (Some "read-value"%string, None).
Proof. vm_compute. reflexivity. Qed.

Example TestWriteSessions :
  let s := WriteSession tested_store in
  let w := OpWrite ["test"%string] "key" (Some "hello"%string) in
  result_of (Write s ["test"%string] "key" (Some "hello"%string)) = Some None /\
  result_of (Read (session_after [w] s) ["test"%string] "key") =
    Some (Some "hello"%string, None).
Proof. split; vm_compute; reflexivity. Qed.

(** ** The claims *)

Local Open Scope string_scope.
Local Open Scope list_scope.

(** C1, as stated, fails: in a write session on an empty store a [Read] of
    a missing path records an error and the [Write] that follows clears
    it. *)
Lemma first_error_not_kept :
  exists s1 s2 e,
    call (OpRead ["a"] "k") (WriteSession emptyStore) = Return s1 /\
    err s1 = Some e /\
    call (OpWrite ["a"] "k" (Some "v")) s1 = Return s2 /\
    err s2 = None.
Proof.
  do 3 eexists. repeat split; vm_compute; reflexivity.
Qed.

(** C1, amended: on a session bound to a transaction the session error
    after a call is the error (nil on success) that the closure of that
    call returned, whatever error the session held before; every call
    overwrites it. *)
Theorem session_error_is_last_error :
  forall (ops : list op) (o : op) (s s' : Session) (t : bolt.Tx),
  tx s = Some t ->
  calls (ops ++ [o]) s = Return s' ->
  exists s1 t1,
    calls ops s = Return s1 /\ tx s1 = Some t1 /\
    forall e0, fn_error o (MkSession (store s1) (Some t1) e0) t1 = Return (err s').
Proof.
  intros ops o s s' t Hs H. rewrite calls_app in H.
  destruct (calls ops s) as [s1 | msg] eqn:H1; [| discriminate].
  destruct (calls_bound ops s s1 t Hs H1) as [_ [t1 Ht1]].
  exists s1, t1. repeat split; trivial. intros e0.
  simpl in H. destruct (call o s1) as [s2 | msg] eqn:Ho; [| discriminate].
  inversion H; subst s2.
  destruct (call_bound o s1 s' t1 Ht1 Ho) as [_ [_ He]].
  rewrite <- He. apply fn_error_irrel; [discriminate | now rewrite Ht1].
Qed.

Lemma session_error_is_last_error_witness :
  exists s s',
    tx s = Some (DB.Begin (db emptyStore) true) /\
    calls ([OpRead ["a"] "k"] ++ [OpWrite ["a"] "k" (Some "v")]) s = Return s' /\
    exists s1 t1,
      calls [OpRead ["a"] "k"] s = Return s1 /\ tx s1 = Some t1 /\
      forall e0,
        fn_error (OpWrite ["a"] "k" (Some "v")) (MkSession (store s1) (Some t1) e0) t1
        = Return (err s').
Proof.
  exists (WriteSession emptyStore). eexists.
  split; [reflexivity |].
  split; [vm_compute; reflexivity |].
  apply (session_error_is_last_error [OpRead ["a"] "k"] (OpWrite ["a"] "k" (Some "v"))
           (WriteSession emptyStore) _ (DB.Begin (db emptyStore) true)).
  - reflexivity.
  - vm_compute. reflexivity.
Defined.

(** C2, as stated, fails: a write session in which a [Read] records an
    error and a later call succeeds is committed by its closer. *)
Lemma errored_session_commits :
  let ops := [OpWrite ["a"] "k" (Some "v"); OpRead ["zz"] "k"; OpKeyExists ["a"] "k"] in
  exists s e st',
    calls ops (WriteSession emptyStore) = Return s /\
    In (Some e) (recorded ops (WriteSession emptyStore)) /\
    WriteSession_closer s = Return st' /\
    st' <> emptyStore.
Proof.
  do 3 eexists. split; [vm_compute; reflexivity |].
  split; [vm_compute; right; left; reflexivity |].
  split; [vm_compute; reflexivity |].
  discriminate.
Qed.

(** C2, amended: the closer of a write session looks at the session error,
    which is the error recorded by the last call.  If that call recorded an
    error the transaction is rolled back and the store is as it was before
    the session began; otherwise, in particular when no call recorded an
    error, the closer commits the transaction with all the session wrote. *)
Theorem write_session_closer :
  forall (st : Store) (ops : list op) (s : Session),
  calls ops (WriteSession st) = Return s ->
  exists t,
    tx s = Some t /\
    err s = last (recorded ops (WriteSession st)) None /\
    (err s <> None -> WriteSession_closer s = Return st) /\
    (err s = None -> WriteSession_closer s = Return (MkStore (DB.Commit t))) /\
    (Forall (fun e => e = None) (recorded ops (WriteSession st)) ->
     WriteSession_closer s = Return (MkStore (DB.Commit t))).
Proof.
  intros st ops s H.
  destruct (calls_bound ops (WriteSession st) s (DB.Begin (db st) true) eq_refl H)
    as [Hst [t Ht]].
  pose proof (calls_recorded ops _ s H) as Herr. simpl in Hst, Herr.
  exists t. unfold WriteSession_closer. rewrite Ht.
  repeat split; trivial.
  - destruct (err s); [intros _ | now intros []].
    unfold DB.Rollback. rewrite Hst. now destruct st.
  - now intros ->.
  - intros Hall. now rewrite Herr, (last_all_nil _ Hall).
Qed.

Lemma write_session_closer_witness :
  let ops := [OpWrite ["a"] "k" (Some "v"); OpKeyExists ["a"] "zz"] in
  exists s,
    calls ops (WriteSession emptyStore) = Return s /\
    exists t,
      tx s = Some t /\
      err s = last (recorded ops (WriteSession emptyStore)) None /\
      (err s <> None -> WriteSession_closer s = Return emptyStore) /\
      (err s = None -> WriteSession_closer s = Return (MkStore (DB.Commit t))) /\
      (Forall (fun e => e = None) (recorded ops (WriteSession emptyStore)) ->
       WriteSession_closer s = Return (MkStore (DB.Commit t))).
Proof.
  intros ops. eexists. split; [vm_compute; reflexivity |].
  apply (write_session_closer emptyStore ops).
  vm_compute. reflexivity.
Defined.

(** C3: on a bound session and a path that does not resolve, [List] and
    [ListKeys] return empty results and a nil error, but [ListBuckets]
    (with a path that is not empty) returns the resolution error to the
    caller. *)
Theorem listing_unresolved_path :
  forall (s : Session) (t : bolt.Tx) (path : list string) (pageToken : string),
  tx s = Some t ->
  resolves t path = None ->
  let s' := MkSession (store s) (Some t) (PathNotFound path) in
  List s path pageToken = Return (s', ([], [], EmptyString, None)) /\
  ListKeys s path pageToken = Return (s', ([], EmptyString, None)) /\
  (path <> [] ->
   ListBuckets s path pageToken = Return (s', ([], EmptyString, PathNotFound path)) /\
   exists e, PathNotFound path = Some e /\ Is e ErrPathNotFound = true).
Proof.
  intros s t path pageToken Hs Hres s'. repeat split.
  - unfold List. run_on_bound Hs. unfold List_fn, bind.
    rewrite (setBucket_bound s path t t Hs), Hres. reflexivity.
  - unfold ListKeys. run_on_bound Hs. unfold ListKeys_fn, bind.
    rewrite (setBucket_bound s path t t Hs), Hres. reflexivity.
  - unfold ListBuckets. run_on_bound Hs. unfold ListBuckets_fn, bind.
    destruct path as [| p path]; [now elim H |]. cbn [List.length Nat.eqb].
    rewrite (setBucket_bound s (p :: path) t t Hs), Hres. reflexivity.
  - eexists. split; [reflexivity |].
    unfold ErrPathNotFound. now rewrite Is_Wrapf.
Qed.

Lemma listing_unresolved_path_witness :
  let s := ReadSession emptyStore in
  let s' := MkSession emptyStore (Some (DB.Begin (db emptyStore) false))
              (PathNotFound ["zz"]) in
  List s ["zz"] EmptyString = Return (s', ([], [], EmptyString, None)) /\
  ListKeys s ["zz"] EmptyString = Return (s', ([], EmptyString, None)) /\
  (["zz"] <> [] ->
   ListBuckets s ["zz"] EmptyString = Return (s', ([], EmptyString, PathNotFound ["zz"])) /\
   exists e, PathNotFound ["zz"] = Some e /\ Is e ErrPathNotFound = true).
Proof.
  apply (listing_unresolved_path (ReadSession emptyStore)
           (DB.Begin (db emptyStore) false) ["zz"] EmptyString); reflexivity.
Defined.

Lemma firstn_pred_snoc {A : Type} (l : list A) (a : A) :
  firstn (List.length (l ++ [a]) - 1) (l ++ [a]) = l.
Proof.
  rewrite length_app. simpl.
  replace (List.length l + 1 - 1) with (List.length l + 0) by lia.
  rewrite firstn_app_2. simpl. apply app_nil_r.
Qed.

Lemma nth_pred_snoc {A : Type} (l : list A) (a d : A) :
  nth (List.length (l ++ [a]) - 1) (l ++ [a]) d = a.
Proof.
  rewrite length_app. simpl.
  replace (List.length l + 1 - 1) with (List.length l) by lia.
  rewrite app_nth2 by lia. now rewrite Nat.sub_diag.
Qed.

(** C4: in a write session, deleting a top-level bucket that does not
    exist returns the engine's bucket-not-found error and records it on the
    session, whereas with a longer path a missing bucket or a missing
    parent gives no error. *)
Theorem DeleteBucket_missing :
  forall (s : Session) (t : bolt.Tx),
  tx s = Some t ->
  bolt.writable t = true ->
  (forall name,
     bolt.find name (bolt.inodes (bolt.root t)) = None ->
     DeleteBucket s [name] =
     Return (MkSession (store s) (Some t) (Some bolt.ErrBucketNotFound),
             Some bolt.ErrBucketNotFound)) /\
  (forall parent name,
     parent <> [] ->
     match resolves t parent with
     | None => True
     | Some bk => bolt.find name (bolt.inodes bk) = None
     end ->
     DeleteBucket s (parent ++ [name]) =
     Return (MkSession (store s) (Some t) None, None)).
Proof.
  intros s t Hs Hw. split.
  - intros name Hf. unfold DeleteBucket. run_on_bound Hs.
    unfold DeleteBucket_fn. cbn [List.length Nat.eqb nth].
    unfold bind, writes, bolt.DeleteBucket. rewrite Hw. cbn [negb].
    unfold bolt.deref. cbn [bolt.bucket_at]. rewrite Hf. reflexivity.
  - intros parent name Hne Hmiss. unfold DeleteBucket. run_on_bound Hs.
    unfold DeleteBucket_fn.
    assert (Hlen : List.length (parent ++ [name]) = S (S (List.length parent - 1))).
    { rewrite length_app. destruct parent; [now elim Hne | simpl; lia]. }
    rewrite firstn_pred_snoc, nth_pred_snoc.
    rewrite Hlen. cbn [Nat.eqb]. unfold bind.
    rewrite (setBucket_bound s parent t t Hs).
    destruct (resolves t parent) as [bk |] eqn:Hres; [| reflexivity].
    unfold on_bucket, writes, bolt.DeleteBucket. rewrite Hw. cbn [negb].
    destruct parent as [| p parent]; [now elim Hne |].
    unfold resolves in Hres. rewrite (deref_at t _ bk Hres), Hmiss.
    reflexivity.
Qed.

Lemma DeleteBucket_missing_witness :
  let s := WriteSession emptyStore in
  let t := DB.Begin (db emptyStore) true in
  DeleteBucket s ["zz"] =
    Return (MkSession emptyStore (Some t) (Some bolt.ErrBucketNotFound),
            Some bolt.ErrBucketNotFound) /\
  DeleteBucket s (["zz"] ++ ["b"]) = Return (MkSession emptyStore (Some t) None, None).
Proof.
  destruct (DeleteBucket_missing (WriteSession emptyStore)
              (DB.Begin (db emptyStore) true) eq_refl eq_refl) as [H1 H2].
  split.
  - apply (H1 "zz"). reflexivity.
  - apply (H2 ["zz"] "b"); [discriminate | exact I].
Defined.

(** On a session with no transaction bound, every method that resolves a
    path with at least one segment panics with a nil dereference: the
    closure is given the short-lived transaction, but resolution goes
    through the nil [s.tx]. *)
Theorem unbound_session_panics :
  forall (st : Store) (e : option error) (p q : string) (path : list string)
         (key pageToken prefix : string) (value : option string),
  let s := MkSession st None e in
  Read s (p :: path) key = Panic nil_dereference /\
  List s (p :: path) pageToken = Panic nil_dereference /\
  KeyExists s (p :: path) key = Panic nil_dereference /\
  ListKeys s (p :: path) pageToken = Panic nil_dereference /\
  PrefixExists s (p :: path) prefix = Panic nil_dereference /\
  ReadScan s (p :: path) prefix = Panic nil_dereference /\
  NextSeq s (p :: path) = Panic nil_dereference /\
  Write s (p :: path) key value = Panic nil_dereference /\
  DeleteKey s (p :: path) key = Panic nil_dereference /\
  BucketExists s (p :: path) = Panic nil_dereference /\
  CreateBucket s (p :: path) = Panic nil_dereference /\
  DeleteBucket s (p :: q :: path) = Panic nil_dereference /\
  ListBuckets s (p :: path) pageToken = Panic nil_dereference.
Proof.
  intros st e p q path key pageToken prefix value s.
  repeat split; reflexivity.
Qed.

Lemma List_for_length (n : nat) :
  forall i pageToken c keys values c' keys' values',
  List_for n i pageToken c keys values = (c', keys', values') ->
  List.length keys' <= List.length keys + n /\
  List.length values' <= List.length values + n.
Proof.
  induction n as [| n IH]; intros i pageToken c keys values c' keys' values' H.
  - simpl in H. inversion H; subst. lia.
  - simpl in H.
    destruct (if (i =? 0)%Z then _ else _) as [c1 [[k |] v]].
    + apply IH in H. rewrite !length_app in H. simpl in H. lia.
    + inversion H; subst. lia.
Qed.

Lemma ListKeys_for_length (n : nat) :
  forall i pageToken c keys c' keys',
  ListKeys_for n i pageToken c keys = (c', keys') ->
  List.length keys' <= List.length keys + n.
Proof.
  induction n as [| n IH]; intros i pageToken c keys c' keys' H.
  - simpl in H. inversion H; subst. lia.
  - simpl in H.
    destruct (if (i =? 0)%Z then _ else _) as [c1 [[k |] v]].
    + apply IH in H. rewrite !length_app in H. simpl in H. lia.
    + inversion H; subst. lia.
Qed.

(** A call that returns ran its closure on some transaction. *)
Lemma run_inv {A : Type} (kind : txkind) (s s' : Session) (fn : M (option error * A))
  (e : option error) (a : A) :
  run kind s fn = Return (s', (e, a)) ->
  exists t t', fn t = Return ((e, a), t').
Proof.
  unfold run, DB.View, DB.Update.
  destruct (tx s) as [t |].
  - destruct (fn t) as [[[e1 a1] t'] | msg] eqn:Hfn; [| discriminate].
    intros H. inversion H; subst. eauto.
  - destruct kind.
    + destruct (fn (DB.Begin (db (store s)) false)) as [[[e1 a1] t'] | msg] eqn:Hfn;
        [| discriminate].
      intros H. inversion H; subst. eauto.
    + destruct (fn (DB.Begin (db (store s)) true)) as [[[[e1 |] a1] t'] | msg] eqn:Hfn;
        try discriminate; intros H; inversion H; subst; eauto.
Qed.

Lemma List_fn_length (s : Session) (path : list string) (pageToken : string)
  (t t' : bolt.Tx) (e : option error) (keys : list string)
  (values : list (option string)) (next : string) :
  List_fn s path pageToken t = Return ((e, (keys, values, next)), t') ->
  (List.length keys <= 100 /\ List.length values <= 100).
Proof.
  unfold List_fn, bind.
  destruct (setBucket s path t) as [[[b [e1 |]] t1] | msg]; try discriminate.
  - unfold ret. intros H. inversion H; subst. simpl. lia.
  - destruct b as [h |]; [| discriminate]. unfold on_bucket, reads.
    destruct (List_for (Z.to_nat pageSize) 0 pageToken (bolt.NewCursor t1 h) [] [])
      as [[c1 ks] vs] eqn:Hfor.
    destruct (bolt.Next c1) as [c2 [k v]]. unfold ret. intros H. inversion H; subst.
    apply List_for_length in Hfor. simpl in Hfor.
    change (Z.to_nat pageSize) with 100 in Hfor. exact Hfor.
Qed.

Lemma ListKeys_fn_length (s : Session) (path : list string) (pageToken : string)
  (t t' : bolt.Tx) (e : option error) (keys : list string) (next : string) :
  ListKeys_fn s path pageToken t = Return ((e, (keys, next)), t') ->
  List.length keys <= 100.
Proof.
  unfold ListKeys_fn, bind.
  destruct (setBucket s path t) as [[[b [e1 |]] t1] | msg]; try discriminate.
  - unfold ret. intros H. inversion H; subst. simpl. lia.
  - destruct b as [h |]; [| discriminate]. unfold on_bucket, reads.
    destruct (ListKeys_for (Z.to_nat pageSize) 0 pageToken (bolt.NewCursor t1 h) [])
      as [c1 ks] eqn:Hfor.
    destruct (bolt.Next c1) as [c2 [k v]]. unfold ret. intros H. inversion H; subst.
    apply ListKeys_for_length in Hfor. simpl in Hfor.
    change (Z.to_nat pageSize) with 100 in Hfor. exact Hfor.
Qed.

(** C7, as stated, fails: with one hundred and one top-level buckets,
    [ListBuckets] with an empty path returns them all in one call. *)
Lemma ListBuckets_root_exceeds_page :
  calls (map (fun name => OpCreateBucket [name]) top_names) (WriteSession emptyStore)
    = Return crowded /\
  ListBuckets crowded [] EmptyString = Return (crowded, (top_names, EmptyString, None)) /\
  List.length top_names = 101.
Proof.
  split; [| split]; vm_compute; reflexivity.
Qed.

(** C7, amended: every call of [List], of [ListKeys] and of [ListBuckets]
    with a path that is not empty returns at most 100 entries; [ListBuckets]
    with an empty path is not paged: on a bound session it returns the names
    of all top-level buckets and an empty token. *)
Theorem page_size_bound :
  forall (s s' : Session) (path : list string) (pageToken next : string)
         (keys : list string) (values : list (option string)) (e : option error),
  (List s path pageToken = Return (s', (keys, values, next, e)) ->
   List.length keys <= 100 /\ List.length values <= 100) /\
  (ListKeys s path pageToken = Return (s', (keys, next, e)) ->
   List.length keys <= 100) /\
  (path <> [] ->
   ListBuckets s path pageToken = Return (s', (keys, next, e)) ->
   List.length keys <= 100) /\
  (forall t, tx s = Some t ->
   ListBuckets s [] pageToken =
   Return (MkSession (store s) (Some t) None, (bolt.ForEach t, EmptyString, None))).
Proof.
  intros s s' path pageToken next keys values e. repeat split.
  - unfold List in H.
    destruct (run View s (List_fn s path pageToken))
      as [[s1 [e1 [[ks vs] nx]]] | msg] eqn:Hrun; [| discriminate].
    apply run_inv in Hrun. destruct Hrun as [t [t' Hfn]].
    apply List_fn_length in Hfn.
    destruct e1; inversion H; subst; simpl; lia.
  - unfold List in H.
    destruct (run View s (List_fn s path pageToken))
      as [[s1 [e1 [[ks vs] nx]]] | msg] eqn:Hrun; [| discriminate].
    apply run_inv in Hrun. destruct Hrun as [t [t' Hfn]].
    apply List_fn_length in Hfn.
    destruct e1; inversion H; subst; simpl; lia.
  - intros H. unfold ListKeys in H.
    destruct (run View s (ListKeys_fn s path pageToken))
      as [[s1 [e1 [ks nx]]] | msg] eqn:Hrun; [| discriminate].
    apply run_inv in Hrun. destruct Hrun as [t [t' Hfn]].
    apply ListKeys_fn_length in Hfn.
    destruct e1; inversion H; subst; simpl; lia.
  - intros Hne H. unfold ListBuckets in H.
    destruct (run View s (ListBuckets_fn s path pageToken))
      as [[s1 [e1 [ks nx]]] | msg] eqn:Hrun; [| discriminate].
    apply run_inv in Hrun. destruct Hrun as [t [t' Hfn]].
    assert (Hfn' : ListKeys_fn s path pageToken t = Return ((e1, (ks, nx)), t')).
    { unfold ListBuckets_fn in Hfn. destruct path as [| p path]; [now elim Hne |].
      exact Hfn. }
    apply ListKeys_fn_length in Hfn'.
    destruct e1; inversion H; subst; simpl; lia.
  - intros t Hs. unfold ListBuckets. run_on_bound Hs. reflexivity.
Qed.

Lemma page_size_bound_witness :
  let path := ["l1a"; "l2a"; "l3a"] in
  let keys := ["k1a"; "k2a"; "k3a"] in
  ListKeys sample path EmptyString = Return (sample, (keys, EmptyString, None)) /\
  List.length keys <= 100 /\
  ListBuckets sample path EmptyString = Return (sample, (keys, EmptyString, None)) /\
  List sample path EmptyString =
    Return (sample, (keys, [Some "v1a"; Some "v2a"; Some "v3a"], EmptyString, None)).
Proof.
  intros path keys.
  assert (HK : ListKeys sample path EmptyString = Return (sample, (keys, EmptyString, None)))
    by (vm_compute; reflexivity).
  split; [exact HK |].
  split; [| split; vm_compute; reflexivity].
  exact (proj1 (proj2 (page_size_bound sample sample path EmptyString EmptyString keys [] None)) HK).
Defined.

(** *** Prefix scans *)

Lemma keyValue_cons items (k : string) (x : bolt.inode bolt.bucket) rest :
  bolt.keyValue (bolt.MkCursor items ((k, x) :: rest)) = (Some k, value_of x).
Proof. now destruct x. Qed.

Lemma ReadScan_for_spec (prefix : string) items :
  forall pos n keys values,
  List.length pos <= n ->
  ReadScan_for n prefix (bolt.MkCursor items pos)
    (fst (bolt.keyValue (bolt.MkCursor items pos)))
    (snd (bolt.keyValue (bolt.MkCursor items pos))) keys values =
  (keys ++ keys_of (take_prefixed prefix pos),
   values ++ values_of (take_prefixed prefix pos)).
Proof.
  induction pos as [| [k x] rest IH]; intros n keys values Hn.
  - destruct n; simpl; now rewrite !app_nil_r.
  - rewrite keyValue_cons. cbn [fst snd].
    destruct n as [| n]; [simpl in Hn; lia |].
    cbn [ReadScan_for take_prefixed].
    destruct (bolt.HasPrefix k prefix); cbn [negb].
    + unfold bolt.Next. cbn [bolt.items bolt.pos tl].
      rewrite (surjective_pairing (bolt.keyValue (bolt.MkCursor items rest))).
      rewrite IH by (simpl in Hn; lia).
      unfold keys_of, values_of. simpl. now rewrite <- !app_assoc.
    + simpl. now rewrite !app_nil_r.
Qed.

Lemma PrefixExists_for_spec (prefix : string) items pos :
  PrefixExists_for (List.length pos) prefix prefix (bolt.MkCursor items pos)
    (fst (bolt.keyValue (bolt.MkCursor items pos))) false =
  match take_prefixed prefix pos with
  | [] => false
  | _ :: _ => true
  end.
Proof.
  destruct pos as [| [k x] rest]; [reflexivity |].
  rewrite keyValue_cons. cbn [fst List.length PrefixExists_for take_prefixed].
  now destruct (bolt.HasPrefix k prefix).
Qed.

(** Past a key at or after the prefix that does not begin with it, no
    key begins with it. *)
Lemma matching_past_gap (prefix k : string) l :
  bolt.key_lt k prefix = false ->
  bolt.HasPrefix k prefix = false ->
  Forall (fun k' => bolt.key_lt k k' = true) (keys_of l) ->
  matching prefix l = [].
Proof.
  intros Hk Hp. unfold matching.
  induction l as [| [k' x'] l IH]; intros Hlt; [reflexivity |].
  inversion Hlt as [| ? ? Hkk' Hrest]; subst. cbn [filter fst].
  destruct (bolt.HasPrefix k' prefix) eqn:Hp'; [| now apply IH].
  rewrite (HasPrefix_between prefix k k' Hk (key_lt_asym _ _ Hkk') Hp') in Hp.
  discriminate.
Qed.

(** In an ascending list the scan keeps exactly the inodes whose key
    begins with the prefix. *)
Lemma take_prefixed_filter (prefix : string) l :
  ascending (keys_of l) = true ->
  Forall (fun kx => bolt.key_lt (fst kx) prefix = false) l ->
  take_prefixed prefix l = matching prefix l.
Proof.
  induction l as [| [k x] l IH]; intros Hasc Hge; [reflexivity |].
  inversion Hge as [| ? ? Hk Hl]; subst. cbn [fst] in Hk.
  unfold matching. cbn [take_prefixed filter fst].
  destruct (bolt.HasPrefix k prefix) eqn:Hp.
  - f_equal. apply IH; [| exact Hl]. now apply ascending_tail with k.
  - symmetry. apply (matching_past_gap prefix k l Hk Hp).
    now apply ascending_head.
Qed.

Lemma filter_below (prefix : string) l :
  Forall (fun kx : string * bolt.inode bolt.bucket =>
            bolt.key_lt (fst kx) prefix = true) l ->
  matching prefix l = [].
Proof.
  unfold matching. induction 1 as [| [k x] l Hk _ IH]; [reflexivity |].
  cbn [filter fst]. destruct (bolt.HasPrefix k prefix) eqn:Hp; [| exact IH].
  apply HasPrefix_not_lt in Hp. simpl in Hk. congruence.
Qed.

Lemma scanned_matching (prefix : string) l :
  ascending (keys_of l) = true -> scanned prefix l = matching prefix l.
Proof.
  intros Hasc. unfold scanned.
  rewrite take_prefixed_filter;
    [| now apply ascending_seek | now apply seek_above].
  destruct (seek_split prefix l) as [skipped [Heq Hsk]].
  rewrite Heq at 2. unfold matching. rewrite filter_app.
  fold (matching prefix skipped). now rewrite (filter_below prefix skipped Hsk).
Qed.

Lemma matching_empty_prefix l : matching EmptyString l = l.
Proof.
  unfold matching. induction l as [| [k x] l IH]; [reflexivity |].
  cbn [filter fst]. rewrite HasPrefix_empty. now f_equal.
Qed.

Lemma matching_existsb (prefix : string) l :
  match matching prefix l with [] => false | _ :: _ => true end =
  existsb (fun k => bolt.HasPrefix k prefix) (keys_of l).
Proof.
  unfold matching. induction l as [| [k x] l IH]; [reflexivity |].
  cbn [filter fst keys_of map existsb].
  destruct (bolt.HasPrefix k prefix); [reflexivity | exact IH].
Qed.

Lemma ascending_matching (prefix : string) l :
  ascending (keys_of l) = true -> ascending (keys_of (matching prefix l)) = true.
Proof.
  unfold matching. induction l as [| [k x] l IH]; intros Hasc; [reflexivity |].
  assert (Htl : ascending (keys_of l) = true) by now apply ascending_tail with k.
  assert (Hhd : Forall (fun k' => bolt.key_lt k k' = true) (keys_of l))
    by now apply ascending_head.
  cbn [filter fst]. destruct (bolt.HasPrefix k prefix); [| now apply IH].
  cbn [keys_of map fst]. apply ascending_cons; [| now apply IH].
  rewrite Forall_forall in Hhd |- *.
  intros k' Hin. apply Hhd. unfold keys_of in Hin |- *.
  rewrite in_map_iff in Hin |- *. destruct Hin as [kx [Hk Hin]].
  exists kx. split; [exact Hk |]. now apply filter_In in Hin.
Qed.

Lemma PrefixExists_bound (s : Session) (t : bolt.Tx) (path : list string)
  (prefix : string) (bk : bolt.bucket) :
  tx s = Some t ->
  resolves t path = Some bk ->
  PrefixExists s path prefix =
  Return (MkSession (store s) (Some t) None,
          (match scanned prefix (bolt.inodes bk) with [] => false | _ :: _ => true end,
           None)).
Proof.
  intros Hs Hres. unfold PrefixExists. run_on_bound Hs.
  unfold PrefixExists_fn, bind. rewrite (setBucket_bound s path t t Hs), Hres.
  unfold on_bucket, reads, ret, bolt.NewCursor, bolt.Seek.
  rewrite (deref_at t path bk (resolves_at t path bk Hres)).
  cbn [bolt.items bolt.pos].
  rewrite (surjective_pairing (bolt.keyValue _)).
  now rewrite PrefixExists_for_spec.
Qed.

Lemma ReadScan_bound (s : Session) (t : bolt.Tx) (path : list string)
  (prefix : string) (bk : bolt.bucket) :
  tx s = Some t ->
  resolves t path = Some bk ->
  ReadScan s path prefix =
  Return (MkSession (store s) (Some t) None,
          (keys_of (scanned prefix (bolt.inodes bk)),
           values_of (scanned prefix (bolt.inodes bk)), None)).
Proof.
  intros Hs Hres. unfold ReadScan. run_on_bound Hs.
  unfold ReadScan_fn, bind. rewrite (setBucket_bound s path t t Hs), Hres.
  unfold on_bucket, reads, ret, bolt.NewCursor, bolt.Seek.
  rewrite (deref_at t path bk (resolves_at t path bk Hres)).
  cbn [bolt.items bolt.pos].
  rewrite (surjective_pairing (bolt.keyValue _)).
  now rewrite ReadScan_for_spec.
Qed.

(** C9: on a bound session, [PrefixExists] and [ReadScan] return a
    [PathNotFound] error when the path does not resolve.  Otherwise the scan
    starts at the first key at or after the prefix and stops at the first
    key that does not begin with it; [PrefixExists] tells whether it met a
    key and [ReadScan] returns what it met.  Keys being in ascending order,
    that is true exactly when some key of the container begins with the
    prefix, respectively exactly the pairs whose key begins with the prefix,
    in ascending key order; an empty prefix matches every key. *)
Theorem prefix_scan :
  forall (s : Session) (t : bolt.Tx) (path : list string) (prefix : string),
  tx s = Some t ->
  match resolves t path with
  | None =>
      exists e,
        Is e ErrPathNotFound = true /\
        PrefixExists s path prefix =
          Return (MkSession (store s) (Some t) (Some e), (false, Some e)) /\
        ReadScan s path prefix =
          Return (MkSession (store s) (Some t) (Some e), ([], [], Some e))
  | Some bk =>
      let l := bolt.inodes bk in
      let s' := MkSession (store s) (Some t) None in
      PrefixExists s path prefix =
        Return (s', (match scanned prefix l with [] => false | _ :: _ => true end, None)) /\
      ReadScan s path prefix =
        Return (s', (keys_of (scanned prefix l), values_of (scanned prefix l), None)) /\
      (ascending (keys_of l) = true ->
       PrefixExists s path prefix =
         Return (s', (existsb (fun k => bolt.HasPrefix k prefix) (keys_of l), None)) /\
       ReadScan s path prefix =
         Return (s', (keys_of (matching prefix l), values_of (matching prefix l), None)) /\
       ascending (keys_of (matching prefix l)) = true) /\
      matching EmptyString l = l
  end.
Proof.
  intros s t path prefix Hs.
  destruct (resolves t path) as [bk |] eqn:Hres.
  - intros l s'.
    pose proof (PrefixExists_bound s t path prefix bk Hs Hres) as HP.
    pose proof (ReadScan_bound s t path prefix bk Hs Hres) as HR.
    repeat split; trivial.
    + rewrite HP. fold l. rewrite (scanned_matching prefix l H).
      now rewrite matching_existsb.
    + rewrite HR. fold l. now rewrite (scanned_matching prefix l H).
    + now apply ascending_matching.
    + apply matching_empty_prefix.
  - exists (Wrapf ErrPathNotFound "path [%s]" [ArgPath path]).
    split; [unfold ErrPathNotFound; now rewrite Is_Wrapf |]. split.
    + unfold PrefixExists. run_on_bound Hs. unfold PrefixExists_fn, bind.
      rewrite (setBucket_bound s path t t Hs), Hres. reflexivity.
    + unfold ReadScan. run_on_bound Hs. unfold ReadScan_fn, bind.
      rewrite (setBucket_bound s path t t Hs), Hres. reflexivity.
Qed.

Lemma prefix_scan_witness :
  tx sample = Some sample_tx /\
  ascending (keys_of (bolt.inodes sample_bucket)) = true /\
  PrefixExists sample sample_path "k2" = Return (sample, (true, None)) /\
  ReadScan sample sample_path "k2" = Return (sample, (["k2a"], [Some "v2a"], None)) /\
  PrefixExists sample ["zz"] "k2" =
    Return (MkSession emptyStore (Some sample_tx)
              (Some (Wrapf ErrPathNotFound "path [%s]" [ArgPath ["zz"]])),
            (false, Some (Wrapf ErrPathNotFound "path [%s]" [ArgPath ["zz"]]))).
Proof.
  pose proof (prefix_scan sample sample_tx sample_path "k2" eq_refl) as H.
  change (resolves sample_tx sample_path) with (Some sample_bucket) in H.
  cbv zeta in H. destruct H as [_ [_ [H _]]].
  destruct (H eq_refl) as [HP [HR _]].
  split; [reflexivity |]. split; [reflexivity |].
  split; [exact HP |]. split; [exact HR |].
  vm_compute. reflexivity.
Defined.

Lemma store_eta (st : Store) : MkStore (db st) = st.
Proof. now destruct st. Qed.

(** C10: on a bound session, [KeyExists] for a key under which [Get] finds
    no value, or for a path that does not resolve, returns false and leaves
    a not-found error in the session error; when the session is a write
    session, whatever it did before, its closer then rolls back and the
    store is as it was before the session began. *)
Theorem KeyExists_missing_rolls_back :
  forall (s : Session) (t : bolt.Tx) (path : list string) (key : string),
  tx s = Some t ->
  missing t path key ->
  exists e,
    KeyExists s path key = Return (MkSession (store s) (Some t) (Some e), false) /\
    (Is e ErrKeyNotFound = true \/ Is e ErrPathNotFound = true) /\
    forall (st : Store) (ops : list op),
      calls ops (WriteSession st) = Return s ->
      WriteSession_closer (MkSession (store s) (Some t) (Some e)) = Return st.
Proof.
  intros s t path key Hs Hmiss. unfold missing in Hmiss.
  assert (Hclose : forall e (st : Store) (ops : list op),
             calls ops (WriteSession st) = Return s ->
             WriteSession_closer (MkSession (store s) (Some t) (Some e)) = Return st).
  { intros e st ops Hops.
    destruct (calls_bound ops (WriteSession st) s (DB.Begin (db st) true) eq_refl Hops)
      as [Hst _].
    unfold WriteSession_closer, DB.Rollback. cbn [tx err store].
    rewrite Hst. cbn [store WriteSession]. now rewrite store_eta. }
  unfold KeyExists. run_on_bound Hs. unfold KeyExists_fn, bind.
  rewrite (setBucket_bound s path t t Hs).
  destruct (resolves t path) as [bk |] eqn:Hres.
  - unfold on_bucket, reads. rewrite Hmiss.
    exists (Wrapf ErrKeyNotFound "key [%s]" [ArgStr key]).
    split; [reflexivity |]. split; [| apply Hclose].
    left. unfold ErrKeyNotFound. now rewrite Is_Wrapf.
  - exists (Wrapf (Wrapf ErrPathNotFound "path [%s]" [ArgStr (pathStr path)])
              "KeyExist path [%s]" [ArgPath path]).
    split; [reflexivity |]. split; [| apply Hclose].
    right. unfold ErrPathNotFound. now rewrite !Is_Wrapf.
Qed.

Lemma KeyExists_missing_rolls_back_witness :
  tx sample = Some sample_tx /\
  missing sample_tx sample_path "K2A" /\
  exists e,
    KeyExists sample sample_path "K2A" =
      Return (MkSession (store sample) (Some sample_tx) (Some e), false) /\
    (Is e ErrKeyNotFound = true \/ Is e ErrPathNotFound = true) /\
    forall (st : Store) (ops : list op),
      calls ops (WriteSession st) = Return sample ->
      WriteSession_closer (MkSession (store sample) (Some sample_tx) (Some e)) = Return st.
Proof.
  assert (Hs : tx sample = Some sample_tx) by (vm_compute; reflexivity).
  assert (Hm : missing sample_tx sample_path "K2A") by (vm_compute; reflexivity).
  split; [exact Hs |]. split; [exact Hm |].
  exact (KeyExists_missing_rolls_back sample sample_tx sample_path "K2A" Hs Hm).
Defined.

(** *** Writing *)

Lemma CreateBucketIfNotExists_ok (t t' : bolt.Tx) (h : bolt.handle) (p : string)
  (bk : bolt.bucket) (b' : option bolt.handle) :
  bolt.bucket_at h (bolt.root t) = Some bk ->
  bolt.CreateBucketIfNotExists t h p = (t', (b', None)) ->
  b' = Some (h ++ [p]) /\ exists c, bolt.bucket_at (h ++ [p]) (bolt.root t') = Some c.
Proof.
  intros Hh. unfold bolt.CreateBucketIfNotExists, bolt.CreateBucket, bolt.Bucket.
  destruct (negb (bolt.writable t)); [simpl; discriminate |].
  destruct (bolt.len p =? 0)%N; [simpl; discriminate |].
  rewrite (deref_at t h bk Hh).
  destruct (bolt.find p (bolt.inodes bk)) as [[v | c] |] eqn:Hf.
  - simpl. discriminate.
  - simpl. rewrite (deref_at t h bk Hh), Hf. intros H. inversion H; subst.
    split; [reflexivity |]. exists c.
    rewrite bucket_at_app, Hh. simpl. unfold bolt.child. now rewrite Hf.
  - intros H. inversion H; subst. split; [reflexivity |].
    exists bolt.empty. rewrite bucket_at_app.
    rewrite (deref_update t h _ bk Hh). simpl. now rewrite child_put_sub.
Qed.

Lemma setBucketIfNotExist_range_ok (s : Session) (path : list string) :
  forall rest h index bk t b t',
  index <> 0 ->
  bolt.bucket_at h (bolt.root t) = Some bk ->
  setBucketIfNotExist_range s path index (Some h) rest t = Return ((b, None), t') ->
  b = Some (h ++ rest) /\ exists c, bolt.bucket_at (h ++ rest) (bolt.root t') = Some c.
Proof.
  induction rest as [| p rest IH]; intros h index bk t b t' Hi Hh H.
  - simpl in H. inversion H; subst. rewrite app_nil_r. eauto.
  - simpl in H. destruct (Nat.eqb_spec index 0) as [-> | _]; [now elim Hi |].
    unfold bind, on_bucket, writes in H.
    destruct (bolt.CreateBucketIfNotExists t h p) as [t1 [b1 [e1 |]]] eqn:Hc;
      [discriminate |].
    destruct (CreateBucketIfNotExists_ok t t1 h p bk b1 Hh Hc) as [-> [c Hc1]].
    cbv beta iota in H.
    destruct (IH (h ++ [p]) (S index) c t1 b t' (Nat.neq_succ_0 index) Hc1 H)
      as [Hb Hex].
    rewrite <- app_assoc in Hb, Hex. now split.
Qed.

(** Creating resolution that succeeds on a bound session returns the path
    itself, which then names a bucket of the transaction. *)
Lemma setBucketIfNotExist_ok (s : Session) (path : list string)
  (t0 t t' : bolt.Tx) (b : option bolt.handle) :
  tx s = Some t0 ->
  setBucketIfNotExist s path t = Return ((b, None), t') ->
  b = Some path /\ exists c, resolves t' path = Some c.
Proof.
  intros Hs. unfold setBucketIfNotExist, resolves.
  destruct path as [| p rest]; [discriminate |].
  cbn [setBucketIfNotExist_range Nat.eqb]. unfold bind, on_s_tx. rewrite Hs.
  unfold writes.
  destruct (bolt.CreateBucketIfNotExists t [] p) as [t1 [b1 [e1 |]]] eqn:Hc;
    [discriminate |].
  destruct (CreateBucketIfNotExists_ok t t1 [] p (bolt.root t) b1 eq_refl Hc)
    as [-> [c Hc1]].
  intros H.
  apply (setBucketIfNotExist_range_ok s (p :: rest) rest [p] 1 c t1 b t');
    trivial; discriminate.
Qed.

(** A [Write] that returns nil on a bound session leaves the value under
    the key in the bucket the path names. *)
Lemma Write_ok (s s1 : Session) (t : bolt.Tx) (path : list string) (key : string)
  (value : option string) :
  tx s = Some t ->
  Write s path key value = Return (s1, None) ->
  exists t1 bk,
    s1 = MkSession (store s) (Some t1) None /\
    bolt.writable t1 = true /\
    resolves t1 path = Some bk /\
    bolt.find key (bolt.inodes bk) = Some (bolt.Value value).
Proof.
  intros Hs. unfold Write. run_on_bound Hs. unfold Write_fn, bind.
  destruct (setBucketIfNotExist s path t) as [[[b [e |]] t'] | msg] eqn:Hset;
    try discriminate.
  destruct (setBucketIfNotExist_ok s path t t t' b Hs Hset) as [-> [c Hc]].
  unfold on_bucket, writes, bolt.Put.
  destruct (bolt.writable t') eqn:Hw; [| simpl; discriminate]. cbn [negb].
  destruct (bolt.len key =? 0)%N; [simpl; discriminate |].
  destruct (bolt.MaxKeySize <? bolt.len key)%N; [simpl; discriminate |].
  destruct (bolt.MaxValueSize <? _)%N; [simpl; discriminate |].
  pose proof (resolves_at t' path c Hc) as Hat.
  rewrite (deref_at t' path c Hat).
  assert (Hput : forall f,
             resolves (bolt.update t' path f) path = Some (f c)).
  { intros f. destruct path; [discriminate |]. now apply deref_update. }
  destruct (bolt.find key (bolt.inodes c)) as [[v | c'] |];
    try (simpl; discriminate);
    intros H; inversion H; subst;
    (eexists; eexists; split; [reflexivity |]; split; [exact Hw |];
     split; [apply Hput |]; simpl; apply find_put).
Qed.

Lemma Read_bound (s : Session) (t : bolt.Tx) (path : list string) (key : string)
  (bk : bolt.bucket) (v : option string) :
  tx s = Some t ->
  resolves t path = Some bk ->
  bolt.find key (bolt.inodes bk) = Some (bolt.Value v) ->
  Read s path key =
  Return (MkSession (store s) (Some t)
            (match v with
             | Some _ => None
             | None => Some (Wrapf ErrKeyNotFound "key [%s]" [ArgStr key])
             end),
          (v, match v with
              | Some _ => None
              | None => Some (Wrapf ErrKeyNotFound "key [%s]" [ArgStr key])
              end)).
Proof.
  intros Hs Hres Hf. unfold Read. run_on_bound Hs. unfold Read_fn, bind.
  rewrite (setBucket_bound s path t t Hs), Hres.
  unfold on_bucket, reads, bolt.Get.
  rewrite (deref_at t path bk (resolves_at t path bk Hres)), Hf.
  now destruct v.
Qed.

Lemma resolves_spill (t : bolt.Tx) (w : bool) (path : list string) (bk : bolt.bucket) :
  resolves t path = Some bk ->
  resolves (bolt.MkTx w (bolt.spill (bolt.root t))) path = Some (bolt.spill bk).
Proof.
  unfold resolves. destruct path as [| p rest]; [discriminate |].
  intros H. cbn [bolt.root]. now rewrite bucket_at_spill, H.
Qed.

(** C8, as stated, fails: with an empty key the engine refuses the write
    and the read finds nothing; a nil value written in a session is read
    back as absent in that session; and a non-empty path is refused in a
    read session, when a segment of it is empty and when it runs through a
    plain key, the read that follows finding nothing. *)
Lemma refused_write_not_read_back :
  (exists s1 s2 e e',
     Write (WriteSession emptyStore) ["a"] EmptyString (Some "v") = Return (s1, Some e) /\
     Read s1 ["a"] EmptyString = Return (s2, (None, Some e')) /\
     Is e' ErrKeyNotFound = true) /\
  (exists s1 s2 e',
     Write (WriteSession emptyStore) ["a"] "k" None = Return (s1, None) /\
     Read s1 ["a"] "k" = Return (s2, (None, Some e')) /\
     Is e' ErrKeyNotFound = true) /\
  (exists s1 s2 e e',
     Write (ReadSession emptyStore) ["a"] "k" (Some "v") = Return (s1, Some e) /\
     Is e bolt.ErrTxNotWritable = true /\
     Read s1 ["a"] "k" = Return (s2, (None, Some e')) /\
     Is e' ErrPathNotFound = true) /\
  (exists s1 s2 e e',
     Write (WriteSession emptyStore) ["a"; EmptyString] "k" (Some "v") =
       Return (s1, Some e) /\
     Is e bolt.ErrBucketNameRequired = true /\
     Read s1 ["a"; EmptyString] "k" = Return (s2, (None, Some e')) /\
     Is e' ErrPathNotFound = true) /\
  (exists s0 s1 s2 e e',
     Write (WriteSession emptyStore) ["a"] "k" (Some "v") = Return (s0, None) /\
     Write s0 ["a"; "k"] "x" (Some "v") = Return (s1, Some e) /\
     Is e bolt.ErrIncompatibleValue = true /\
     Read s1 ["a"; "k"] "x" = Return (s2, (None, Some e')) /\
     Is e' ErrPathNotFound = true).
Proof.
  split; [| split; [| split; [| split]]].
  - do 4 eexists. repeat split; vm_compute; reflexivity.
  - do 3 eexists. repeat split; vm_compute; reflexivity.
  - do 4 eexists. repeat split; vm_compute; reflexivity.
  - do 4 eexists. repeat split; vm_compute; reflexivity.
  - do 5 eexists. repeat split; vm_compute; reflexivity.
Qed.

(** When [Write(P,K,V)] on a bound session returns no error, a [Read(P,K)]
    that follows in the same session returns V with no error if V is not
    nil; and once the closer of the session has run (it commits),
    [Read(P,K)] in a later read or write session returns the bytes of V
    with no error. *)
Lemma Write_read_back :
  forall (s s1 : Session) (t : bolt.Tx) (path : list string) (key : string)
         (value : option string),
  tx s = Some t ->
  Write s path key value = Return (s1, None) ->
  (forall v, value = Some v -> Read s1 path key = Return (s1, (Some v, None))) /\
  exists st',
    WriteSession_closer s1 = Return st' /\
    Read (ReadSession st') path key =
      Return (ReadSession st', (Some (bytes_of value), None)) /\
    Read (WriteSession st') path key =
      Return (WriteSession st', (Some (bytes_of value), None)).
Proof.
  intros s s1 t path key value Hs Hw.
  destruct (Write_ok s s1 t path key value Hs Hw) as [t1 [bk [-> [Hwr [Hres Hf]]]]].
  split.
  - intros v ->.
    apply (Read_bound (MkSession (store s) (Some t1) None) t1 path key bk (Some v)
             eq_refl Hres Hf).
  - exists (MkStore (DB.Commit t1)). split; [reflexivity |].
    assert (Hf' : bolt.find key (bolt.inodes (bolt.spill bk)) =
                  Some (bolt.Value (Some (bytes_of value))))
      by (now rewrite find_spill, Hf).
    split.
    + apply (Read_bound (ReadSession (MkStore (DB.Commit t1)))
               (bolt.MkTx false (bolt.spill (bolt.root t1))) path key
               (bolt.spill bk) (Some (bytes_of value)) eq_refl).
      * now apply resolves_spill.
      * exact Hf'.
    + apply (Read_bound (WriteSession (MkStore (DB.Commit t1)))
               (bolt.MkTx true (bolt.spill (bolt.root t1))) path key
               (bolt.spill bk) (Some (bytes_of value)) eq_refl).
      * now apply resolves_spill.
      * exact Hf'.
Qed.

(** *** Paging *)

Lemma tl_skipn {A : Type} (n : nat) (l : list A) : tl (skipn n l) = skipn (S n) l.
Proof.
  revert l. induction n as [| n IH]; intros [| a l]; try reflexivity.
  apply (IH l).
Qed.

(** The turns of the paging loop after the first: the cursor stands on an
    inode already collected. *)
Lemma List_for_next items (pageToken : string) :
  forall n pos i keys values,
  (0 < i)%Z ->
  List_for n i pageToken (bolt.MkCursor items pos) keys values =
  (bolt.MkCursor items (if (List.length (tl pos) <? n)%nat then [] else skipn n pos),
   keys ++ keys_of (firstn n (tl pos)),
   values ++ values_of (firstn n (tl pos))).
Proof.
  induction n as [| n IH]; intros pos i keys values Hi.
  - simpl. now rewrite !app_nil_r.
  - cbn [List_for]. replace (i =? 0)%Z with false by (symmetry; apply Z.eqb_neq; lia).
    unfold bolt.Next. cbn [bolt.items bolt.pos].
    destruct pos as [| a [| [k x] q]]; try (simpl; now rewrite !app_nil_r).
    cbn [tl]. rewrite keyValue_cons.
    rewrite IH by lia. cbn [tl List.length firstn skipn].
    unfold keys_of, values_of. cbn [map fst snd].
    rewrite <- !app_assoc. reflexivity.
Qed.

(** A whole run of the paging loop on a fresh cursor. *)
Lemma List_for_page items (pageToken : string) (n : nat) pos0 :
  let start := page_start pageToken items in
  List_for (S n) 0 pageToken (bolt.MkCursor items pos0) [] [] =
  (bolt.MkCursor items (if (List.length start <? S n)%nat then [] else skipn n start),
   keys_of (firstn (S n) start), values_of (firstn (S n) start)).
Proof.
  intros start. cbn [List_for]. cbn [Z.eqb].
  assert (Hstart : (if String.eqb pageToken EmptyString
                    then bolt.First (bolt.MkCursor items pos0)
                    else bolt.Seek (bolt.MkCursor items pos0) pageToken) =
                   (bolt.MkCursor items start,
                    bolt.keyValue (bolt.MkCursor items start))).
  { unfold start, page_start, bolt.First, bolt.Seek.
    now destruct (String.eqb pageToken EmptyString). }
  rewrite Hstart. clear Hstart.
  destruct start as [| [k x] q]; [reflexivity |].
  rewrite keyValue_cons, List_for_next by lia.
  reflexivity.
Qed.

Lemma ListKeys_for_List_for (n : nat) :
  forall i pageToken c keys values,
  ListKeys_for n i pageToken c keys =
  (fst (fst (List_for n i pageToken c keys values)),
   snd (fst (List_for n i pageToken c keys values))).
Proof.
  induction n as [| n IH]; intros i pageToken c keys values; [reflexivity |].
  cbn [ListKeys_for List_for].
  destruct (if (i =? 0)%Z then _ else _) as [c1 [[k |] v]]; [apply IH | reflexivity].
Qed.

Lemma page_token items (pageToken : string) (n : nat) :
  let start := page_start pageToken items in
  tokenOf (fst (bolt.keyValue
                  (bolt.MkCursor items
                     (tl (if (List.length start <? S n)%nat then [] else skipn n start))))) =
  next_token (skipn (S n) start).
Proof.
  intros start.
  assert (Htl : tl (if (List.length start <? S n)%nat then [] else skipn n start) =
                skipn (S n) start).
  { destruct (Nat.ltb_spec (List.length start) (S n)) as [Hlt | Hge].
    - symmetry. apply skipn_all2. lia.
    - apply tl_skipn. }
  rewrite Htl. destruct (skipn (S n) start) as [| [k x] q]; [reflexivity |].
  now rewrite keyValue_cons.
Qed.

Lemma List_bound (s : Session) (t : bolt.Tx) (path : list string)
  (pageToken : string) (bk : bolt.bucket) :
  tx s = Some t ->
  resolves t path = Some bk ->
  let start := page_start pageToken (bolt.inodes bk) in
  List s path pageToken =
  Return (MkSession (store s) (Some t) None,
          (keys_of (firstn 100 start), values_of (firstn 100 start),
           next_token (skipn 100 start), None)).
Proof.
  intros Hs Hres start. unfold List. run_on_bound Hs.
  unfold List_fn, bind. rewrite (setBucket_bound s path t t Hs), Hres.
  unfold on_bucket, reads, ret, bolt.NewCursor.
  rewrite (deref_at t path bk (resolves_at t path bk Hres)).
  change (Z.to_nat pageSize) with 100.
  rewrite (List_for_page (bolt.inodes bk) pageToken 99 []). fold start.
  unfold bolt.Next. cbn [bolt.items bolt.pos].
  rewrite (surjective_pairing (bolt.keyValue _)).
  pose proof (page_token (bolt.inodes bk) pageToken 99) as Htok.
  fold start in Htok. cbv zeta in Htok. now rewrite Htok.
Qed.

Lemma ListKeys_bound (s : Session) (t : bolt.Tx) (path : list string)
  (pageToken : string) (bk : bolt.bucket) :
  tx s = Some t ->
  resolves t path = Some bk ->
  let start := page_start pageToken (bolt.inodes bk) in
  ListKeys s path pageToken =
  Return (MkSession (store s) (Some t) None,
          (keys_of (firstn 100 start), next_token (skipn 100 start), None)).
Proof.
  intros Hs Hres start. unfold ListKeys. run_on_bound Hs.
  unfold ListKeys_fn, bind. rewrite (setBucket_bound s path t t Hs), Hres.
  unfold on_bucket, reads, ret, bolt.NewCursor.
  rewrite (deref_at t path bk (resolves_at t path bk Hres)).
  change (Z.to_nat pageSize) with 100.
  rewrite (ListKeys_for_List_for 100 0 pageToken _ [] []).
  rewrite (List_for_page (bolt.inodes bk) pageToken 99 []). fold start.
  cbn [fst snd]. unfold bolt.Next. cbn [bolt.items bolt.pos].
  rewrite (surjective_pairing (bolt.keyValue _)).
  pose proof (page_token (bolt.inodes bk) pageToken 99) as Htok.
  fold start in Htok. cbv zeta in Htok. now rewrite Htok.
Qed.

Lemma ListBuckets_bound (s : Session) (t : bolt.Tx) (path : list string)
  (pageToken : string) (bk : bolt.bucket) :
  tx s = Some t ->
  resolves t path = Some bk ->
  ListBuckets s path pageToken = ListKeys s path pageToken.
Proof.
  intros Hs Hres. unfold ListBuckets, ListKeys. run_on_bound Hs. run_on_bound Hs.
  destruct path as [| p path]; [discriminate |].
  unfold ListBuckets_fn, ListKeys_fn, bind. cbn [List.length Nat.eqb].
  rewrite (setBucket_bound s (p :: path) t t Hs), Hres.
  unfold on_bucket, reads, ret.
  destruct (ListKeys_for _ _ _ _ _) as [c ks].
  destruct (bolt.Next c) as [c2 [k v]]. reflexivity.
Qed.

Lemma ascending_NoDup (ks : list string) : ascending ks = true -> NoDup ks.
Proof.
  induction ks as [| k ks IH]; intros H; constructor.
  - intros Hin. pose proof (ascending_head k ks H) as Hhd.
    rewrite Forall_forall in Hhd. specialize (Hhd k Hin).
    now rewrite key_lt_irrefl in Hhd.
  - apply IH. now apply ascending_tail with k.
Qed.

(** A key past the first of an ascending list is not empty. *)
Lemma later_key_nonempty (l : list (string * bolt.inode bolt.bucket)) (n : nat)
  (k : string) x rest :
  ascending (keys_of l) = true ->
  skipn (S n) l = (k, x) :: rest ->
  k <> EmptyString.
Proof.
  destruct l as [| [k0 x0] l]; [discriminate |].
  intros Hasc Hn. simpl in Hn.
  apply (key_lt_nonempty k0). apply ascending_head in Hasc.
  rewrite Forall_forall in Hasc. apply Hasc.
  change k with (fst (k, x)). apply in_map.
  rewrite <- (firstn_skipn n l), Hn. apply in_or_app. right. now left.
Qed.

Section Completeness.

Variables (t : bolt.Tx) (path : list string) (bk : bolt.bucket).
Hypothesis Hres : resolves t path = Some bk.
Hypothesis Hasc : ascending (keys_of (bolt.inodes bk)) = true.

(** A token that is empty stands for the start; any other token met while
    paging is the key of the inode at some offset, and seeking it lands
    there. *)
Lemma page_start_offset (pageToken : string) (m : nat) :
  (pageToken = EmptyString /\ m = 0) \/
  (pageToken <> EmptyString /\ exists x rest, skipn m (bolt.inodes bk) = (pageToken, x) :: rest) ->
  page_start pageToken (bolt.inodes bk) = skipn m (bolt.inodes bk).
Proof.
  unfold page_start. intros [[-> ->] | [Hne [x [rest Hm]]]]; [reflexivity |].
  destruct (String.eqb_spec pageToken EmptyString) as [-> | _]; [now elim Hne |].
  now apply (seek_skipn (bolt.inodes bk) m pageToken x rest).
Qed.

Lemma List_all_from :
  forall (fuel : nat) (pageToken : string) (m : nat) (s : Session),
  tx s = Some t ->
  (pageToken = EmptyString /\ m = 0) \/
  (pageToken <> EmptyString /\ exists x rest, skipn m (bolt.inodes bk) = (pageToken, x) :: rest) ->
  List.length (skipn m (bolt.inodes bk)) < fuel ->
  List_all fuel s path pageToken =
  Some (keys_of (skipn m (bolt.inodes bk)), values_of (skipn m (bolt.inodes bk))).
Proof.
  induction fuel as [| fuel IH]; intros pageToken m s Hs Hinv Hlen; [lia |].
  cbn [List_all]. rewrite (List_bound s t path pageToken bk Hs Hres). cbv zeta.
  rewrite (page_start_offset pageToken m Hinv).
  set (r := skipn m (bolt.inodes bk)) in *.
  pose proof (firstn_skipn 100 r) as Hsplit.
  destruct (skipn 100 r) as [| [k x] r2] eqn:Hr2.
  - cbn [next_token String.eqb]. rewrite app_nil_r in Hsplit. now rewrite Hsplit.
  - cbn [next_token].
    assert (Hoff : skipn (100 + m) (bolt.inodes bk) = (k, x) :: r2)
      by (now rewrite <- skipn_skipn).
    assert (Hk : k <> EmptyString).
    { apply (later_key_nonempty (bolt.inodes bk) (99 + m) k x r2 Hasc). exact Hoff. }
    destruct (String.eqb_spec k EmptyString) as [Heq | _]; [now elim Hk |].
    rewrite (IH k (100 + m) (MkSession (store s) (Some t) None) eq_refl).
    + cbn [option_map fst snd]. rewrite Hoff. rewrite <- Hsplit at 3 4.
      unfold keys_of, values_of. now rewrite !map_app.
    + right. split; [exact Hk |]. now exists x, r2.
    + rewrite Hoff. rewrite <- Hr2, length_skipn.
      assert (List.length (skipn 100 r) = S (List.length r2)) by now rewrite Hr2.
      rewrite length_skipn in H. lia.
Qed.

Lemma ListKeys_all_List_all :
  forall (fuel : nat) (pageToken : string) (s : Session),
  tx s = Some t ->
  ListKeys_all fuel s path pageToken = option_map fst (List_all fuel s path pageToken).
Proof.
  induction fuel as [| fuel IH]; intros pageToken s Hs; [reflexivity |].
  cbn [ListKeys_all List_all].
  rewrite (ListKeys_bound s t path pageToken bk Hs Hres).
  rewrite (List_bound s t path pageToken bk Hs Hres). cbv zeta.
  destruct (String.eqb (next_token _) EmptyString); [reflexivity |].
  rewrite (IH _ (MkSession (store s) (Some t) None) eq_refl).
  now destruct (List_all fuel _ path _) as [[ks vs] |].
Qed.

Lemma ListBuckets_all_ListKeys_all :
  forall (fuel : nat) (pageToken : string) (s : Session),
  tx s = Some t ->
  ListBuckets_all fuel s path pageToken = ListKeys_all fuel s path pageToken.
Proof.
  induction fuel as [| fuel IH]; intros pageToken s Hs; [reflexivity |].
  cbn [ListBuckets_all ListKeys_all].
  rewrite (ListBuckets_bound s t path pageToken bk Hs Hres).
  rewrite (ListKeys_bound s t path pageToken bk Hs Hres). cbv zeta.
  destruct (String.eqb (next_token _) EmptyString); [reflexivity |].
  now rewrite (IH _ (MkSession (store s) (Some t) None) eq_refl).
Qed.

End Completeness.

(** Paging reaches every entry: on a bound session, for a path that
    resolves to a container whose keys are in ascending order (the order the
    engine keeps), calling [List] from an empty token and feeding each
    continuation token to the next call until the token is empty returns,
    concatenated, the keys of all the entries of the container with their
    values, each once and in ascending key order, and nothing else; so do
    [ListKeys] and [ListBuckets] for the keys.  One call more than there are
    entries is enough. *)
Theorem paging_complete :
  forall (s : Session) (t : bolt.Tx) (path : list string) (bk : bolt.bucket)
         (fuel : nat),
  tx s = Some t ->
  resolves t path = Some bk ->
  ascending (keys_of (bolt.inodes bk)) = true ->
  List.length (bolt.inodes bk) < fuel ->
  List_all fuel s path EmptyString =
    Some (keys_of (bolt.inodes bk), values_of (bolt.inodes bk)) /\
  ListKeys_all fuel s path EmptyString = Some (keys_of (bolt.inodes bk)) /\
  ListBuckets_all fuel s path EmptyString = Some (keys_of (bolt.inodes bk)) /\
  NoDup (keys_of (bolt.inodes bk)).
Proof.
  intros s t path bk fuel Hs Hres Hasc Hfuel.
  assert (HL : List_all fuel s path EmptyString =
               Some (keys_of (bolt.inodes bk), values_of (bolt.inodes bk))).
  { apply (List_all_from t path bk Hres Hasc fuel EmptyString 0 s Hs); [now left | exact Hfuel]. }
  assert (HK : ListKeys_all fuel s path EmptyString = Some (keys_of (bolt.inodes bk))).
  { now rewrite (ListKeys_all_List_all t path bk Hres fuel EmptyString s Hs), HL. }
  repeat split; trivial.
  - now rewrite (ListBuckets_all_ListKeys_all t path bk Hres fuel EmptyString s Hs).
  - now apply ascending_NoDup.
Qed.

Lemma paging_complete_witness :
  tx long_session = Some long_tx /\
  resolves long_tx ["b"] = Some long_bucket /\
  ascending (keys_of (bolt.inodes long_bucket)) = true /\
  List.length (bolt.inodes long_bucket) < 251 /\
  keys_of (bolt.inodes long_bucket) = many_keys /\
  ListKeys long_session ["b"] EmptyString =
    Return (long_session, (firstn 100 many_keys, "100", None)) /\
  ListKeys long_session ["b"] "100" =
    Return (long_session, (firstn 100 (skipn 100 many_keys), "200", None)) /\
  ListKeys long_session ["b"] "200" =
    Return (long_session, (skipn 200 many_keys, EmptyString, None)) /\
  List_all 251 long_session ["b"] EmptyString =
    Some (keys_of (bolt.inodes long_bucket), values_of (bolt.inodes long_bucket)) /\
  ListKeys_all 251 long_session ["b"] EmptyString = Some (keys_of (bolt.inodes long_bucket)) /\
  ListBuckets_all 251 long_session ["b"] EmptyString = Some (keys_of (bolt.inodes long_bucket)) /\
  NoDup (keys_of (bolt.inodes long_bucket)).
Proof.
  assert (Hlen : List.length (bolt.inodes long_bucket) < 251)
    by (apply Nat.ltb_lt; vm_compute; reflexivity).
  split; [vm_compute; reflexivity |]. split; [vm_compute; reflexivity |].
  split; [vm_compute; reflexivity |]. split; [exact Hlen |].
  split; [vm_compute; reflexivity |]. split; [vm_compute; reflexivity |].
  split; [vm_compute; reflexivity |]. split; [vm_compute; reflexivity |].
  apply (paging_complete long_session long_tx ["b"] long_bucket 251).
  - vm_compute. reflexivity.
  - vm_compute. reflexivity.
  - vm_compute. reflexivity.
  - exact Hlen.
Defined.

(** ** Further properties of the session methods *)

(** *** Lookups leave the transaction alone *)

Lemma unchanged_ret {A : Type} (a : A) : unchanged (ret a).
Proof. intros t a' t' H. now inversion H. Qed.

Lemma unchanged_panic {A : Type} (msg : string) : unchanged (@panic A msg).
Proof. intros t a t' H. discriminate H. Qed.

Lemma unchanged_reads {A : Type} (f : bolt.Tx -> A) : unchanged (reads f).
Proof. intros t a t' H. now inversion H. Qed.

Lemma unchanged_bind {A B : Type} (m : M A) (k : A -> M B) :
  unchanged m -> (forall a, unchanged (k a)) -> unchanged (bind m k).
Proof.
  intros Hm Hk t b t' H. unfold bind in H.
  destruct (m t) as [[a t1] | msg] eqn:Hmt; [| discriminate].
  rewrite <- (Hm t a t1 Hmt). exact (Hk a t1 b t' H).
Qed.

Lemma unchanged_on_bucket {A : Type} (b : option bolt.handle) (f : bolt.handle -> M A) :
  (forall h, unchanged (f h)) -> unchanged (on_bucket b f).
Proof. intros Hf. destruct b; [apply Hf | apply unchanged_panic]. Qed.

Lemma unchanged_on_s_tx {A : Type} (s : Session) (f : bolt.handle -> M A) :
  (forall h, unchanged (f h)) -> unchanged (on_s_tx s f).
Proof.
  intros Hf. unfold on_s_tx. destruct (tx s); [apply Hf | apply unchanged_panic].
Qed.

Ltac unchanged_step :=
  first
    [ apply unchanged_ret
    | apply unchanged_panic
    | apply unchanged_reads
    | apply unchanged_on_bucket; intros
    | apply unchanged_on_s_tx; intros
    | apply unchanged_bind; [| intros]
    | match goal with
      | |- unchanged (match ?x with _ => _ end) => destruct x
      | |- unchanged (if ?c then _ else _) => destruct c
      end ].

Lemma unchanged_setBucket_range (s : Session) (path : list string) :
  forall rest index b, unchanged (setBucket_range s path index b rest).
Proof.
  induction rest as [| p rest IH]; intros index b; cbn [setBucket_range].
  - repeat unchanged_step.
  - repeat unchanged_step. apply IH.
Qed.

Lemma unchanged_setBucket (s : Session) (path : list string) :
  unchanged (setBucket s path).
Proof. apply unchanged_setBucket_range. Qed.

Ltac unchanged_fn :=
  repeat first [ apply unchanged_setBucket | unchanged_step ].

Lemma run_unchanged {A : Type} (s s' : Session) (fn : M (option error * A))
  (r : option error * A) :
  unchanged fn ->
  run View s fn = Return (s', r) ->
  tx s' = tx s /\ store s' = store s.
Proof.
  intros Hfn. unfold run, DB.View, DB.Rollback.
  destruct (tx s) as [t |].
  - destruct (fn t) as [[[e a] t'] | msg] eqn:Hfnt; [| discriminate].
    intros H. inversion H; subst. cbn [tx store].
    now rewrite (Hfn t (e, a) t' Hfnt).
  - destruct (fn (DB.Begin (db (store s)) false)) as [[[e a] t'] | msg];
      [| discriminate].
    intros H. inversion H; subst. cbn [tx store]. now rewrite store_eta.
Qed.

(** The eight looking-up methods never change the transaction of the
    session nor its store, on a bound session as on an unbound one: no
    bucket is created while a path is resolved for reading. *)
Theorem lookups_change_nothing :
  forall (o : op) (s s' : Session),
  is_lookup o = true ->
  call o s = Return s' ->
  tx s' = tx s /\ store s' = store s.
Proof.
  intros o s s' Hl.
  destruct o; try discriminate Hl; unfold call, session_of;
    unfold Read, List, KeyExists, ListKeys, PrefixExists, ReadScan,
      BucketExists, ListBuckets;
    match goal with
    | |- context [run View s ?fn] =>
        destruct (run View s fn) as [[s1 r] | msg] eqn:Hr; [| discriminate];
        apply run_unchanged in Hr;
        [| unfold Read_fn, List_fn, KeyExists_fn, ListKeys_fn, PrefixExists_fn,
             ReadScan_fn, BucketExists_fn, ListBuckets_fn; unchanged_fn]
    end;
    intros H;
    repeat match goal with
      | r : (_ * _)%type |- _ => destruct r
      | r : option _ |- _ => destruct r
      | H : context [if ?c then _ else _] |- _ => destruct c
      end;
    inversion H; subst; exact Hr.
Qed.

Lemma lookups_change_nothing_witness :
  is_lookup (OpReadScan sample_path "k") = true /\
  call (OpReadScan sample_path "k") sample = Return sample /\
  tx sample = tx sample /\ store sample = store sample.
Proof.
  assert (H1 : is_lookup (OpReadScan sample_path "k") = true) by reflexivity.
  assert (H2 : call (OpReadScan sample_path "k") sample = Return sample)
    by (vm_compute; reflexivity).
  split; [exact H1 |]. split; [exact H2 |].
  exact (lookups_change_nothing (OpReadScan sample_path "k") sample sample H1 H2).
Defined.

(** *** Read sessions *)

Lemma spares_unchanged {A : Type} (m : M A) : unchanged m -> spares_read_only m.
Proof. intros Hm t a t' H _. exact (Hm t a t' H). Qed.

Lemma spares_writes {A : Type} (f : bolt.Tx -> bolt.Tx * A) :
  (forall t, bolt.writable t = false -> fst (f t) = t) ->
  spares_read_only (writes f).
Proof.
  intros Hf t a t' H Hw. unfold writes in H. specialize (Hf t Hw).
  destruct (f t) as [t1 a1]. simpl in Hf. inversion H. congruence.
Qed.

Lemma spares_bind {A B : Type} (m : M A) (k : A -> M B) :
  spares_read_only m -> (forall a, spares_read_only (k a)) ->
  spares_read_only (bind m k).
Proof.
  intros Hm Hk t b t' H Hw. unfold bind in H.
  destruct (m t) as [[a t1] | msg] eqn:Hmt; [| discriminate].
  pose proof (Hm t a t1 Hmt Hw) as ->. exact (Hk a t b t' H Hw).
Qed.

Lemma spares_on_bucket {A : Type} (b : option bolt.handle) (f : bolt.handle -> M A) :
  (forall h, spares_read_only (f h)) -> spares_read_only (on_bucket b f).
Proof.
  intros Hf. destruct b; [apply Hf | apply spares_unchanged, unchanged_panic].
Qed.

Lemma spares_on_s_tx {A : Type} (s : Session) (f : bolt.handle -> M A) :
  (forall h, spares_read_only (f h)) -> spares_read_only (on_s_tx s f).
Proof.
  intros Hf. unfold on_s_tx.
  destruct (tx s); [apply Hf | apply spares_unchanged, unchanged_panic].
Qed.

Lemma engine_refuses_read_only (t : bolt.Tx) (h : bolt.handle) (key : string)
  (value : option string) :
  bolt.writable t = false ->
  bolt.CreateBucketIfNotExists t h key = (t, (None, Some bolt.ErrTxNotWritable)) /\
  bolt.Put t h key value = (t, Some bolt.ErrTxNotWritable) /\
  bolt.Delete t h key = (t, Some bolt.ErrTxNotWritable) /\
  bolt.DeleteBucket t h key = (t, Some bolt.ErrTxNotWritable) /\
  bolt.NextSequence t h = (t, (0%N, Some bolt.ErrTxNotWritable)).
Proof.
  intros Hw.
  unfold bolt.CreateBucketIfNotExists, bolt.CreateBucket, bolt.Put, bolt.Delete,
    bolt.DeleteBucket, bolt.NextSequence.
  rewrite Hw. repeat split; reflexivity.
Qed.

Ltac spares_step :=
  first
    [ apply spares_unchanged; unchanged_fn; fail
    | apply spares_writes; intros ? Hro;
      first
        [ now rewrite (proj1 (engine_refuses_read_only _ _ _ None Hro))
        | now rewrite (proj1 (proj2 (engine_refuses_read_only _ _ _ _ Hro)))
        | now rewrite (proj1 (proj2 (proj2 (engine_refuses_read_only _ _ _ None Hro))))
        | now rewrite (proj1 (proj2 (proj2 (proj2
                         (engine_refuses_read_only _ _ _ None Hro)))))
        | now rewrite (proj2 (proj2 (proj2 (proj2
                         (engine_refuses_read_only _ _ EmptyString None Hro))))) ]
    | apply spares_on_bucket; intros
    | apply spares_on_s_tx; intros
    | apply spares_bind; [| intros]
    | match goal with
      | |- spares_read_only (match ?x with _ => _ end) => destruct x
      | |- spares_read_only (if ?c then _ else _) => destruct c
      end ].

Lemma spares_setBucketIfNotExist_range (s : Session) (path : list string) :
  forall rest index b, spares_read_only (setBucketIfNotExist_range s path index b rest).
Proof.
  induction rest as [| p rest IH]; intros index b; cbn [setBucketIfNotExist_range].
  - repeat spares_step.
  - repeat spares_step. apply IH.
Qed.

Lemma spares_setBucketIfNotExist (s : Session) (path : list string) :
  spares_read_only (setBucketIfNotExist s path).
Proof. apply spares_setBucketIfNotExist_range. Qed.

Lemma call_read_only (o : op) (s s' : Session) (t : bolt.Tx) :
  tx s = Some t ->
  bolt.writable t = false ->
  call o s = Return s' ->
  tx s' = Some t.
Proof.
  intros Hs Hw.
  assert (Hrun : forall (A : Type) (kind : txkind) (fn : M (option error * A)) s1 r,
             spares_read_only fn -> run kind s fn = Return (s1, r) -> tx s1 = Some t).
  { intros A kind fn s1 r Hfn. rewrite (run_bound kind s t fn Hs).
    destruct (fn t) as [[[e a] t1] | msg] eqn:Hfnt; [| discriminate].
    intros H. inversion H; subst. cbn [tx]. f_equal.
    exact (Hfn t (e, a) t1 Hfnt Hw). }
  destruct o; unfold call, session_of;
    unfold Read, List, KeyExists, ListKeys, PrefixExists, ReadScan, NextSeq,
      Write, DeleteKey, BucketExists, CreateBucket, DeleteBucket, ListBuckets;
    match goal with
    | |- context [run ?k s ?fn] =>
        destruct (run k s fn) as [[s1 r] | msg] eqn:Hr; [| discriminate];
        apply Hrun in Hr
    end.
  all: try (intros H;
            repeat match goal with
              | r : (_ * _)%type |- _ => destruct r
              | r : option _ |- _ => destruct r
              | H : context [if ?c then _ else _] |- _ => destruct c
              end;
            inversion H; subst; exact Hr).
  all: unfold Read_fn, List_fn, KeyExists_fn, ListKeys_fn, PrefixExists_fn,
         ReadScan_fn, NextSeq_fn, Write_fn, DeleteKey_fn, BucketExists_fn,
         CreateBucket_fn, DeleteBucket_fn, ListBuckets_fn;
       repeat first [ apply spares_setBucketIfNotExist | spares_step ].
Qed.

(** Whatever is called in a read session, its transaction stays the
    snapshot it began with, and its closer leaves the store as it was: a
    read session never writes. *)
Theorem read_session_never_writes :
  forall (st : Store) (ops : list op) (s : Session),
  calls ops (ReadSession st) = Return s ->
  tx s = Some (DB.Begin (db st) false) /\
  store s = st /\
  ReadSession_closer s = Return st.
Proof.
  intros st ops.
  assert (H : forall s0 s, tx s0 = Some (DB.Begin (db st) false) -> store s0 = st ->
              calls ops s0 = Return s ->
              tx s = Some (DB.Begin (db st) false) /\ store s = st).
  { induction ops as [| o ops IH]; intros s0 s Ht Hst Hc; simpl in Hc.
    - inversion Hc; subst. now split.
    - destruct (call o s0) as [s1 | msg] eqn:Ho; [| discriminate].
      apply (IH s1 s); [| | exact Hc].
      + exact (call_read_only o s0 s1 _ Ht eq_refl Ho).
      + destruct (call_bound o s0 s1 _ Ht Ho) as [Hs1 _]. congruence. }
  intros s Hc. destruct (H (ReadSession st) s eq_refl eq_refl Hc) as [Ht Hst].
  repeat split; trivial.
  unfold ReadSession_closer, DB.Rollback. rewrite Ht, Hst. now rewrite store_eta.
Qed.

Lemma read_session_never_writes_witness :
  let ops := [OpWrite ["t"] "k" (Some "v"); OpDeleteKey sample_path "k1a";
              OpDeleteBucket ["l1a"]; OpNextSeq ["l1a"]; OpCreateBucket ["n"]] in
  exists s,
    calls ops (ReadSession tested_store) = Return s /\
    tx s = Some (DB.Begin (db tested_store) false) /\
    store s = tested_store /\
    ReadSession_closer s = Return tested_store.
Proof.
  intros ops.
  exists (session_after ops (ReadSession tested_store)).
  assert (Hc : calls ops (ReadSession tested_store) =
               Return (session_after ops (ReadSession tested_store)))
    by (vm_compute; reflexivity).
  split; [exact Hc |].
  exact (read_session_never_writes tested_store ops _ Hc).
Defined.

(** *** Creating resolution *)

Lemma len_zero (p : string) : (bolt.len p =? 0)%N = true <-> p = EmptyString.
Proof.
  unfold bolt.len. destruct p as [| a p]; simpl; split; try reflexivity; discriminate.
Qed.

Lemma len_nonzero (p : string) : p <> EmptyString -> (bolt.len p =? 0)%N = false.
Proof.
  intros Hp. destruct (bolt.len p =? 0)%N eqn:E; [| reflexivity].
  elim Hp. now apply len_zero.
Qed.

Lemma bucket_at_empty (r : bolt.handle) :
  match bolt.bucket_at r bolt.empty with
  | Some c => c
  | None => bolt.empty
  end = bolt.empty.
Proof. now destruct r. Qed.

Lemma child_find (name : string) (b : bolt.bucket) :
  bolt.child name b =
  match bolt.find name (bolt.inodes b) with
  | Some (bolt.Sub c) => Some c
  | _ => None
  end.
Proof. reflexivity. Qed.

(** One step of creating resolution that succeeds. *)
Lemma CreateBucketIfNotExists_spec (t t' : bolt.Tx) (h : bolt.handle) (p : string)
  (bk : bolt.bucket) (b' : option bolt.handle) :
  bolt.bucket_at h (bolt.root t) = Some bk ->
  bolt.CreateBucketIfNotExists t h p = (t', (b', None)) ->
  bolt.writable t = true /\ p <> EmptyString /\ b' = Some (h ++ [p]) /\
  bolt.writable t' = true /\
  bolt.bucket_at (h ++ [p]) (bolt.root t') =
    Some (match bolt.child p bk with Some c => c | None => bolt.empty end) /\
  (bolt.child p bk <> None -> t' = t).
Proof.
  intros Hh. unfold bolt.CreateBucketIfNotExists, bolt.CreateBucket, bolt.Bucket.
  destruct (bolt.writable t) eqn:Hw; [| simpl; discriminate]. cbn [negb].
  destruct (bolt.len p =? 0)%N eqn:Hlen; [simpl; discriminate |].
  assert (Hp : p <> EmptyString).
  { intros ->. discriminate Hlen. }
  rewrite (deref_at t h bk Hh), child_find.
  destruct (bolt.find p (bolt.inodes bk)) as [[v | c] |] eqn:Hf.
  - simpl. discriminate.
  - simpl. rewrite (deref_at t h bk Hh), Hf. intros H. inversion H; subst.
    repeat split; trivial.
    rewrite bucket_at_app, Hh. simpl. unfold bolt.child. now rewrite Hf.
  - intros H. inversion H; subst. repeat split; trivial.
    + rewrite bucket_at_app, (deref_update t h _ bk Hh). simpl.
      now rewrite child_put_sub.
    + intros Hne. now elim Hne.
Qed.

Lemma setBucketIfNotExist_range_spec (s : Session) (path : list string) :
  forall rest h index bk t b t',
  index <> 0 ->
  bolt.bucket_at h (bolt.root t) = Some bk ->
  setBucketIfNotExist_range s path index (Some h) rest t = Return ((b, None), t') ->
  b = Some (h ++ rest) /\
  (rest <> [] -> bolt.writable t = true) /\
  bolt.writable t' = bolt.writable t /\
  Forall (fun p => p <> EmptyString) rest /\
  bolt.bucket_at (h ++ rest) (bolt.root t') =
    Some (match bolt.bucket_at rest bk with Some c => c | None => bolt.empty end) /\
  (bolt.bucket_at rest bk <> None -> t' = t).
Proof.
  induction rest as [| p rest IH]; intros h index bk t b t' Hi Hh H.
  - simpl in H. inversion H; subst. rewrite app_nil_r. simpl.
    repeat split; trivial. intros Hne. now elim Hne.
  - simpl in H. destruct (Nat.eqb_spec index 0) as [-> | _]; [now elim Hi |].
    unfold bind, on_bucket, writes in H.
    destruct (bolt.CreateBucketIfNotExists t h p) as [t1 [b1 [e1 |]]] eqn:Hc;
      [discriminate |].
    destruct (CreateBucketIfNotExists_spec t t1 h p bk b1 Hh Hc)
      as [Hw [Hp [-> [Hw1 [Hat Hsame]]]]].
    cbv beta iota in H.
    destruct (IH (h ++ [p]) (S index) _ t1 b t' (Nat.neq_succ_0 index) Hat H)
      as [Hb [_ [Hw' [Hall [Hat' Hsame']]]]].
    rewrite <- app_assoc in Hb, Hat'. cbn [app] in Hb, Hat'.
    split; [exact Hb |]. split; [intros _; exact Hw |].
    split; [congruence |]. split; [now constructor |].
    cbn [bolt.bucket_at].
    destruct (bolt.child p bk) as [c |] eqn:Hchild.
    + split; [exact Hat' |]. intros Hne.
      rewrite (Hsame' Hne). apply Hsame. discriminate.
    + rewrite bucket_at_empty in Hat'. split; [exact Hat' |].
      intros Hne. now elim Hne.
Qed.

(** Creating resolution that succeeds on a bound session: the transaction
    is writable, no segment is empty, the path then names a bucket, which is
    the one it named before or a new, empty one; and a path that already
    resolved leaves the transaction as it was. *)
Lemma setBucketIfNotExist_spec (s : Session) (path : list string)
  (t0 t t' : bolt.Tx) (b : option bolt.handle) :
  tx s = Some t0 ->
  setBucketIfNotExist s path t = Return ((b, None), t') ->
  b = Some path /\
  bolt.writable t = true /\ bolt.writable t' = true /\
  Forall (fun p => p <> EmptyString) path /\
  resolves t' path =
    Some (match resolves t path with Some c => c | None => bolt.empty end) /\
  (resolves t path <> None -> t' = t).
Proof.
  intros Hs H.
  destruct path as [| p rest]; [discriminate |].
  unfold setBucketIfNotExist in H. cbn [setBucketIfNotExist_range Nat.eqb] in H.
  unfold bind, on_s_tx in H. rewrite Hs in H. unfold writes in H.
  destruct (bolt.CreateBucketIfNotExists t [] p) as [t1 [b1 [e1 |]]] eqn:Hc;
    [discriminate |].
  destruct (CreateBucketIfNotExists_spec t t1 [] p (bolt.root t) b1 eq_refl Hc)
    as [Hw [Hp [-> [Hw1 [Hat Hsame]]]]].
  cbv beta iota in H. cbn [app] in Hat, H.
  destruct (setBucketIfNotExist_range_spec s (p :: rest) rest [p] 1 _ t1 b t'
              (Nat.neq_succ_0 0) Hat H)
    as [Hb [_ [Hw' [Hall [Hat' Hsame']]]]].
  cbn [app] in Hb, Hat'. unfold resolves. cbn [bolt.bucket_at].
  split; [exact Hb |]. split; [exact Hw |]. split; [congruence |].
  split; [now constructor |].
  destruct (bolt.child p (bolt.root t)) as [c |] eqn:Hchild.
  - split; [exact Hat' |]. intros Hne.
    rewrite (Hsame' Hne). apply Hsame. discriminate.
  - rewrite bucket_at_empty in Hat'. split; [exact Hat' |].
    intros Hne. now elim Hne.
Qed.

Lemma setBucketIfNotExist_range_resolved (s : Session) (path : list string)
  (t : bolt.Tx) :
  bolt.writable t = true ->
  forall rest h index bk c,
  index <> 0 ->
  bolt.bucket_at h (bolt.root t) = Some bk ->
  Forall (fun p => p <> EmptyString) rest ->
  bolt.bucket_at rest bk = Some c ->
  setBucketIfNotExist_range s path index (Some h) rest t =
  Return ((Some (h ++ rest), None), t).
Proof.
  intros Hw. induction rest as [| p rest IH]; intros h index bk c Hi Hh Hall Hat.
  - simpl. now rewrite app_nil_r.
  - inversion Hall as [| ? ? Hp Hrest]; subst.
    simpl in Hat. rewrite child_find in Hat.
    destruct (bolt.find p (bolt.inodes bk)) as [[v | c1] |] eqn:Hf; try discriminate.
    simpl. destruct (Nat.eqb_spec index 0) as [-> | _]; [now elim Hi |].
    unfold bind, on_bucket, writes, bolt.CreateBucketIfNotExists, bolt.CreateBucket,
      bolt.Bucket.
    rewrite Hw, (len_nonzero p Hp), (deref_at t h bk Hh), Hf. simpl.
    rewrite (deref_at t h bk Hh), Hf.
    assert (Hh' : bolt.bucket_at (h ++ [p]) (bolt.root t) = Some c1).
    { rewrite bucket_at_app, Hh. simpl. rewrite child_find. now rewrite Hf. }
    pose proof (IH (h ++ [p]) (S index) c1 c (Nat.neq_succ_0 index) Hh' Hrest Hat)
      as HIH.
    rewrite <- app_assoc in HIH. exact HIH.
Qed.

(** Creating resolution of a path that resolves, on a writable
    transaction: nothing is created. *)
Lemma setBucketIfNotExist_resolved (s : Session) (path : list string)
  (t0 t : bolt.Tx) (c : bolt.bucket) :
  tx s = Some t0 ->
  bolt.writable t = true ->
  Forall (fun p => p <> EmptyString) path ->
  resolves t path = Some c ->
  setBucketIfNotExist s path t = Return ((Some path, None), t).
Proof.
  intros Hs Hw Hall Hres. destruct path as [| p rest]; [discriminate |].
  unfold setBucketIfNotExist. unfold resolves in Hres.
  inversion Hall as [| ? ? Hp Hrest]; subst.
  simpl in Hres. rewrite child_find in Hres.
  destruct (bolt.find p (bolt.inodes (bolt.root t))) as [[v | c1] |] eqn:Hf;
    try discriminate.
  cbn [setBucketIfNotExist_range Nat.eqb].
  unfold bind, on_s_tx. rewrite Hs.
  unfold writes, bolt.CreateBucketIfNotExists, bolt.CreateBucket, bolt.Bucket.
  rewrite Hw, (len_nonzero p Hp). unfold bolt.deref. cbn [bolt.bucket_at negb].
  rewrite Hf. simpl. rewrite Hf.
  apply (setBucketIfNotExist_range_resolved s (p :: rest) t Hw rest [p] 1 c1 c);
    trivial.
  - discriminate.
  - simpl. rewrite child_find. now rewrite Hf.
Qed.

(** *** Lookups by key and the two predicates *)

(** [Read] on a bound session: a wrapped [ErrPathNotFound] when the path
    does not resolve, a wrapped [ErrKeyNotFound] when the bucket has no
    value under the key (the key is absent or names a nested bucket), the
    value and a nil error otherwise; the error is also the session
    error. *)
Theorem Read_outcomes :
  forall (s : Session) (t : bolt.Tx) (path : list string) (key : string),
  tx s = Some t ->
  exists (r : option string) (e : option error),
    Read s path key = Return (MkSession (store s) (Some t) e, (r, e)) /\
    match resolves t path with
    | None =>
        r = None /\ e = Some (Wrapf ErrPathNotFound "path [%s]" [ArgPath path])
    | Some bk =>
        match bolt.find key (bolt.inodes bk) with
        | Some (bolt.Value (Some v)) => r = Some v /\ e = None
        | _ => r = None /\ e = Some (Wrapf ErrKeyNotFound "key [%s]" [ArgStr key])
        end
    end /\
    (r = None <-> e <> None) /\
    (forall e', e = Some e' ->
       Is e' ErrPathNotFound = true \/ Is e' ErrKeyNotFound = true).
Proof.
  intros s t path key Hs. unfold Read. run_on_bound Hs. unfold Read_fn, bind.
  rewrite (setBucket_bound s path t t Hs).
  destruct (resolves t path) as [bk |] eqn:Hres.
  - unfold on_bucket, reads, bolt.Get.
    rewrite (deref_at t path bk (resolves_at t path bk Hres)).
    destruct (bolt.find key (bolt.inodes bk)) as [[[v |] | c] |];
      do 2 eexists; (split; [reflexivity |]); (split; [now split |]);
      (split; [split; intros H; try discriminate; try (now elim H); congruence |]);
      intros e' He; inversion He; subst; right;
      unfold ErrKeyNotFound; now rewrite Is_Wrapf.
  - do 2 eexists. split; [reflexivity |]. split; [now split |].
    split; [split; intros H; [discriminate | reflexivity] |].
    intros e' He. inversion He; subst. left.
    unfold ErrPathNotFound. now rewrite Is_Wrapf.
Qed.

Lemma Read_outcomes_witness :
  tx sample = Some sample_tx /\
  exists (r : option string) (e : option error),
    Read sample sample_path "k9" =
      Return (MkSession (store sample) (Some sample_tx) e, (r, e)) /\
    match resolves sample_tx sample_path with
    | None =>
        r = None /\
        e = Some (Wrapf ErrPathNotFound "path [%s]" [ArgPath sample_path])
    | Some bk =>
        match bolt.find "k9" (bolt.inodes bk) with
        | Some (bolt.Value (Some v)) => r = Some v /\ e = None
        | _ => r = None /\ e = Some (Wrapf ErrKeyNotFound "key [%s]" [ArgStr "k9"])
        end
    end /\
    (r = None <-> e <> None) /\
    (forall e', e = Some e' ->
       Is e' ErrPathNotFound = true \/ Is e' ErrKeyNotFound = true).
Proof.
  assert (Hs : tx sample = Some sample_tx) by (vm_compute; reflexivity).
  split; [exact Hs |].
  exact (Read_outcomes sample sample_tx sample_path "k9" Hs).
Defined.

Lemma BucketExists_bound (s : Session) (t : bolt.Tx) (path : list string) :
  tx s = Some t ->
  BucketExists s path =
  Return (MkSession (store s) (Some t)
            (match resolves t path with
             | Some _ => None
             | None => PathNotFound path
             end),
          match resolves t path with
          | Some _ => true
          | None => false
          end).
Proof.
  intros Hs. unfold BucketExists. run_on_bound Hs. unfold BucketExists_fn, bind.
  rewrite (setBucket_bound s path t t Hs).
  destruct (resolves t path); [reflexivity |].
  unfold ret, PathNotFound, ErrPathNotFound. rewrite Is_Wrapf. reflexivity.
Qed.

(** [BucketExists] on a bound session is true exactly when the path is a
    non-empty chain of nested buckets from the root; otherwise (a missing
    segment, a segment that is a plain key, an empty path) it is false and
    the session error is set to a path-not-found error. *)
Theorem BucketExists_resolves :
  forall (s : Session) (t : bolt.Tx) (path : list string),
  tx s = Some t ->
  BucketExists s path =
  Return (MkSession (store s) (Some t)
            (match resolves t path with
             | Some _ => None
             | None => PathNotFound path
             end),
          match resolves t path with
          | Some _ => true
          | None => false
          end) /\
  (forall parent name v rest,
     path = parent ++ name :: rest ->
     (exists bk, bolt.bucket_at parent (bolt.root t) = Some bk /\
                 bolt.find name (bolt.inodes bk) = Some (bolt.Value v)) ->
     resolves t path = None).
Proof.
  intros s t path Hs. split.
  - exact (BucketExists_bound s t path Hs).
  - intros parent name v rest -> [bk [Hat Hf]]. unfold resolves.
    destruct (parent ++ name :: rest) eqn:E; [reflexivity |]. rewrite <- E.
    rewrite bucket_at_app, Hat. simpl. rewrite child_find. now rewrite Hf.
Qed.

Lemma BucketExists_resolves_witness :
  tx sample = Some sample_tx /\
  BucketExists sample ["l1a"; "l2a"; "l3a"; "k1a"] =
    Return (MkSession (store sample) (Some sample_tx)
              (PathNotFound ["l1a"; "l2a"; "l3a"; "k1a"]), false) /\
  BucketExists sample sample_path = Return (sample, true).
Proof.
  assert (Hs : tx sample = Some sample_tx) by (vm_compute; reflexivity).
  split; [exact Hs |].
  split.
  - exact (proj1 (BucketExists_resolves sample sample_tx
                    ["l1a"; "l2a"; "l3a"; "k1a"] Hs)).
  - exact (proj1 (BucketExists_resolves sample sample_tx sample_path Hs)).
Defined.

(** On a bound session [KeyExists] answers true exactly when [Read] of the
    same path and key returns a value with no error, and both leave the
    session with the same transaction. *)
Theorem KeyExists_agrees_with_Read :
  forall (s : Session) (t : bolt.Tx) (path : list string) (key : string),
  tx s = Some t ->
  exists (b : bool) (r : option string) (e e' : option error),
    KeyExists s path key = Return (MkSession (store s) (Some t) e', b) /\
    Read s path key = Return (MkSession (store s) (Some t) e, (r, e)) /\
    (b = true <-> e = None) /\
    (b = true <-> e' = None) /\
    (b = true <-> exists v, r = Some v).
Proof.
  intros s t path key Hs. unfold KeyExists, Read.
  run_on_bound Hs. run_on_bound Hs.
  unfold KeyExists_fn, Read_fn, bind.
  rewrite (setBucket_bound s path t t Hs).
  destruct (resolves t path) as [bk |].
  - unfold on_bucket, reads.
    destruct (bolt.Get t path key) as [v |]; do 4 eexists;
      (split; [reflexivity |]); (split; [reflexivity |]);
      repeat split; try discriminate; try reflexivity; eauto.
    intros [v Hv]. discriminate Hv.
  - do 4 eexists. split; [reflexivity |]. split; [reflexivity |].
    repeat split; try discriminate. intros [v Hv]. discriminate Hv.
Qed.

Lemma KeyExists_agrees_with_Read_witness :
  tx sample = Some sample_tx /\
  exists (b : bool) (r : option string) (e e' : option error),
    KeyExists sample sample_path "k2a" =
      Return (MkSession (store sample) (Some sample_tx) e', b) /\
    Read sample sample_path "k2a" =
      Return (MkSession (store sample) (Some sample_tx) e, (r, e)) /\
    (b = true <-> e = None) /\
    (b = true <-> e' = None) /\
    (b = true <-> exists v, r = Some v).
Proof.
  assert (Hs : tx sample = Some sample_tx) by (vm_compute; reflexivity).
  split; [exact Hs |].
  exact (KeyExists_agrees_with_Read sample sample_tx sample_path "k2a" Hs).
Defined.

(** *** Creating buckets *)

Lemma CreateBucket_inv (s s1 : Session) (t : bolt.Tx) (path : list string) :
  tx s = Some t ->
  CreateBucket s path = Return (s1, None) ->
  exists t1,
    s1 = MkSession (store s) (Some t1) None /\
    setBucketIfNotExist s path t = Return ((Some path, None), t1).
Proof.
  intros Hs. unfold CreateBucket. run_on_bound Hs. unfold CreateBucket_fn, bind.
  destruct (setBucketIfNotExist s path t) as [[[b [e |]] t1] | msg] eqn:Hset;
    try discriminate.
  destruct (setBucketIfNotExist_spec s path t t t1 b Hs Hset) as [-> _].
  intros H. inversion H; subst. now exists t1.
Qed.

(** After [CreateBucket] returns nil on a bound session the path exists:
    [BucketExists] is true; the buckets that were missing are new and
    empty, a path that already resolved is left untouched; and calling
    [CreateBucket] again returns nil and changes nothing. *)
Theorem CreateBucket_then_exists :
  forall (s s1 : Session) (t : bolt.Tx) (path : list string),
  tx s = Some t ->
  CreateBucket s path = Return (s1, None) ->
  BucketExists s1 path = Return (s1, true) /\
  CreateBucket s1 path = Return (s1, None) /\
  (exists t1, tx s1 = Some t1 /\
     resolves t1 path =
       Some (match resolves t path with Some bk => bk | None => bolt.empty end)) /\
  (resolves t path <> None -> tx s1 = Some t).
Proof.
  intros s s1 t path Hs Hc.
  destruct (CreateBucket_inv s s1 t path Hs Hc) as [t1 [-> Hset]].
  destruct (setBucketIfNotExist_spec s path t t t1 _ Hs Hset)
    as [_ [Hw [Hw1 [Hall [Hres Hsame]]]]].
  repeat split.
  - rewrite (BucketExists_bound (MkSession (store s) (Some t1) None) t1 path eq_refl).
    rewrite Hres. reflexivity.
  - unfold CreateBucket.
    rewrite (run_bound Update (MkSession (store s) (Some t1) None) t1 _ eq_refl).
    unfold CreateBucket_fn, bind.
    rewrite (setBucketIfNotExist_resolved (MkSession (store s) (Some t1) None)
               path t1 t1 _ eq_refl Hw1 Hall Hres).
    reflexivity.
  - exists t1. now split.
  - intros Hne. cbn [tx]. now rewrite (Hsame Hne).
Qed.

Lemma CreateBucket_then_exists_witness :
  let s := WriteSession tested_store in
  let s1 := session_after [OpCreateBucket ["l1a"; "new"; "deep"]] s in
  tx s = Some (DB.Begin (db tested_store) true) /\
  CreateBucket s ["l1a"; "new"; "deep"] = Return (s1, None) /\
  BucketExists s1 ["l1a"; "new"; "deep"] = Return (s1, true) /\
  CreateBucket s1 ["l1a"; "new"; "deep"] = Return (s1, None).
Proof.
  intros s s1.
  assert (Hc : CreateBucket s ["l1a"; "new"; "deep"] = Return (s1, None))
    by (vm_compute; reflexivity).
  split; [reflexivity |]. split; [exact Hc |].
  destruct (CreateBucket_then_exists s s1 (DB.Begin (db tested_store) true)
              ["l1a"; "new"; "deep"] eq_refl Hc) as [H1 [H2 _]].
  now split.
Defined.

(** *** Writing under a path *)

Lemma find_put_other {V : Type} (key key' : string) (x : V) (l : list (string * V)) :
  key' <> key -> bolt.find key' (bolt.put key x l) = bolt.find key' l.
Proof.
  intros Hne. unfold bolt.find.
  assert (Hneb : String.eqb key' key = false) by now apply String.eqb_neq.
  induction l as [| [k0 y] l IH]; simpl.
  - destruct (bolt.key_lt key key'); [reflexivity | now rewrite Hneb].
  - destruct (bolt.key_lt k0 key) eqn:H0; simpl.
    + destruct (bolt.key_lt k0 key'); [exact IH | reflexivity].
    + destruct (String.eqb_spec key k0) as [<- | Hk0]; simpl.
      * destruct (bolt.key_lt key key'); [reflexivity | now rewrite Hneb].
      * destruct (bolt.key_lt key key') eqn:H1; [reflexivity |].
        rewrite Hneb.
        assert (Hlt : bolt.key_lt key' key = true).
        { destruct (bolt.key_lt key' key) eqn:H2; [reflexivity |].
          elim Hne. now apply key_lt_total. }
        assert (Hlt0 : bolt.key_lt key k0 = true).
        { destruct (bolt.key_lt key k0) eqn:H2; [reflexivity |].
          elim Hk0. now apply key_lt_total. }
        pose proof (key_lt_trans _ _ _ Hlt Hlt0) as Hlt'.
        rewrite (key_lt_asym _ _ Hlt').
        destruct (String.eqb_spec key' k0) as [-> | _]; [| reflexivity].
        now rewrite key_lt_irrefl in Hlt'.
Qed.

(** [Write] on a bound session is creating resolution followed by [Put]
    on the bucket of the path. *)
Lemma Write_inv (s s1 : Session) (t : bolt.Tx) (path : list string) (key : string)
  (value : option string) (e : option error) :
  tx s = Some t ->
  Write s path key value = Return (s1, e) ->
  (exists b e0 t1, setBucketIfNotExist s path t = Return ((b, Some e0), t1) /\
                   s1 = MkSession (store s) (Some t1) e /\
                 e = Some (Wrapf e0 "bucket [%s]" [ArgPath path])) \/
  (exists t1, setBucketIfNotExist s path t = Return ((Some path, None), t1) /\
              s1 = MkSession (store s) (Some (fst (bolt.Put t1 path key value))) e /\
              e = Wrapf_opt (snd (bolt.Put t1 path key value)) "createHandler" []).
Proof.
  intros Hs. unfold Write. run_on_bound Hs. unfold Write_fn, bind.
  destruct (setBucketIfNotExist s path t) as [[[b [e0 |]] t1] | msg] eqn:Hset;
    try discriminate.
  - intros H. inversion H; subst. left. exists b, e0, t1.
    repeat split; reflexivity.
  - destruct (setBucketIfNotExist_spec s path t t t1 b Hs Hset) as [-> _].
    unfold on_bucket, writes.
    destruct (bolt.Put t1 path key value) as [t2 [e2 |]] eqn:HP;
      intros H; inversion H; subst; right; exists t1; rewrite HP;
      repeat split; reflexivity.
Qed.

(** A [Write] that the engine refuses after the path was resolved (an
    empty key, a key too long, a key that names a nested bucket) returns the
    engine's error, and the buckets it created for the path stay in the
    transaction: the session is left as [CreateBucket] of the path leaves
    it, but for the session error. *)
Theorem Write_refused_keeps_buckets :
  forall (s s1 : Session) (t t1 : bolt.Tx) (path : list string) (key : string)
         (value : option string) (bk : bolt.bucket),
  tx s = Some t ->
  CreateBucket s path = Return (s1, None) ->
  tx s1 = Some t1 ->
  resolves t1 path = Some bk ->
  key = EmptyString \/ (bolt.MaxKeySize < bolt.len key)%N \/
  (exists c, bolt.find key (bolt.inodes bk) = Some (bolt.Sub c)) ->
  exists e,
    Write s path key value = Return (MkSession (store s) (Some t1) (Some e), Some e) /\
    (key = EmptyString -> Is e bolt.ErrKeyRequired = true) /\
    (key <> EmptyString -> (bolt.MaxKeySize < bolt.len key)%N ->
     Is e bolt.ErrKeyTooLarge = true) /\
    (key <> EmptyString -> (bolt.len key <= bolt.MaxKeySize)%N ->
     (bolt.len (bytes_of value) <= bolt.MaxValueSize)%N ->
     Is e bolt.ErrIncompatibleValue = true).
Proof.
  intros s s1 t t1 path key value bk Hs Hc Hs1 Hres Hcase.
  destruct (CreateBucket_inv s s1 t path Hs Hc) as [t1' [-> Hset]].
  cbn [tx] in Hs1. inversion Hs1; subst t1'.
  destruct (setBucketIfNotExist_spec s path t t t1 _ Hs Hset)
    as [_ [_ [Hw1 _]]].
  unfold Write. run_on_bound Hs. unfold Write_fn, bind. rewrite Hset.
  unfold on_bucket, writes, bolt.Put. rewrite Hw1. cbn [negb].
  rewrite (deref_at t1 path bk (resolves_at t1 path bk Hres)).
  destruct (bolt.len key =? 0)%N eqn:Hlen.
  - apply len_zero in Hlen. subst key. eexists. split; [reflexivity |].
    split; [intros _; reflexivity |].
    split; intros Hk; now elim Hk.
  - assert (Hk : key <> EmptyString) by (intros ->; discriminate Hlen).
    destruct (bolt.MaxKeySize <? bolt.len key)%N eqn:Hmax.
    + eexists. split; [reflexivity |]. apply N.ltb_lt in Hmax.
      split; [intros Hk'; now elim Hk |].
      split; [intros _ _; reflexivity | intros _ Hle; lia].
    + apply N.ltb_ge in Hmax.
      destruct Hcase as [-> | [Hlt | [c Hf]]]; [now elim Hk | lia |].
      destruct (bolt.MaxValueSize <? _)%N eqn:Hv.
      * eexists. split; [reflexivity |].
        split; [intros Hk'; now elim Hk |].
        split; [intros _ Hlt; lia |].
        intros _ _ Hle. apply N.ltb_lt in Hv.
        destruct value; unfold bytes_of, bolt.len in *; simpl in *; lia.
      * rewrite Hf. eexists. split; [reflexivity |].
        split; [intros Hk'; now elim Hk |].
        split; [intros _ Hlt; lia | intros _ _ _; reflexivity].
Qed.

Lemma Write_refused_keeps_buckets_witness :
  let s := WriteSession emptyStore in
  let s1 := session_after [OpCreateBucket ["a"; "b"]] s in
  exists e,
    Write s ["a"; "b"] EmptyString (Some "v") =
      Return (MkSession (store s) (tx s1) (Some e), Some e) /\
    Is e bolt.ErrKeyRequired = true.
Proof.
  intros s s1.
  assert (Hc : CreateBucket s ["a"; "b"] = Return (s1, None))
    by (vm_compute; reflexivity).
  destruct (Write_refused_keeps_buckets s s1 (DB.Begin (db emptyStore) true)
              (tx_of s1) ["a"; "b"] EmptyString (Some "v") bolt.empty
              eq_refl Hc eq_refl eq_refl (or_introl eq_refl)) as [e [HW [He _]]].
  exists e. split; [exact HW | exact (He eq_refl)].
Defined.

Lemma Read_stored (s : Session) (t : bolt.Tx) (path : list string) (key : string) :
  tx s = Some t ->
  option_map fst (result_of (Read s path key)) = Some (stored t path key).
Proof.
  intros Hs. unfold Read, stored. run_on_bound Hs. unfold Read_fn, bind.
  rewrite (setBucket_bound s path t t Hs).
  destruct (resolves t path) as [bk |] eqn:Hres; [| reflexivity].
  unfold on_bucket, reads, bolt.Get.
  rewrite (deref_at t path bk (resolves_at t path bk Hres)).
  now destruct (bolt.find key (bolt.inodes bk)) as [[[v |] | c] |].
Qed.

Lemma Put_ok (t t2 : bolt.Tx) (h : bolt.handle) (key : string)
  (value : option string) (c : bolt.bucket) :
  bolt.bucket_at h (bolt.root t) = Some c ->
  bolt.Put t h key value = (t2, None) ->
  bolt.bucket_at h (bolt.root t2) =
    Some (bolt.MkBucket (bolt.sequence c)
            (bolt.put key (bolt.Value value) (bolt.inodes c))) /\
  bolt.writable t2 = bolt.writable t.
Proof.
  intros Hat. unfold bolt.Put.
  destruct (negb (bolt.writable t)); [discriminate |].
  destruct (bolt.len key =? 0)%N; [discriminate |].
  destruct (bolt.MaxKeySize <? bolt.len key)%N; [discriminate |].
  destruct (bolt.MaxValueSize <? _)%N; [discriminate |].
  rewrite (deref_at t h c Hat).
  destruct (bolt.find key (bolt.inodes c)) as [[v | c'] |]; try discriminate;
    intros H; inversion H; subst; split; try reflexivity;
    exact (deref_update t h
             (fun bk => bolt.MkBucket (bolt.sequence bk)
                          (bolt.put key (bolt.Value value) (bolt.inodes bk)))
             c Hat).
Qed.

(** A [Write] that returns nil, in full: the bucket of the path holds what
    it held before (nothing, if the path did not resolve) with the value put
    under the key. *)
Lemma Write_spec (s s1 : Session) (t : bolt.Tx) (path : list string) (key : string)
  (value : option string) :
  tx s = Some t ->
  Write s path key value = Return (s1, None) ->
  exists t1 c,
    s1 = MkSession (store s) (Some t1) None /\
    bolt.writable t1 = true /\
    Forall (fun p => p <> EmptyString) path /\
    c = match resolves t path with Some bk => bk | None => bolt.empty end /\
    resolves t1 path =
      Some (bolt.MkBucket (bolt.sequence c)
              (bolt.put key (bolt.Value value) (bolt.inodes c))).
Proof.
  intros Hs Hw.
  destruct (Write_inv s s1 t path key value None Hs Hw)
    as [[b [e0 [t1 [_ [_ He]]]]] | [t1 [Hset [-> He]]]]; [discriminate |].
  destruct (setBucketIfNotExist_spec s path t t t1 _ Hs Hset)
    as [_ [_ [Hw1 [Hall [Hres _]]]]].
  destruct (bolt.Put t1 path key value) as [t2 [e2 |]] eqn:HP; [discriminate |].
  destruct (Put_ok t1 t2 path key value _ (resolves_at t1 path _ Hres) HP)
    as [Hat Hw2].
  exists t2, (match resolves t path with Some bk => bk | None => bolt.empty end).
  repeat split; trivial; [congruence |].
  destruct path; [discriminate | exact Hat].
Qed.

(** A [Write] that returns nil changes, in the container of the path, the
    key it writes and no other: [Read] of any other key of that path returns
    afterwards the value it returned before (nil if it found none), and a
    second [Write] under the same key replaces the value. *)
Theorem Write_touches_one_key :
  forall (s s1 : Session) (t : bolt.Tx) (path : list string) (key : string)
         (value : option string),
  tx s = Some t ->
  Write s path key value = Return (s1, None) ->
  (forall key', key' <> key ->
     option_map fst (result_of (Read s1 path key')) =
     option_map fst (result_of (Read s path key'))) /\
  option_map fst (result_of (Read s1 path key)) = Some value /\
  (forall value' s2,
     Write s1 path key value' = Return (s2, None) ->
     option_map fst (result_of (Read s2 path key)) = Some value').
Proof.
  intros s s1 t path key value Hs Hw.
  destruct (Write_spec s s1 t path key value Hs Hw)
    as [t1 [c [-> [Hw1 [Hall [Hc Hres]]]]]].
  assert (Hread : forall key',
             option_map fst
               (result_of (Read (MkSession (store s) (Some t1) None) path key')) =
             Some (match bolt.find key'
                           (bolt.put key (bolt.Value value) (bolt.inodes c)) with
                   | Some (bolt.Value v) => v
                   | _ => None
                   end)).
  { intros key'.
    rewrite (Read_stored (MkSession (store s) (Some t1) None) t1 path key' eq_refl).
    unfold stored. now rewrite Hres. }
  split; [| split].
  - intros key' Hne. rewrite Hread, (Read_stored s t path key' Hs).
    rewrite (find_put_other key key' _ _ Hne). unfold stored. subst c.
    destruct (resolves t path); [reflexivity |]. reflexivity.
  - rewrite Hread. now rewrite find_put.
  - intros value' s2 Hw2.
    destruct (Write_spec (MkSession (store s) (Some t1) None) s2 t1 path key value'
                eq_refl Hw2)
      as [t2 [c2 [-> [_ [_ [_ Hres2]]]]]].
    cbn [store].
    rewrite (Read_stored (MkSession (store s) (Some t2) None) t2 path key eq_refl).
    unfold stored.
    rewrite Hres2. cbn [bolt.inodes]. now rewrite find_put.
Qed.

Lemma Write_touches_one_key_witness :
  let s1 := session_after [OpWrite sample_path "k2a" (Some "new")] sample in
  tx sample = Some sample_tx /\
  Write sample sample_path "k2a" (Some "new") = Return (s1, None) /\
  option_map fst (result_of (Read s1 sample_path "k1a")) =
  option_map fst (result_of (Read sample sample_path "k1a")) /\
  option_map fst (result_of (Read s1 sample_path "k2a")) = Some (Some "new").
Proof.
  intros s1.
  assert (Hs : tx sample = Some sample_tx) by (vm_compute; reflexivity).
  assert (Hw : Write sample sample_path "k2a" (Some "new") = Return (s1, None))
    by (vm_compute; reflexivity).
  destruct (Write_touches_one_key sample s1 sample_tx sample_path "k2a" (Some "new")
              Hs Hw) as [H1 [H2 _]].
  split; [exact Hs |]. split; [exact Hw |]. split; [| exact H2].
  apply H1. discriminate.
Defined.

(** *** Sequence numbers *)

Lemma spill_sequence (b : bolt.bucket) : bolt.sequence (bolt.spill b) = bolt.sequence b.
Proof. now destruct b. Qed.

Lemma resolves_update (t : bolt.Tx) (path : list string) (f : bolt.bucket -> bolt.bucket)
  (c : bolt.bucket) :
  resolves t path = Some c ->
  resolves (bolt.update t path f) path = Some (f c).
Proof.
  destruct path as [| p rest]; [discriminate |]. intros H.
  exact (deref_update t (p :: rest) f c H).
Qed.

(** [NextSeq] on a path that resolves, in a writable transaction. *)
Lemma NextSeq_resolved (s : Session) (t : bolt.Tx) (path : list string)
  (c : bolt.bucket) :
  tx s = Some t ->
  bolt.writable t = true ->
  Forall (fun p => p <> EmptyString) path ->
  resolves t path = Some c ->
  let n := ((bolt.sequence c + 1) mod 2 ^ 64)%N in
  NextSeq s path =
  Return (MkSession (store s)
            (Some (bolt.update t path (fun bk => bolt.MkBucket n (bolt.inodes bk))))
            None,
          (n, None)).
Proof.
  intros Hs Hw Hall Hres n. unfold NextSeq. run_on_bound Hs.
  unfold NextSeq_fn, bind.
  rewrite (setBucketIfNotExist_resolved s path t t c Hs Hw Hall Hres).
  unfold on_bucket, writes, bolt.NextSequence. rewrite Hw. cbn [negb].
  rewrite (deref_at t path c (resolves_at t path c Hres)). reflexivity.
Qed.

(** The sequence of a container: [NextSeq] that returns nil gives one more
    than the counter of the container held (counting from zero in a
    container it has just created), modulo 2^64; the next call in the
    session, and the first call of a later write session once this one is
    closed, give one more again; and the keys of the container are as they
    were. *)
Theorem NextSeq_counts :
  forall (s s1 : Session) (t : bolt.Tx) (path : list string) (id : N),
  tx s = Some t ->
  NextSeq s path = Return (s1, (id, None)) ->
  id = ((match resolves t path with
         | Some bk => bolt.sequence bk
         | None => 0
         end + 1) mod 2 ^ 64)%N /\
  (exists s2, NextSeq s1 path = Return (s2, (((id + 1) mod 2 ^ 64)%N, None))) /\
  (exists st' s3,
     WriteSession_closer s1 = Return st' /\
     NextSeq (WriteSession st') path = Return (s3, (((id + 1) mod 2 ^ 64)%N, None))) /\
  (forall key,
     option_map fst (result_of (Read s1 path key)) =
     option_map fst (result_of (Read s path key))) /\
  ((id < 2 ^ 64 - 1)%N -> (id < (id + 1) mod 2 ^ 64)%N).
Proof.
  intros s s1 t path id Hs. unfold NextSeq. run_on_bound Hs.
  unfold NextSeq_fn, bind.
  destruct (setBucketIfNotExist s path t) as [[[b [e |]] t1] | msg] eqn:Hset;
    try discriminate.
  destruct (setBucketIfNotExist_spec s path t t t1 b Hs Hset)
    as [-> [_ [Hw1 [Hall [Hres _]]]]].
  unfold on_bucket, writes, bolt.NextSequence. rewrite Hw1. cbn [negb].
  rewrite (deref_at t1 path _ (resolves_at t1 path _ Hres)).
  set (c := match resolves t path with Some bk => bk | None => bolt.empty end) in *.
  set (n := ((bolt.sequence c + 1) mod 2 ^ 64)%N).
  set (t2 := bolt.update t1 path (fun bk => bolt.MkBucket n (bolt.inodes bk))).
  intros H. inversion H; subst s1 id. clear H.
  assert (Hres2 : resolves t2 path = Some (bolt.MkBucket n (bolt.inodes c)))
    by exact (resolves_update t1 path
                (fun bk => bolt.MkBucket n (bolt.inodes bk)) c Hres).
  split; [| split; [| split; [| split]]].
  - unfold n, c. now destruct (resolves t path).
  - eexists.
    apply (NextSeq_resolved (MkSession (store s) (Some t2) None) t2 path _
             eq_refl Hw1 Hall Hres2).
  - exists (MkStore (DB.Commit t2)). eexists. split; [reflexivity |].
    pose proof (NextSeq_resolved (WriteSession (MkStore (DB.Commit t2)))
                  (bolt.MkTx true (bolt.spill (bolt.root t2))) path _
                  eq_refl eq_refl Hall (resolves_spill t2 true path _ Hres2)) as HN.
    cbv zeta in HN. rewrite spill_sequence in HN. exact HN.
  - intros key.
    rewrite (Read_stored (MkSession (store s) (Some t2) None) t2 path key eq_refl).
    rewrite (Read_stored s t path key Hs). unfold stored. rewrite Hres2.
    unfold c. now destruct (resolves t path).
  - intros Hlt. rewrite N.mod_small; lia.
Qed.

Lemma NextSeq_counts_witness :
  let s1 := session_after [OpNextSeq ["ids"]] sample in
  tx sample = Some sample_tx /\
  NextSeq sample ["ids"] = Return (s1, (1%N, None)) /\
  (exists s2, NextSeq s1 ["ids"] = Return (s2, (((1 + 1) mod 2 ^ 64)%N, None))) /\
  (exists st' s3,
     WriteSession_closer s1 = Return st' /\
     NextSeq (WriteSession st') ["ids"] =
       Return (s3, (((1 + 1) mod 2 ^ 64)%N, None))).
Proof.
  intros s1.
  assert (Hs : tx sample = Some sample_tx) by (vm_compute; reflexivity).
  assert (Hn : NextSeq sample ["ids"] = Return (s1, (1%N, None)))
    by (vm_compute; reflexivity).
  destruct (NextSeq_counts sample s1 sample_tx ["ids"] 1%N Hs Hn)
    as [_ [H2 [H3 _]]].
  split; [exact Hs |]. split; [exact Hn |]. split; [exact H2 | exact H3].
Defined.

(** *** Deleting *)

Lemma find_del {V : Type} (key : string) (l : list (string * V)) :
  ascending (map fst l) = true -> bolt.find key (bolt.del key l) = None.
Proof.
  unfold bolt.find.
  induction l as [| [k0 y] l IH]; intros Hasc; [reflexivity |].
  pose proof (ascending_tail _ _ Hasc) as Htl.
  pose proof (ascending_head _ _ Hasc) as Hhd.
  simpl. destruct (bolt.key_lt k0 key) eqn:H0.
  - simpl. rewrite H0. now apply IH.
  - destruct (String.eqb_spec key k0) as [<- | Hne].
    + destruct l as [| [k1 y1] l]; [reflexivity |].
      simpl in Hhd. inversion Hhd as [| ? ? Hk1 _]; subst. simpl.
      rewrite (key_lt_asym _ _ Hk1).
      destruct (String.eqb_spec key k1) as [-> | _]; [| reflexivity].
      now rewrite key_lt_irrefl in Hk1.
    + simpl. rewrite H0.
      destruct (String.eqb_spec key k0) as [-> | _]; [now elim Hne | reflexivity].
Qed.

(** Creating resolution that fails in a writable transaction, no segment
    being empty: the path does not resolve afterwards. *)
Lemma setBucketIfNotExist_range_unresolved (s : Session) (path : list string) :
  forall rest h index bk t b e t',
  index <> 0 ->
  bolt.bucket_at h (bolt.root t) = Some bk ->
  bolt.writable t = true ->
  Forall (fun p => p <> EmptyString) rest ->
  setBucketIfNotExist_range s path index (Some h) rest t = Return ((b, Some e), t') ->
  bolt.bucket_at (h ++ rest) (bolt.root t') = None.
Proof.
  induction rest as [| p rest IH]; intros h index bk t b e t' Hi Hh Hw Hall H.
  - simpl in H. discriminate H.
  - inversion Hall as [| ? ? Hp Hrest]; subst.
    simpl in H. destruct (Nat.eqb_spec index 0) as [-> | _]; [now elim Hi |].
    unfold bind, on_bucket, writes in H.
    destruct (bolt.CreateBucketIfNotExists t h p) as [t1 [b1 [e1 |]]] eqn:Hc.
    + cbv beta iota in H. inversion H; subst. clear H.
      revert Hc. unfold bolt.CreateBucketIfNotExists, bolt.CreateBucket, bolt.Bucket.
      rewrite Hw, (len_nonzero p Hp), (deref_at t h bk Hh). cbn [negb].
      destruct (bolt.find p (bolt.inodes bk)) as [[v | c] |] eqn:Hf;
        simpl; intros Hc; inversion Hc; subst.
      rewrite bucket_at_app, Hh. simpl. rewrite child_find. now rewrite Hf.
    + destruct (CreateBucketIfNotExists_spec t t1 h p bk b1 Hh Hc)
        as [_ [_ [-> [Hw1 [Hat _]]]]].
      cbv beta iota in H.
      pose proof (IH (h ++ [p]) (S index) _ t1 b e t' (Nat.neq_succ_0 index)
                    Hat Hw1 Hrest H) as HIH.
      now rewrite <- app_assoc in HIH.
Qed.

Lemma setBucketIfNotExist_unresolved (s : Session) (path : list string)
  (t0 t t' : bolt.Tx) (b : option bolt.handle) (e : error) :
  tx s = Some t0 ->
  bolt.writable t = true ->
  Forall (fun p => p <> EmptyString) path ->
  setBucketIfNotExist s path t = Return ((b, Some e), t') ->
  resolves t' path = None.
Proof.
  intros Hs Hw Hall H. destruct path as [| p rest]; [reflexivity |].
  inversion Hall as [| ? ? Hp Hrest]; subst.
  unfold setBucketIfNotExist in H. cbn [setBucketIfNotExist_range Nat.eqb] in H.
  unfold bind, on_s_tx in H. rewrite Hs in H. unfold writes in H.
  unfold resolves.
  destruct (bolt.CreateBucketIfNotExists t [] p) as [t1 [b1 [e1 |]]] eqn:Hc.
  - cbv beta iota in H. inversion H; subst. clear H.
    revert Hc. unfold bolt.CreateBucketIfNotExists, bolt.CreateBucket, bolt.Bucket.
    rewrite Hw, (len_nonzero p Hp). unfold bolt.deref. cbn [negb bolt.bucket_at].
    destruct (bolt.find p (bolt.inodes (bolt.root t))) as [[v | c] |] eqn:Hf;
      simpl; intros Hc; inversion Hc; subst.
    rewrite child_find. now rewrite Hf.
  - destruct (CreateBucketIfNotExists_spec t t1 [] p (bolt.root t) b1 eq_refl Hc)
      as [_ [_ [-> [Hw1 [Hat _]]]]].
    cbv beta iota in H. cbn [app] in Hat, H.
    exact (setBucketIfNotExist_range_unresolved s (p :: rest) rest [p] 1 _ t1 b e t'
             (Nat.neq_succ_0 0) Hat Hw1 Hrest H).
Qed.

Lemma find_del_other {V : Type} (key key' : string) (l : list (string * V)) :
  ascending (map fst l) = true ->
  key' <> key -> bolt.find key' (bolt.del key l) = bolt.find key' l.
Proof.
  intros Hasc Hne. unfold bolt.find.
  assert (Hneb : String.eqb key' key = false) by now apply String.eqb_neq.
  induction l as [| [k0 y] l IH]; [reflexivity |].
  pose proof (ascending_tail _ _ Hasc) as Htl.
  pose proof (ascending_head _ _ Hasc) as Hhd.
  simpl. destruct (bolt.key_lt k0 key) eqn:H0; simpl.
  - destruct (bolt.key_lt k0 key'); [now apply IH | reflexivity].
  - destruct (String.eqb_spec key k0) as [<- | Hk0]; [| reflexivity].
    destruct (bolt.key_lt key key') eqn:H1; [reflexivity |].
    rewrite Hneb.
    assert (Hlt : bolt.key_lt key' key = true).
    { destruct (bolt.key_lt key' key) eqn:H2; [reflexivity |].
      elim Hne. now apply key_lt_total. }
    destruct l as [| [k1 y1] l]; [reflexivity |].
    simpl in Hhd. inversion Hhd as [| ? ? Hk1 _]; subst. simpl.
    pose proof (key_lt_trans _ _ _ Hlt Hk1) as Hlt'.
    rewrite (key_lt_asym _ _ Hlt').
    destruct (String.eqb_spec key' k1) as [-> | _]; [| reflexivity].
    now rewrite key_lt_irrefl in Hlt'.
Qed.

Lemma KeyExists_stored (s : Session) (t : bolt.Tx) (path : list string) (key : string) :
  tx s = Some t ->
  result_of (KeyExists s path key) =
  Some (match stored t path key with Some _ => true | None => false end).
Proof.
  intros Hs. unfold KeyExists, stored. run_on_bound Hs. unfold KeyExists_fn, bind.
  rewrite (setBucket_bound s path t t Hs).
  destruct (resolves t path) as [bk |] eqn:Hres; [| reflexivity].
  unfold on_bucket, reads, bolt.Get.
  rewrite (deref_at t path bk (resolves_at t path bk Hres)).
  now destruct (bolt.find key (bolt.inodes bk)) as [[[v |] | c] |].
Qed.

Lemma ordered_empty_or (t : bolt.Tx) (path : list string) :
  ordered (bolt.root t) = true ->
  ascending
    (keys_of (bolt.inodes
                (match resolves t path with Some bk => bk | None => bolt.empty end)))
  = true.
Proof.
  intros Ho. destruct (resolves t path) as [bk |] eqn:Hres; [| reflexivity].
  exact (resolves_ascending t path bk Ho Hres).
Qed.

(** What [DeleteKey] leaves in the transaction when it returns nil, the
    transaction being writable and ordered and no segment empty. *)
Lemma DeleteKey_stored (s s1 : Session) (t : bolt.Tx) (path : list string)
  (key : string) :
  tx s = Some t ->
  bolt.writable t = true ->
  ordered (bolt.root t) = true ->
  Forall (fun p => p <> EmptyString) path ->
  DeleteKey s path key = Return (s1, None) ->
  exists t1,
    s1 = MkSession (store s) (Some t1) None /\
    stored t1 path key = None /\
    forall key', key' <> key -> stored t1 path key' = stored t path key'.
Proof.
  intros Hs Hw Ho Hall. unfold DeleteKey. run_on_bound Hs.
  unfold DeleteKey_fn, bind.
  destruct (setBucketIfNotExist s path t) as [[[b [e |]] t'] | msg] eqn:Hset;
    try discriminate.
  - intros H. inversion H; subst. exists t'. split; [reflexivity |].
    pose proof (setBucketIfNotExist_unresolved s path t t t' b e Hs Hw Hall Hset)
      as Hnone.
    unfold stored. rewrite Hnone. split; [reflexivity |]. intros key' _.
    destruct (resolves t path) as [c |] eqn:Hres; [| reflexivity].
    rewrite (setBucketIfNotExist_resolved s path t t c Hs Hw Hall Hres) in Hset.
    discriminate Hset.
  - destruct (setBucketIfNotExist_spec s path t t t' b Hs Hset)
      as [-> [_ [Hw' [_ [Hres _]]]]].
    pose proof (ordered_empty_or t path Ho) as Hasc.
    set (c := match resolves t path with Some bk => bk | None => bolt.empty end) in *.
    assert (Hold : forall key',
               stored t path key' =
               match bolt.find key' (bolt.inodes c) with
               | Some (bolt.Value v) => v
               | _ => None
               end).
    { intros key'. unfold stored, c. now destruct (resolves t path). }
    unfold on_bucket, writes, bolt.Delete. rewrite Hw'. cbn [negb].
    rewrite (deref_at t' path c (resolves_at t' path c Hres)).
    destruct (bolt.find key (bolt.inodes c)) as [[v | c'] |] eqn:Hf;
      intros H; inversion H; subst; clear H.
    + eexists. split; [reflexivity |].
      unfold stored.
      rewrite (resolves_update t' path
                 (fun bk => bolt.MkBucket (bolt.sequence bk)
                              (bolt.del key (bolt.inodes bk))) c Hres).
      cbn [bolt.inodes]. split.
      * now rewrite (find_del key (bolt.inodes c) Hasc).
      * intros key' Hne.
        rewrite (find_del_other key key' (bolt.inodes c) Hasc Hne).
        symmetry. apply Hold.
    + exists t'. split; [reflexivity |]. unfold stored. rewrite Hres.
      split; [now rewrite Hf |]. intros key' _. symmetry. apply Hold.
Qed.

(** In a write session whose buckets are in the engine's order, for a path
    with no empty segment: once [DeleteKey] has returned nil, [KeyExists]
    of that path and key is false and [Read] returns no value, and [Read]
    of any other key of the path returns what it returned before. *)
Theorem DeleteKey_then_absent :
  forall (s s1 : Session) (t : bolt.Tx) (path : list string) (key : string),
  tx s = Some t ->
  bolt.writable t = true ->
  ordered (bolt.root t) = true ->
  Forall (fun p => p <> EmptyString) path ->
  DeleteKey s path key = Return (s1, None) ->
  result_of (KeyExists s1 path key) = Some false /\
  option_map fst (result_of (Read s1 path key)) = Some None /\
  forall key', key' <> key ->
    option_map fst (result_of (Read s1 path key')) =
    option_map fst (result_of (Read s path key')).
Proof.
  intros s s1 t path key Hs Hw Ho Hall Hd.
  destruct (DeleteKey_stored s s1 t path key Hs Hw Ho Hall Hd)
    as [t1 [-> [Hkey Hother]]].
  split; [| split].
  - rewrite (KeyExists_stored (MkSession (store s) (Some t1) None) t1 path key eq_refl).
    now rewrite Hkey.
  - rewrite (Read_stored (MkSession (store s) (Some t1) None) t1 path key eq_refl).
    now rewrite Hkey.
  - intros key' Hne.
    rewrite (Read_stored (MkSession (store s) (Some t1) None) t1 path key' eq_refl).
    rewrite (Read_stored s t path key' Hs). now rewrite (Hother key' Hne).
Qed.

Lemma DeleteKey_then_absent_witness :
  let s1 := session_after [OpDeleteKey sample_path "k2a"] sample in
  tx sample = Some sample_tx /\
  bolt.writable sample_tx = true /\
  ordered (bolt.root sample_tx) = true /\
  Forall (fun p => p <> EmptyString) sample_path /\
  DeleteKey sample sample_path "k2a" = Return (s1, None) /\
  result_of (KeyExists s1 sample_path "k2a") = Some false /\
  option_map fst (result_of (Read s1 sample_path "k2a")) = Some None /\
  option_map fst (result_of (Read s1 sample_path "k3a")) =
  option_map fst (result_of (Read sample sample_path "k3a")).
Proof.
  intros s1.
  assert (Hs : tx sample = Some sample_tx) by (vm_compute; reflexivity).
  assert (Hw : bolt.writable sample_tx = true) by (vm_compute; reflexivity).
  assert (Ho : ordered (bolt.root sample_tx) = true) by (vm_compute; reflexivity).
  assert (Hall : Forall (fun p => p <> EmptyString) sample_path)
    by (repeat constructor; discriminate).
  assert (Hd : DeleteKey sample sample_path "k2a" = Return (s1, None))
    by (vm_compute; reflexivity).
  destruct (DeleteKey_then_absent sample s1 sample_tx sample_path "k2a"
              Hs Hw Ho Hall Hd) as [H1 [H2 H3]].
  repeat (split; [assumption |]). apply H3. discriminate.
Defined.

(** [DeleteKey], the path being one [CreateBucket] accepts: an absent key
    gives nil and leaves the session as [CreateBucket] leaves it (the
    buckets of the path that were missing are created); a key with a value
    is removed; a key that names a nested bucket gives the engine's
    incompatible-value error and removes nothing. *)
Theorem DeleteKey_outcomes :
  forall (s s1 : Session) (t t1 : bolt.Tx) (path : list string) (key : string)
         (bk : bolt.bucket),
  tx s = Some t ->
  CreateBucket s path = Return (s1, None) ->
  tx s1 = Some t1 ->
  resolves t1 path = Some bk ->
  match bolt.find key (bolt.inodes bk) with
  | None => DeleteKey s path key = Return (s1, None)
  | Some (bolt.Value _) =>
      exists t2,
        DeleteKey s path key = Return (MkSession (store s) (Some t2) None, None) /\
        resolves t2 path =
          Some (bolt.MkBucket (bolt.sequence bk) (bolt.del key (bolt.inodes bk)))
  | Some (bolt.Sub _) =>
      exists e,
        DeleteKey s path key =
          Return (MkSession (store s) (Some t1) (Some e), Some e) /\
        Is e bolt.ErrIncompatibleValue = true
  end.
Proof.
  intros s s1 t t1 path key bk Hs Hc Hs1 Hres.
  destruct (CreateBucket_inv s s1 t path Hs Hc) as [t1' [-> Hset]].
  cbn [tx] in Hs1. inversion Hs1; subst t1'.
  destruct (setBucketIfNotExist_spec s path t t t1 _ Hs Hset) as [_ [_ [Hw1 _]]].
  unfold DeleteKey. run_on_bound Hs. unfold DeleteKey_fn, bind. rewrite Hset.
  unfold on_bucket, writes, bolt.Delete. rewrite Hw1. cbn [negb].
  rewrite (deref_at t1 path bk (resolves_at t1 path bk Hres)).
  destruct (bolt.find key (bolt.inodes bk)) as [[v | c] |]; try reflexivity.
  - eexists. split; [reflexivity |].
    exact (resolves_update t1 path
             (fun b => bolt.MkBucket (bolt.sequence b) (bolt.del key (bolt.inodes b)))
             bk Hres).
  - eexists. split; reflexivity.
Qed.

Lemma DeleteKey_outcomes_witness :
  let s := WriteSession emptyStore in
  let s1 := session_after [OpCreateBucket ["a"; "b"]] s in
  tx s = Some (DB.Begin (db emptyStore) true) /\
  CreateBucket s ["a"; "b"] = Return (s1, None) /\
  DeleteKey s ["a"; "b"] "k" = Return (s1, None) /\
  BucketExists s1 ["a"; "b"] = Return (s1, true).
Proof.
  intros s s1.
  assert (Hc : CreateBucket s ["a"; "b"] = Return (s1, None))
    by (vm_compute; reflexivity).
  split; [reflexivity |]. split; [exact Hc |]. split; [| vm_compute; reflexivity].
  exact (DeleteKey_outcomes s s1 (DB.Begin (db emptyStore) true) (tx_of s1)
           ["a"; "b"] "k" bolt.empty eq_refl Hc eq_refl eq_refl).
Defined.

Lemma setBucketIfNotExist_read_only (s : Session) (t0 t : bolt.Tx) (p : string)
  (rest : list string) :
  tx s = Some t0 ->
  bolt.writable t = false ->
  setBucketIfNotExist s (p :: rest) t =
  Return ((None, Some (Wrapf bolt.ErrTxNotWritable "bucket [%s]" [ArgStr p])), t).
Proof.
  intros Hs Hw. unfold setBucketIfNotExist. cbn [setBucketIfNotExist_range Nat.eqb].
  unfold bind, on_s_tx. rewrite Hs. unfold writes.
  now rewrite (proj1 (engine_refuses_read_only t [] p None Hw)).
Qed.

(** In a read session the mutating methods change nothing, and all but one
    say so: with a path of at least one segment, [Write], [CreateBucket] and
    [NextSeq] return an error that is the engine's tx-not-writable error,
    and so does [DeleteBucket] of a top-level bucket or of a bucket whose
    parent resolves; [DeleteKey] returns nil, whether the key exists or
    not. *)
Theorem read_session_refuses :
  forall (s : Session) (t : bolt.Tx) (p : string) (rest : list string)
         (key : string) (value : option string),
  tx s = Some t ->
  bolt.writable t = false ->
  let refused e := MkSession (store s) (Some t) (Some e) in
  (exists e, Write s (p :: rest) key value = Return (refused e, Some e) /\
             Is e bolt.ErrTxNotWritable = true) /\
  (exists e, CreateBucket s (p :: rest) = Return (refused e, Some e) /\
             Is e bolt.ErrTxNotWritable = true) /\
  (exists e, NextSeq s (p :: rest) = Return (refused e, (0%N, Some e)) /\
             Is e bolt.ErrTxNotWritable = true) /\
  DeleteKey s (p :: rest) key = Return (MkSession (store s) (Some t) None, None) /\
  DeleteBucket s [p] =
    Return (refused bolt.ErrTxNotWritable, Some bolt.ErrTxNotWritable) /\
  (resolves t (p :: rest) <> None ->
   DeleteBucket s ((p :: rest) ++ [key]) =
     Return (refused bolt.ErrTxNotWritable, Some bolt.ErrTxNotWritable)).
Proof.
  intros s t p rest key value Hs Hw refused.
  pose proof (setBucketIfNotExist_read_only s t t p rest Hs Hw) as Hset.
  assert (HIs : forall f a,
             Is (Wrapf (Wrapf bolt.ErrTxNotWritable "bucket [%s]" [ArgStr p]) f a)
                bolt.ErrTxNotWritable = true).
  { intros f a. unfold bolt.ErrTxNotWritable. now rewrite !Is_Wrapf. }
  repeat split.
  - eexists. split; [| apply HIs].
    unfold Write. run_on_bound Hs. unfold Write_fn, bind. rewrite Hset. reflexivity.
  - eexists. split; [| apply HIs].
    unfold CreateBucket. run_on_bound Hs. unfold CreateBucket_fn, bind.
    rewrite Hset. reflexivity.
  - eexists. split; [| apply HIs].
    unfold NextSeq. run_on_bound Hs. unfold NextSeq_fn, bind.
    rewrite Hset. reflexivity.
  - unfold DeleteKey. run_on_bound Hs. unfold DeleteKey_fn, bind.
    rewrite Hset. reflexivity.
  - unfold DeleteBucket. run_on_bound Hs. unfold DeleteBucket_fn.
    cbn [List.length Nat.eqb nth]. unfold bind, writes.
    now rewrite (proj1 (proj2 (proj2 (proj2
                  (engine_refuses_read_only t [] p None Hw))))).
  - intros Hres. unfold DeleteBucket. run_on_bound Hs. unfold DeleteBucket_fn.
    rewrite firstn_pred_snoc, nth_pred_snoc.
    assert (Hlen : List.length ((p :: rest) ++ [key]) = S (S (List.length rest)))
      by (simpl; rewrite length_app; simpl; lia).
    rewrite Hlen. cbn [Nat.eqb]. unfold bind.
    rewrite (setBucket_bound s (p :: rest) t t Hs).
    destruct (resolves t (p :: rest)) as [bk |]; [| now elim Hres].
    unfold on_bucket, writes.
    now rewrite (proj1 (proj2 (proj2 (proj2
                  (engine_refuses_read_only t (p :: rest) key None Hw))))).
Qed.

Lemma read_session_refuses_witness :
  let s := ReadSession tested_store in
  let t := DB.Begin (db tested_store) false in
  result_of (KeyExists s ["l1a"; "l2a"; "l3a"] "k1a") = Some true /\
  DeleteKey s ["l1a"; "l2a"; "l3a"] "k1a" = Return (MkSession (store s) (Some t) None, None) /\
  exists e, Write s ["l1a"; "l2a"; "l3a"] "k" (Some "v") =
              Return (MkSession (store s) (Some t) (Some e), Some e) /\
            Is e bolt.ErrTxNotWritable = true.
Proof.
  intros s t.
  destruct (read_session_refuses s t "l1a" ["l2a"; "l3a"] "k1a" (Some "v")
              eq_refl eq_refl) as [_ [_ [_ [HD _]]]].
  destruct (read_session_refuses s t "l1a" ["l2a"; "l3a"] "k" (Some "v")
              eq_refl eq_refl) as [HW _].
  split; [vm_compute; reflexivity |]. split; [exact HD | exact HW].
Defined.

Lemma resolves_snoc (t : bolt.Tx) (parent : list string) (name : string) :
  parent <> [] ->
  resolves t (parent ++ [name]) =
  match resolves t parent with
  | Some bk => bolt.child name bk
  | None => None
  end.
Proof.
  intros Hne. unfold resolves.
  destruct parent as [| p rest]; [now elim Hne |].
  cbn [app]. change (p :: rest ++ [name]) with ((p :: rest) ++ [name]).
  rewrite bucket_at_app.
  destruct (bolt.bucket_at (p :: rest) (bolt.root t)) as [bk |]; [| reflexivity].
  simpl. now destruct (bolt.child name bk).
Qed.

Lemma child_del (name : string) (s : N) (l : list (string * bolt.inode bolt.bucket)) :
  ascending (keys_of l) = true ->
  bolt.child name (bolt.MkBucket s (bolt.del name l)) = None.
Proof.
  intros Hasc. rewrite child_find. cbn [bolt.inodes].
  now rewrite (find_del name l Hasc).
Qed.

(** On a bound session whose buckets are in the engine's order, once
    [DeleteBucket] has returned nil the path names no bucket:
    [BucketExists] of the same path is false. *)
Theorem DeleteBucket_then_absent :
  forall (s s1 : Session) (t : bolt.Tx) (path : list string),
  tx s = Some t ->
  ordered (bolt.root t) = true ->
  DeleteBucket s path = Return (s1, None) ->
  result_of (BucketExists s1 path) = Some false.
Proof.
  intros s s1 t path Hs Ho.
  assert (Hgoal : forall t1,
             resolves t1 path = None ->
             result_of (BucketExists (MkSession (store s) (Some t1) None) path)
             = Some false).
  { intros t1 Hnone.
    rewrite (BucketExists_bound (MkSession (store s) (Some t1) None) t1 path eq_refl).
    now rewrite Hnone. }
  unfold DeleteBucket. run_on_bound Hs. unfold DeleteBucket_fn.
  destruct path as [| p [| q rest]].
  - discriminate.
  - cbn [List.length Nat.eqb nth]. unfold bind, writes, bolt.DeleteBucket.
    destruct (bolt.writable t); [| discriminate]. cbn [negb].
    unfold bolt.deref. cbn [bolt.bucket_at].
    destruct (ordered_inodes _ Ho) as [Hasc _].
    destruct (bolt.find p (bolt.inodes (bolt.root t))) as [[v | c] |];
      try discriminate.
    intros H. inversion H; subst. apply Hgoal.
    unfold resolves. cbn [bolt.bucket_at bolt.update bolt.with_root bolt.root
                            bolt.modify].
    now rewrite (child_del p _ _ Hasc).
  - set (path := p :: q :: rest) in *.
    assert (Hne : path <> []) by discriminate.
    pose proof (app_removelast_last EmptyString Hne) as Hsplit.
    set (parent := removelast path) in *. set (name := last path EmptyString) in *.
    assert (Hpne : parent <> []) by (unfold parent, path; simpl; discriminate).
    assert (Hlen : List.length path = S (S (List.length rest))) by reflexivity.
    rewrite Hlen. cbn [Nat.eqb].
    assert (Hfirst : firstn (List.length path - 1) path = parent)
      by (rewrite Hsplit; apply firstn_pred_snoc).
    assert (Hnth : nth (List.length path - 1) path EmptyString = name)
      by (rewrite Hsplit; apply nth_pred_snoc).
    rewrite Hlen in Hfirst, Hnth. rewrite Hfirst, Hnth.
    unfold bind. rewrite (setBucket_bound s parent t t Hs).
    destruct (resolves t parent) as [bk |] eqn:Hres.
    + unfold on_bucket, writes, bolt.DeleteBucket.
      destruct (bolt.writable t); [| discriminate]. cbn [negb].
      assert (Hat : bolt.bucket_at parent (bolt.root t) = Some bk)
        by now apply resolves_at.
      rewrite (deref_at t parent bk Hat).
      pose proof (resolves_ascending t parent bk Ho Hres) as Hasc.
      destruct (bolt.find name (bolt.inodes bk)) as [[v | c] |] eqn:Hf;
        try discriminate.
      * intros H. inversion H; subst s1. apply Hgoal. rewrite Hsplit.
        rewrite (resolves_snoc _ parent name Hpne).
        rewrite (resolves_update t parent
                   (fun b => bolt.MkBucket (bolt.sequence b)
                               (bolt.del name (bolt.inodes b))) bk Hres).
        now apply child_del.
      * intros H. inversion H; subst s1. apply Hgoal. rewrite Hsplit.
        rewrite (resolves_snoc _ parent name Hpne), Hres, child_find.
        now rewrite Hf.
    + intros H. inversion H; subst s1. apply Hgoal. rewrite Hsplit.
      now rewrite (resolves_snoc _ parent name Hpne), Hres.
Qed.

Lemma DeleteBucket_then_absent_witness :
  let s1 := session_after [OpDeleteBucket ["l1a"; "l2a"]] sample in
  tx sample = Some sample_tx /\
  ordered (bolt.root sample_tx) = true /\
  DeleteBucket sample ["l1a"; "l2a"] = Return (s1, None) /\
  result_of (BucketExists sample ["l1a"; "l2a"]) = Some true /\
  result_of (BucketExists s1 ["l1a"; "l2a"]) = Some false.
Proof.
  intros s1.
  assert (Hs : tx sample = Some sample_tx) by (vm_compute; reflexivity).
  assert (Ho : ordered (bolt.root sample_tx) = true) by (vm_compute; reflexivity).
  assert (Hd : DeleteBucket sample ["l1a"; "l2a"] = Return (s1, None))
    by (vm_compute; reflexivity).
  split; [exact Hs |]. split; [exact Ho |]. split; [exact Hd |].
  split; [vm_compute; reflexivity |].
  exact (DeleteBucket_then_absent sample s1 sample_tx ["l1a"; "l2a"] Hs Ho Hd).
Defined.

(** *** Sessions with no transaction bound *)



(** *** The empty path *)

(** With an empty path on a bound session nothing is resolved and the
    transaction is left as it was: the lookups and [Write], [CreateBucket]
    and [NextSeq] record a path-not-found error ([List] and [ListKeys]
    returning nil all the same), [DeleteKey] returns nil; and
    [DeleteBucket] panics on any session, slicing the path out of range. *)
Theorem empty_path :
  forall (s : Session) (t : bolt.Tx) (key pageToken prefix : string)
         (value : option string),
  tx s = Some t ->
  let e := Wrapf ErrPathNotFound "path [%s]" [ArgStr (pathStr [])] in
  let e' := Wrapf ErrPathNotFound "path [%s]" [ArgPath []] in
  let after x := MkSession (store s) (Some t) x in
  Read s [] key = Return (after (Some e'), (None, Some e')) /\
  List s [] pageToken = Return (after (Some e), ([], [], EmptyString, None)) /\
  ListKeys s [] pageToken = Return (after (Some e), ([], EmptyString, None)) /\
  PrefixExists s [] prefix = Return (after (Some e'), (false, Some e')) /\
  ReadScan s [] prefix = Return (after (Some e'), ([], [], Some e')) /\
  result_of (KeyExists s [] key) = Some false /\
  BucketExists s [] = Return (after (Some e), false) /\
  Write s [] key value =
    Return (after (Some (Wrapf e "bucket [%s]" [ArgPath []])),
            Some (Wrapf e "bucket [%s]" [ArgPath []])) /\
  CreateBucket s [] =
    Return (after (Some (Wrapf e "bucket [%s]" [ArgPath []])),
            Some (Wrapf e "bucket [%s]" [ArgPath []])) /\
  NextSeq s [] =
    Return (after (Some (Wrapf e "bucket [%s]" [ArgPath []])),
            (0%N, Some (Wrapf e "bucket [%s]" [ArgPath []]))) /\
  DeleteKey s [] key = Return (after None, None) /\
  Is (Wrapf e "bucket [%s]" [ArgPath []]) ErrPathNotFound = true /\
  forall s0 : Session, DeleteBucket s0 [] = Panic slice_bounds.
Proof.
  intros s t key pageToken prefix value Hs e e' after.
  unfold Read, List, ListKeys, PrefixExists, ReadScan, KeyExists, BucketExists,
    Write, CreateBucket, NextSeq, DeleteKey.
  repeat run_on_bound Hs.
  repeat (split; [reflexivity |]).
  intros s0. unfold DeleteBucket, run, DB.Update.
  destruct (tx s0); reflexivity.
Qed.

Lemma empty_path_witness :
  tx sample = Some sample_tx /\
  DeleteKey sample [] "k" = Return (sample, None) /\
  CreateBucket sample [] =
    Return (MkSession (store sample) (Some sample_tx)
              (Some (Wrapf (Wrapf ErrPathNotFound "path [%s]" [ArgStr (pathStr [])])
                       "bucket [%s]" [ArgPath []])),
            Some (Wrapf (Wrapf ErrPathNotFound "path [%s]" [ArgStr (pathStr [])])
                    "bucket [%s]" [ArgPath []])) /\
  DeleteBucket sample [] = Panic slice_bounds.
Proof.
  assert (Hs : tx sample = Some sample_tx) by (vm_compute; reflexivity).
  pose proof (empty_path sample sample_tx "k" "" "" None Hs) as H.
  cbv zeta in H.
  destruct H as [_ [_ [_ [_ [_ [_ [_ [_ [HC [_ [HD [_ HP]]]]]]]]]]]].
  split; [exact Hs |]. split; [| split; [exact HC | exact (HP sample)]].
  rewrite HD. vm_compute. reflexivity.
Defined.

(** *** A page from any token *)

Lemma In_find {V : Type} (k : string) (x : V) (l : list (string * V)) :
  ascending (map fst l) = true -> In (k, x) l -> bolt.find k l = Some x.
Proof.
  unfold bolt.find.
  induction l as [| [k0 y] l IH]; intros Hasc Hin; [contradiction |].
  pose proof (ascending_head _ _ Hasc) as Hhd. simpl in Hhd.
  rewrite Forall_forall in Hhd.
  destruct Hin as [Heq | Hin].
  - inversion Heq; subst. simpl. now rewrite key_lt_irrefl, String.eqb_refl.
  - assert (Hlt : bolt.key_lt k0 k = true).
    { apply Hhd. change k with (fst (k, x)). now apply in_map. }
    simpl. rewrite Hlt. apply IH; [| exact Hin].
    now apply ascending_tail with k0.
Qed.

Lemma stored_value (t : bolt.Tx) (path : list string) (bk : bolt.bucket)
  (k : string) (x : bolt.inode bolt.bucket) :
  resolves t path = Some bk ->
  ascending (keys_of (bolt.inodes bk)) = true ->
  In (k, x) (bolt.inodes bk) ->
  stored t path k = value_of x.
Proof.
  intros Hres Hasc Hin. unfold stored. rewrite Hres.
  rewrite (In_find k x _ Hasc Hin). now destruct x.
Qed.

Lemma In_firstn {A : Type} (n : nat) (a : A) (l : list A) :
  In a (firstn n l) -> In a l.
Proof.
  intros H. rewrite <- (firstn_skipn n l). apply in_or_app. now left.
Qed.

Lemma ascending_firstn (n : nat) (ks : list string) :
  ascending ks = true -> ascending (firstn n ks) = true.
Proof.
  revert ks. induction n as [| n IH]; intros ks H; [reflexivity |].
  destruct ks as [| k ks]; [reflexivity |].
  simpl. apply ascending_cons.
  - pose proof (ascending_head _ _ H) as Hhd.
    rewrite Forall_forall in Hhd |- *. intros k' Hin.
    apply Hhd. now apply In_firstn with n.
  - apply IH. now apply ascending_tail with k.
Qed.

Lemma before_skipn {V : Type} (l : list (string * V)) :
  forall n k x rest,
  ascending (map fst l) = true ->
  skipn n l = (k, x) :: rest ->
  Forall (fun kx => bolt.key_lt (fst kx) k = true) (firstn n l).
Proof.
  induction l as [| [k0 y] l IH]; intros n k x rest Hasc Hn.
  - now destruct n.
  - destruct n as [| n]; [constructor |].
    simpl in Hn |- *. constructor.
    + simpl. apply ascending_head in Hasc. rewrite Forall_forall in Hasc.
      apply Hasc. change k with (fst (k, x)). apply in_map.
      rewrite <- (firstn_skipn n l), Hn. apply in_or_app. right. now left.
    + apply (IH n k x rest); [| exact Hn]. now apply ascending_tail with k0.
Qed.

Lemma page_start_spec (pageToken : string) (l : list (string * bolt.inode bolt.bucket)) :
  ascending (keys_of l) = true ->
  ascending (keys_of (page_start pageToken l)) = true /\
  forall kx, In kx (page_start pageToken l) <->
             In kx l /\ bolt.key_lt (fst kx) pageToken = false.
Proof.
  intros Hasc. unfold page_start.
  destruct (String.eqb_spec pageToken EmptyString) as [-> | Hne].
  - split; [exact Hasc |]. intros kx. rewrite key_lt_empty. tauto.
  - split; [now apply ascending_seek |]. intros kx. split.
    + intros Hin. split; [now apply seek_In with pageToken |].
      pose proof (seek_above pageToken l Hasc) as Hab.
      rewrite Forall_forall in Hab. now apply Hab.
    + intros [Hin Hk]. destruct (seek_split pageToken l) as [sk [Heq Hsk]].
      rewrite Heq in Hin. apply in_app_or in Hin. destruct Hin as [Hin | Hin]; [| exact Hin].
      rewrite Forall_forall in Hsk. rewrite (Hsk kx Hin) in Hk. discriminate.
Qed.

(** A page from any token, a key of the container or not.  On a bound
    session, for a path that resolves to a container whose keys are in
    ascending order, [List] and [ListKeys] from [pageToken] return the same
    keys and continuation token and set no error; the keys are at most a
    hundred keys of the container, none below the token, in ascending
    order, and [List] returns each with the value stored under it.  When the
    continuation token is empty the page holds every key of the container
    that is not below [pageToken]; when it is not, the page is full and the
    continuation token is a key of the container above every key of the
    page. *)
Theorem page_from_token :
  forall (s : Session) (t : bolt.Tx) (path : list string) (bk : bolt.bucket)
         (pageToken : string),
  tx s = Some t ->
  resolves t path = Some bk ->
  ascending (keys_of (bolt.inodes bk)) = true ->
  exists (keys : list string) (values : list (option string)) (next : string),
    List s path pageToken =
      Return (MkSession (store s) (Some t) None, (keys, values, next, None)) /\
    ListKeys s path pageToken =
      Return (MkSession (store s) (Some t) None, (keys, next, None)) /\
    List.length keys <= 100 /\
    ascending keys = true /\
    (forall k, In k keys ->
       In k (keys_of (bolt.inodes bk)) /\ bolt.key_lt k pageToken = false) /\
    Forall2 (fun k v => v = stored t path k) keys values /\
    (next = EmptyString ->
     forall k, In k (keys_of (bolt.inodes bk)) ->
               bolt.key_lt k pageToken = false -> In k keys) /\
    (next <> EmptyString ->
     List.length keys = 100 /\
     In next (keys_of (bolt.inodes bk)) /\
     bolt.key_lt next pageToken = false /\
     Forall (fun k => bolt.key_lt k next = true) keys).
Proof.
  intros s t path bk pageToken Hs Hres Hasc.
  pose proof (List_bound s t path pageToken bk Hs Hres) as HL.
  pose proof (ListKeys_bound s t path pageToken bk Hs Hres) as HK.
  cbv zeta in HL, HK.
  destruct (page_start_spec pageToken (bolt.inodes bk) Hasc) as [Hsa Hsin].
  set (start := page_start pageToken (bolt.inodes bk)) in *.
  exists (keys_of (firstn 100 start)), (values_of (firstn 100 start)),
         (next_token (skipn 100 start)).
  split; [exact HL |]. split; [exact HK |].
  split.
  { unfold keys_of. rewrite length_map. apply firstn_le_length. }
  split.
  { unfold keys_of in *. rewrite <- firstn_map. now apply ascending_firstn. }
  split.
  { intros k Hin. unfold keys_of in Hin. apply in_map_iff in Hin.
    destruct Hin as [kx [<- Hin]]. apply In_firstn in Hin.
    apply Hsin in Hin. destruct Hin as [Hin Hk].
    split; [now apply in_map | exact Hk]. }
  split.
  { assert (Hall : forall kx, In kx (firstn 100 start) -> In kx (bolt.inodes bk)).
    { intros kx Hin. apply In_firstn in Hin. now apply Hsin in Hin. }
    revert Hall. generalize (firstn 100 start) as page.
    induction page as [| [k x] page IH]; intros Hall; [constructor |].
    simpl. constructor.
    - symmetry. apply (stored_value t path bk k x Hres Hasc). apply Hall. now left.
    - apply IH. intros kx Hin. apply Hall. now right. }
  split.
  { intros Hnext k Hin Hk.
    assert (Hnil : skipn 100 start = []).
    { destruct (skipn 100 start) as [| [k' x'] rest] eqn:Hsk; [reflexivity |].
      simpl in Hnext. subst k'.
      now destruct (later_key_nonempty start 99 EmptyString x' rest Hsa Hsk). }
    pose proof (firstn_skipn 100 start) as Hfs. rewrite Hnil, app_nil_r in Hfs.
    rewrite Hfs. unfold keys_of in Hin |- *. apply in_map_iff in Hin.
    destruct Hin as [kx [<- Hin]]. apply in_map. apply Hsin. now split. }
  intros Hnext.
  destruct (skipn 100 start) as [| [k' x'] rest] eqn:Hsk; [now destruct Hnext |].
  cbn [next_token].
  assert (Hin : In (k', x') start).
  { rewrite <- (firstn_skipn 100 start), Hsk. apply in_or_app. right. now left. }
  apply Hsin in Hin. destruct Hin as [Hin Hk].
  split; [| split; [| split]].
  - unfold keys_of. rewrite length_map, length_firstn.
    pose proof (length_skipn 100 start) as Hlen. rewrite Hsk in Hlen.
    cbn [List.length] in Hlen. lia.
  - change k' with (fst (k', x')). now apply in_map.
  - exact Hk.
  - pose proof (before_skipn start 100 k' x' rest Hsa Hsk) as Hb.
    unfold keys_of. rewrite Forall_forall in Hb |- *.
    intros k Hink. apply in_map_iff in Hink. destruct Hink as [kx [<- Hink]].
    now apply Hb.
Qed.

Lemma page_from_token_witness :
  tx long_session = Some long_tx /\
  resolves long_tx ["b"] = Some long_bucket /\
  ascending (keys_of (bolt.inodes long_bucket)) = true /\
  result_of (ListKeys long_session ["b"] "05") =
    Some (firstn 100 (skipn 50 many_keys), "150", None) /\
  exists (keys : list string) (values : list (option string)) (next : string),
    List long_session ["b"] "05" =
      Return (MkSession (store long_session) (Some long_tx) None,
              (keys, values, next, None)) /\
    List.length keys <= 100 /\
    Forall2 (fun k v => v = stored long_tx ["b"] k) keys values.
Proof.
  assert (Hs : tx long_session = Some long_tx) by (vm_compute; reflexivity).
  assert (Hres : resolves long_tx ["b"] = Some long_bucket) by (vm_compute; reflexivity).
  assert (Hasc : ascending (keys_of (bolt.inodes long_bucket)) = true)
    by (vm_compute; reflexivity).
  split; [exact Hs |]. split; [exact Hres |]. split; [exact Hasc |].
  split; [vm_compute; reflexivity |].
  destruct (page_from_token long_session long_tx ["b"] long_bucket "05" Hs Hres Hasc)
    as [keys [values [next [HL [_ [Hlen [_ [_ [Hv _]]]]]]]]].
  exists keys, values, next. split; [exact HL |]. split; [exact Hlen | exact Hv].
Defined.

(** *** Names under a container *)

(** With a path that resolves on a bound session, [ListBuckets] returns what
    [ListKeys] returns: the keys of the container, those of plain values
    among them, not only the names of the buckets nested in it.  A key
    holding a plain value in a container of at most a hundred entries is in
    the one page [ListBuckets] returns from the empty token. *)
Theorem ListBuckets_lists_every_key :
  forall (s : Session) (t : bolt.Tx) (path : list string) (bk : bolt.bucket),
  tx s = Some t ->
  resolves t path = Some bk ->
  (forall pageToken, ListBuckets s path pageToken = ListKeys s path pageToken) /\
  (List.length (bolt.inodes bk) <= 100 ->
   ListBuckets s path EmptyString =
     Return (MkSession (store s) (Some t) None,
             (keys_of (bolt.inodes bk), EmptyString, None)) /\
   forall k v, bolt.find k (bolt.inodes bk) = Some (bolt.Value v) ->
               In k (keys_of (bolt.inodes bk))).
Proof.
  intros s t path bk Hs Hres. split.
  - intros pageToken. now apply ListBuckets_bound with t bk.
  - intros Hlen. split.
    + rewrite (ListBuckets_bound s t path EmptyString bk Hs Hres).
      rewrite (ListKeys_bound s t path EmptyString bk Hs Hres).
      cbv zeta. unfold page_start. cbn [String.eqb].
      rewrite (firstn_all2 (n := 100) (bolt.inodes bk)) by exact Hlen.
      rewrite (skipn_all2 (n := 100) (bolt.inodes bk)) by exact Hlen.
      reflexivity.
    + intros k v Hf. apply find_In in Hf.
      change k with (fst (k, bolt.Value (B := bolt.bucket) v)).
      unfold keys_of. now apply in_map.
Qed.

Lemma ListBuckets_lists_every_key_witness :
  tx sample = Some sample_tx /\
  resolves sample_tx sample_path = Some sample_bucket /\
  bolt.find "k1a" (bolt.inodes sample_bucket) = Some (bolt.Value (Some "v1a")) /\
  ListBuckets sample sample_path EmptyString =
    Return (MkSession (store sample) (Some sample_tx) None,
            (keys_of (bolt.inodes sample_bucket), EmptyString, None)) /\
  In "k1a" (keys_of (bolt.inodes sample_bucket)).
Proof.
  assert (Hs : tx sample = Some sample_tx) by (vm_compute; reflexivity).
  assert (Hres : resolves sample_tx sample_path = Some sample_bucket)
    by (vm_compute; reflexivity).
  assert (Hf : bolt.find "k1a" (bolt.inodes sample_bucket) =
               Some (bolt.Value (Some "v1a"))) by (vm_compute; reflexivity).
  assert (Hlen : List.length (bolt.inodes sample_bucket) <= 100)
    by (vm_compute; lia).
  destruct (ListBuckets_lists_every_key sample sample_tx sample_path sample_bucket
              Hs Hres) as [_ H].
  destruct (H Hlen) as [HL Hin].
  split; [exact Hs |]. split; [exact Hres |]. split; [exact Hf |].
  split; [exact HL | exact (Hin "k1a" (Some "v1a") Hf)].
Defined.

(** ** The writes a session accepts *)

Lemma creatable_empty (rest : list string) :
  creatable rest bolt.empty = forallb (fun q => negb (bolt.len q =? 0)%N) rest.
Proof.
  destruct rest as [| q rest]; [reflexivity |]. reflexivity.
Qed.

(** One step of the creating resolution, in a writable transaction. *)
Lemma CreateBucketIfNotExists_step (t : bolt.Tx) (h : bolt.handle) (p : string)
  (bk : bolt.bucket) :
  bolt.writable t = true ->
  bolt.bucket_at h (bolt.root t) = Some bk ->
  bolt.CreateBucketIfNotExists t h p =
  if (bolt.len p =? 0)%N
  then (t, (None, Some bolt.ErrBucketNameRequired))
  else match bolt.find p (bolt.inodes bk) with
       | Some (bolt.Sub _) => (t, (Some (h ++ [p]), None))
       | Some (bolt.Value _) => (t, (None, Some bolt.ErrIncompatibleValue))
       | None =>
           (bolt.update t h
              (fun b => bolt.MkBucket (bolt.sequence b)
                          (bolt.put p (bolt.Sub bolt.empty) (bolt.inodes b))),
            (Some (h ++ [p]), None))
       end.
Proof.
  intros Hw Hh.
  unfold bolt.CreateBucketIfNotExists, bolt.CreateBucket, bolt.Bucket.
  rewrite Hw. cbn [negb].
  destruct (bolt.len p =? 0)%N; [reflexivity |].
  rewrite (deref_at t h bk Hh).
  destruct (bolt.find p (bolt.inodes bk)) as [[v | c] |] eqn:Hf; try reflexivity.
  simpl. now rewrite (deref_at t h bk Hh), Hf.
Qed.

Lemma setBucketIfNotExist_range_index (s : Session) (path : list string) :
  forall rest i j b t,
  i <> 0 -> j <> 0 ->
  setBucketIfNotExist_range s path i b rest t =
  setBucketIfNotExist_range s path j b rest t.
Proof.
  induction rest as [| p rest IH]; intros i j b t Hi Hj; [reflexivity |].
  simpl.
  destruct (Nat.eqb_spec i 0) as [-> | _]; [now elim Hi |].
  destruct (Nat.eqb_spec j 0) as [-> | _]; [now elim Hj |].
  unfold bind.
  destruct (on_bucket b _ t) as [[[b' e] t'] | msg]; [| reflexivity].
  destruct e; [reflexivity |]. now apply IH.
Qed.

(** The creating resolution below a bucket succeeds exactly on the paths
    that are [creatable] there. *)
Lemma setBucketIfNotExist_range_creatable (s : Session) (path : list string) :
  forall rest h index bk t,
  index <> 0 ->
  bolt.writable t = true ->
  bolt.bucket_at h (bolt.root t) = Some bk ->
  creatable rest bk = true <->
  exists b t', setBucketIfNotExist_range s path index (Some h) rest t =
               Return ((b, None), t').
Proof.
  induction rest as [| p rest IH]; intros h index bk t Hi Hw Hh.
  - simpl. split; [intros _; now exists (Some h), t | reflexivity].
  - cbn [setBucketIfNotExist_range creatable].
    destruct (Nat.eqb_spec index 0) as [-> | _]; [now elim Hi |].
    unfold bind, on_bucket, writes.
    rewrite (CreateBucketIfNotExists_step t h p bk Hw Hh).
    destruct (bolt.len p =? 0)%N.
    { cbn. split; [discriminate | intros [b [t' H]]; discriminate]. }
    cbn [negb andb].
    destruct (bolt.find p (bolt.inodes bk)) as [[v | c] |] eqn:Hf.
    + cbn. split; [discriminate | intros [b [t' H]]; discriminate].
    + cbv beta iota.
      apply (IH (h ++ [p]) (S index) c t (Nat.neq_succ_0 index) Hw).
      rewrite bucket_at_app, Hh. simpl. rewrite child_find. now rewrite Hf.
    + cbv beta iota. rewrite <- creatable_empty.
      apply (IH (h ++ [p]) (S index) bolt.empty _ (Nat.neq_succ_0 index)); [exact Hw |].
      rewrite bucket_at_app.
      rewrite (deref_update t h
                 (fun b => bolt.MkBucket (bolt.sequence b)
                             (bolt.put p (bolt.Sub bolt.empty) (bolt.inodes b)))
                 bk Hh).
      simpl. now rewrite child_put_sub.
Qed.

Lemma setBucketIfNotExist_creatable (s : Session) (path : list string)
  (t0 t : bolt.Tx) :
  tx s = Some t0 ->
  bolt.writable t = true ->
  match path with
  | [] => false
  | _ :: _ => creatable path (bolt.root t)
  end = true <->
  exists b t', setBucketIfNotExist s path t = Return ((b, None), t').
Proof.
  intros Hs Hw. destruct path as [| p rest].
  - split; [discriminate | intros [b [t' H]]; discriminate].
  - unfold setBucketIfNotExist.
    assert (Heq : setBucketIfNotExist_range s (p :: rest) 0 None (p :: rest) t =
                  setBucketIfNotExist_range s (p :: rest) 1 (Some []) (p :: rest) t).
    { cbn [setBucketIfNotExist_range Nat.eqb]. unfold bind, on_s_tx, on_bucket.
      rewrite Hs.
      destruct (writes _ t) as [[[b' e] t'] | msg]; [| reflexivity].
      destruct e; [reflexivity |].
      apply setBucketIfNotExist_range_index; discriminate. }
    rewrite Heq.
    apply (setBucketIfNotExist_range_creatable s (p :: rest) (p :: rest) [] 1
             (bolt.root t) t); [discriminate | exact Hw | reflexivity].
Qed.

(** What the engine's [Put] accepts in a bucket. *)
Lemma Put_accepts (t : bolt.Tx) (h : bolt.handle) (key : string)
  (value : option string) (c : bolt.bucket) :
  bolt.bucket_at h (bolt.root t) = Some c ->
  snd (bolt.Put t h key value) = None <->
  bolt.writable t = true /\
  negb (bolt.len key =? 0)%N = true /\
  (bolt.len key <=? bolt.MaxKeySize)%N = true /\
  (bolt.len (bytes_of value) <=? bolt.MaxValueSize)%N = true /\
  match bolt.find key (bolt.inodes c) with
  | Some (bolt.Sub _) => false
  | _ => true
  end = true.
Proof.
  intros Hh. unfold bolt.Put. rewrite (deref_at t h c Hh).
  rewrite !N.ltb_antisym.
  replace (match value with Some v => bolt.len v | None => 0%N end)
    with (bolt.len (bytes_of value)) by (now destruct value).
  destruct (bolt.writable t); cbn [negb];
    [| split; [discriminate | intros [H _]; discriminate]].
  destruct (bolt.len key =? 0)%N; cbn [negb];
    [split; [discriminate | intros [_ [H _]]; discriminate] |].
  destruct (bolt.len key <=? bolt.MaxKeySize)%N; cbn [negb];
    [| split; [discriminate | intros [_ [_ [H _]]]; discriminate]].
  destruct (bolt.len (bytes_of value) <=? bolt.MaxValueSize)%N; cbn [negb];
    [| split; [discriminate | intros [_ [_ [_ [H _]]]]; discriminate]].
  destruct (bolt.find key (bolt.inodes c)) as [[v | c'] |]; cbn [snd];
    try (split; [intros _; repeat split | reflexivity]).
  split; [discriminate | intros [_ [_ [_ [_ H]]]]; discriminate].
Qed.

(** [Write] on a bound session once its path is resolved: what [Put]
    answers. *)
Lemma Write_run (s : Session) (t t1 : bolt.Tx) (path : list string) (key : string)
  (value : option string) :
  tx s = Some t ->
  setBucketIfNotExist s path t = Return ((Some path, None), t1) ->
  Write s path key value =
  Return (MkSession (store s) (Some (fst (bolt.Put t1 path key value)))
            (Wrapf_opt (snd (bolt.Put t1 path key value)) "createHandler" []),
          Wrapf_opt (snd (bolt.Put t1 path key value)) "createHandler" []).
Proof.
  intros Hs Hset. unfold Write. run_on_bound Hs. unfold Write_fn, bind.
  rewrite Hset. unfold on_bucket, writes.
  now destruct (bolt.Put t1 path key value) as [t2 [e2 |]].
Qed.

(** [Write] on a bound session returns nil exactly on the writes the
    transaction accepts. *)
Lemma Write_accepted (s : Session) (t : bolt.Tx) (path : list string) (key : string)
  (value : option string) :
  tx s = Some t ->
  accepted t path key value = true <->
  exists s1, Write s path key value = Return (s1, None).
Proof.
  intros Hs. unfold accepted. rewrite !andb_true_iff. split.
  - intros [[[[[Hw Hpath] Hk] Hkl] Hvl] Hsub].
    apply (setBucketIfNotExist_creatable s path t t Hs Hw) in Hpath.
    destruct Hpath as [b [t1 Hset]].
    destruct (setBucketIfNotExist_spec s path t t t1 b Hs Hset)
      as [-> [_ [Hw1 [_ [Hres1 _]]]]].
    rewrite (Write_run s t t1 path key value Hs Hset).
    assert (HP : snd (bolt.Put t1 path key value) = None).
    { apply (Put_accepts t1 path key value _ (resolves_at t1 path _ Hres1)).
      repeat split; trivial.
      destruct (resolves t path) as [bk |]; [exact Hsub | reflexivity]. }
    rewrite HP. eexists. reflexivity.
  - intros [s1 Hwr].
    destruct (Write_inv s s1 t path key value None Hs Hwr)
      as [[b [e0 [t1 [_ [_ He]]]]] | [t1 [Hset [_ He]]]]; [discriminate |].
    destruct (setBucketIfNotExist_spec s path t t t1 _ Hs Hset)
      as [_ [Hw [Hw1 [_ [Hres1 _]]]]].
    assert (HP : snd (bolt.Put t1 path key value) = None).
    { destruct (snd (bolt.Put t1 path key value)); [discriminate | reflexivity]. }
    apply (Put_accepts t1 path key value _ (resolves_at t1 path _ Hres1)) in HP.
    destruct HP as [_ [Hk [Hkl [Hvl Hsub]]]].
    repeat split; trivial.
    + apply (setBucketIfNotExist_creatable s path t t Hs Hw). eauto.
    + destruct (resolves t path) as [bk |]; [exact Hsub | reflexivity].
Qed.

(** C8, amended: on a session bound to a transaction, [Write(P,K,V)]
    returns no error exactly when the transaction is writable, P is not
    empty, has no empty segment and runs through no plain key, K is not
    empty, not longer than the engine's maximum and names no nested bucket
    of the container of P, and V is not larger than the engine's maximum.
    A [Read(P,K)] that follows in the same session then returns V with no
    error if V is not nil; and once the closer of the session has run (it
    commits), [Read(P,K)] in a later read or write session returns the
    bytes of V with no error. *)
Theorem write_then_read :
  forall (s : Session) (t : bolt.Tx) (path : list string) (key : string)
         (value : option string),
  tx s = Some t ->
  (accepted t path key value = true <->
   exists s1, Write s path key value = Return (s1, None)) /\
  (forall s1,
     Write s path key value = Return (s1, None) ->
     (forall v, value = Some v -> Read s1 path key = Return (s1, (Some v, None))) /\
     exists st',
       WriteSession_closer s1 = Return st' /\
       Read (ReadSession st') path key =
         Return (ReadSession st', (Some (bytes_of value), None)) /\
       Read (WriteSession st') path key =
         Return (WriteSession st', (Some (bytes_of value), None))).
Proof.
  intros s t path key value Hs. split.
  - exact (Write_accepted s t path key value Hs).
  - intros s1 Hwr. exact (Write_read_back s s1 t path key value Hs Hwr).
Qed.

Lemma write_then_read_witness :
  tx (WriteSession emptyStore) = Some (DB.Begin (db emptyStore) true) /\
  accepted (DB.Begin (db emptyStore) true) ["test"; "sub"] "read-key"
    (Some "read-value") = true /\
  exists s1,
    Write (WriteSession emptyStore) ["test"; "sub"] "read-key" (Some "read-value")
      = Return (s1, None) /\
    Read s1 ["test"; "sub"] "read-key" = Return (s1, (Some "read-value", None)) /\
    exists st',
      WriteSession_closer s1 = Return st' /\
      Read (ReadSession st') ["test"; "sub"] "read-key" =
        Return (ReadSession st', (Some "read-value", None)) /\
      Read (WriteSession st') ["test"; "sub"] "read-key" =
        Return (WriteSession st', (Some "read-value", None)).
Proof.
  assert (Hs : tx (WriteSession emptyStore) = Some (DB.Begin (db emptyStore) true))
    by reflexivity.
  assert (Ha : accepted (DB.Begin (db emptyStore) true) ["test"; "sub"] "read-key"
                 (Some "read-value") = true) by (vm_compute; reflexivity).
  destruct (write_then_read (WriteSession emptyStore) (DB.Begin (db emptyStore) true)
              ["test"; "sub"] "read-key" (Some "read-value") Hs) as [Hacc Hback].
  destruct (proj1 Hacc Ha) as [s1 Hwr].
  destruct (Hback s1 Hwr) as [Hread Hlater].
  split; [exact Hs |]. split; [exact Ha |].
  exists s1. split; [exact Hwr |]. split; [exact (Hread "read-value" eq_refl) |].
  exact Hlater.
Defined.

(** ** Buckets and plain keys under one container *)

(** C6: paged from the empty token until the token is empty, [ListBuckets]
    with a non-empty path returns every key of the container, those of
    plain values among them: a key that holds a plain value is among the
    names returned, although [BucketExists] says that the path it ends is
    no bucket.  [List] and [ListKeys] return the entries of the container
    and their keys, each once and in ascending order. *)
Theorem ListBuckets_pages_plain_keys :
  forall (s : Session) (t : bolt.Tx) (path : list string) (bk : bolt.bucket)
         (fuel : nat) (k : string) (v : option string),
  tx s = Some t ->
  resolves t path = Some bk ->
  ascending (keys_of (bolt.inodes bk)) = true ->
  List.length (bolt.inodes bk) < fuel ->
  bolt.find k (bolt.inodes bk) = Some (bolt.Value v) ->
  exists names,
    ListBuckets_all fuel s path EmptyString = Some names /\
    In k names /\
    result_of (BucketExists s (path ++ [k])) = Some false /\
    ListKeys_all fuel s path EmptyString = Some names /\
    List_all fuel s path EmptyString = Some (names, values_of (bolt.inodes bk)) /\
    ascending names = true /\ NoDup names.
Proof.
  intros s t path bk fuel k v Hs Hres Hasc Hfuel Hf.
  destruct (paging_complete s t path bk fuel Hs Hres Hasc Hfuel)
    as [HL [HK [HB Hnd]]].
  exists (keys_of (bolt.inodes bk)).
  split; [exact HB |]. split.
  { apply find_In in Hf. unfold keys_of.
    change k with (fst (k, bolt.Value (B := bolt.bucket) v)). now apply in_map. }
  split.
  { rewrite (BucketExists_bound s t (path ++ [k]) Hs).
    assert (Hne : path <> []) by (intros ->; discriminate).
    rewrite (resolves_snoc t path k Hne), Hres, child_find, Hf. reflexivity. }
  split; [exact HK |]. split; [exact HL |]. split; [exact Hasc | exact Hnd].
Qed.

Lemma ListBuckets_pages_plain_keys_witness :
  tx mixed = Some (tx_of mixed) /\
  resolves (tx_of mixed) ["a"] = Some (bucket_of mixed ["a"]) /\
  bolt.find "k1" (bolt.inodes (bucket_of mixed ["a"])) = Some (bolt.Value (Some "v1")) /\
  ListBuckets mixed ["a"] EmptyString = Return (mixed, (["k1"; "sub"], EmptyString, None)) /\
  result_of (BucketExists mixed ["a"; "k1"]) = Some false /\
  result_of (BucketExists mixed ["a"; "sub"]) = Some true /\
  exists names,
    ListBuckets_all 3 mixed ["a"] EmptyString = Some names /\ In "k1" names.
Proof.
  assert (Hs : tx mixed = Some (tx_of mixed)) by (vm_compute; reflexivity).
  assert (Hres : resolves (tx_of mixed) ["a"] = Some (bucket_of mixed ["a"]))
    by (vm_compute; reflexivity).
  assert (Hf : bolt.find "k1" (bolt.inodes (bucket_of mixed ["a"])) =
               Some (bolt.Value (Some "v1"))) by (vm_compute; reflexivity).
  assert (Hasc : ascending (keys_of (bolt.inodes (bucket_of mixed ["a"]))) = true)
    by (vm_compute; reflexivity).
  assert (Hlen : List.length (bolt.inodes (bucket_of mixed ["a"])) < 3)
    by (vm_compute; lia).
  destruct (ListBuckets_pages_plain_keys mixed (tx_of mixed) ["a"]
              (bucket_of mixed ["a"]) 3 "k1" (Some "v1") Hs Hres Hasc Hlen Hf)
    as [names [HB [Hin [Hex _]]]].
  split; [exact Hs |]. split; [exact Hres |]. split; [exact Hf |].
  split; [vm_compute; reflexivity |].
  split; [exact Hex |].
  split; [vm_compute; reflexivity |].
  exists names. split; [exact HB | exact Hin].
Defined.

(** ** Sessions and their transaction *)



